(** * isgd-ap-timer: the Timer state machine of [app.js]

    A shallow embedding of the [AlarmSound] and [Timer] classes and of the
    App Controller of [src/app.js], together with the browser's interval
    table ([setInterval] / [clearInterval]) that the Timer relies on.

    - Numbers are JavaScript numbers holding integers far below 2^53, so
      they are modelled by [Z]; [Math.floor (x / 1000)] is [Z.div] (floor
      division for a positive divisor) and [%] is [Z.rem] (the sign follows
      the dividend).
    - [Date.now ()] is an input: every operation that reads the clock takes
      the reading as an argument.
    - Objects live in a store: Timer objects in [heap], keyed by reference;
      the single module-level [alarm] object is one field of the world, so
      that every Timer reaches the same object.
    - The arrow function passed to [setInterval] is a [Closure]: it captures
      [this], [startTime] and [startSeconds]; it reads [this.mode] and
      writes [this.totalSeconds] when it is called.
    - Of the DOM only the [alarming] class of the card is kept; button
      states, the hidden flags and the rendered text never flow back into
      the Timer's fields and are left out. *)

From stdpp Require Import gmap strings list fin_maps pretty.
From Stdlib Require Import ZArith Lia.

Open Scope Z_scope.

(** ** AlarmSound *)

Module AlarmSound.

(** [ctx] is [true] once the AudioContext exists; [oscillators] counts the
    nodes held in the array of the same name. *)
Record t := mk {
  ctx : bool;
  playing : bool;
  oscillators : nat
}.

Definition new : t := mk false false 0.

Definition init (a : t) : t :=
  mk true (playing a) (oscillators a).

Definition _beepLoop (a : t) : t :=
  if negb (playing a) then a
  else mk (ctx a) (playing a) (S (oscillators a)).

Definition play (a : t) : t :=
  let a := init a in
  if playing a then a
  else _beepLoop (mk (ctx a) true (oscillators a)).

Definition stop (a : t) : t :=
  mk (ctx a) false 0.

End AlarmSound.

(** ** Timer *)

Inductive Mode := Down | Up.

Inductive Unit := UnitH | UnitM | UnitS.

Global Instance Mode_eq_dec : EqDecision Mode.
Proof. solve_decision. Defined.

Record Timer := mkTimer {
  index : nat;
  mode : Mode;
  running : bool;
  intervalId : option nat;
  totalSeconds : Z;
  targetSeconds : Z;
  recording : bool;
  setH : Z;
  setM : Z;
  setS : Z;
  alarming : bool
}.

(** The constructor: [new Timer (card, index)]. *)
Definition newTimer (idx : nat) : Timer :=
  mkTimer idx Down false None 0 0 false 0 0 0 false.

Definition set_mode (v : Mode) (t : Timer) : Timer :=
  mkTimer (index t) v (running t) (intervalId t) (totalSeconds t)
    (targetSeconds t) (recording t) (setH t) (setM t) (setS t) (alarming t).

Definition set_running (v : bool) (t : Timer) : Timer :=
  mkTimer (index t) (mode t) v (intervalId t) (totalSeconds t)
    (targetSeconds t) (recording t) (setH t) (setM t) (setS t) (alarming t).

Definition set_intervalId (v : option nat) (t : Timer) : Timer :=
  mkTimer (index t) (mode t) (running t) v (totalSeconds t)
    (targetSeconds t) (recording t) (setH t) (setM t) (setS t) (alarming t).

Definition set_totalSeconds (v : Z) (t : Timer) : Timer :=
  mkTimer (index t) (mode t) (running t) (intervalId t) v
    (targetSeconds t) (recording t) (setH t) (setM t) (setS t) (alarming t).

Definition set_targetSeconds (v : Z) (t : Timer) : Timer :=
  mkTimer (index t) (mode t) (running t) (intervalId t) (totalSeconds t)
    v (recording t) (setH t) (setM t) (setS t) (alarming t).

Definition set_recording (v : bool) (t : Timer) : Timer :=
  mkTimer (index t) (mode t) (running t) (intervalId t) (totalSeconds t)
    (targetSeconds t) v (setH t) (setM t) (setS t) (alarming t).

Definition set_alarming (v : bool) (t : Timer) : Timer :=
  mkTimer (index t) (mode t) (running t) (intervalId t) (totalSeconds t)
    (targetSeconds t) (recording t) (setH t) (setM t) (setS t) v.

(** [this[key]] for the key chosen from the unit. *)
Definition getUnit (u : Unit) (t : Timer) : Z :=
  match u with UnitH => setH t | UnitM => setM t | UnitS => setS t end.

Definition setUnit (u : Unit) (v : Z) (t : Timer) : Timer :=
  match u with
  | UnitH =>
      mkTimer (index t) (mode t) (running t) (intervalId t) (totalSeconds t)
        (targetSeconds t) (recording t) v (setM t) (setS t) (alarming t)
  | UnitM =>
      mkTimer (index t) (mode t) (running t) (intervalId t) (totalSeconds t)
        (targetSeconds t) (recording t) (setH t) v (setS t) (alarming t)
  | UnitS =>
      mkTimer (index t) (mode t) (running t) (intervalId t) (totalSeconds t)
        (targetSeconds t) (recording t) (setH t) (setM t) v (alarming t)
  end.

(** [const max = unit === 'h' ? 23 : 59]. *)
Definition unitMax (u : Unit) : Z :=
  match u with UnitH => 23 | _ => 59 end.

(** [_adjustPicker (unit, dir)]: the new unit value, then [targetSeconds],
    then [totalSeconds]. There is no test of [mode] or [running] here. *)
Definition _adjustPicker (u : Unit) (dir : Z) (t : Timer) : Timer :=
  let max := unitMax u in
  let t := setUnit u (Z.rem (getUnit u t + dir + max + 1) (max + 1)) t in
  let t := set_targetSeconds (setH t * 3600 + setM t * 60 + setS t) t in
  set_totalSeconds (targetSeconds t) t.

(** [_syncFromPicker ()] of the drum-picker variant of the class, called
    by the pickers' [onChange] after [setH], [setM] or [setS] was stored. *)
Definition _syncFromPicker (t : Timer) : Timer :=
  let t := set_targetSeconds (setH t * 3600 + setM t * 60 + setS t) t in
  set_totalSeconds (targetSeconds t) t.

(** [(v) => { this.setX = v; this._syncFromPicker (); }] *)
Definition pickerOnChange (u : Unit) (v : Z) (t : Timer) : Timer :=
  _syncFromPicker (setUnit u v t).

(** ** The world: alarm, heap, interval table, App Controller *)

(** What the interval callback created by [start ()] captures. *)
Record Closure := mkClosure {
  owner : nat;
  startTime : Z;
  startSeconds : Z
}.

Inductive AlarmCall := CallInit | CallPlay | CallStop.

Global Instance AlarmCall_eq_dec : EqDecision AlarmCall.
Proof. solve_decision. Defined.

(** [alarmCalls] is the history of the calls that Timer methods made on the
    shared [alarm], newest first, each with the reference of the calling
    Timer. [nextRef] and [nextIntervalId] are the allocation counters of
    the object store and of [setInterval]. [timers] is the App
    Controller's array. *)
Record World := mkWorld {
  alarm : AlarmSound.t;
  alarmCalls : list (nat * AlarmCall);
  heap : gmap nat Timer;
  nextRef : nat;
  intervals : gmap nat Closure;
  nextIntervalId : nat;
  timers : list nat
}.

Definition initialWorld : World :=
  mkWorld AlarmSound.new [] ∅ 0%nat ∅ 1%nat [].

Definition callAlarm (i : nat) (c : AlarmCall) (w : World) : World :=
  let a :=
    match c with
    | CallInit => AlarmSound.init (alarm w)
    | CallPlay => AlarmSound.play (alarm w)
    | CallStop => AlarmSound.stop (alarm w)
    end in
  mkWorld a ((i, c) :: alarmCalls w) (heap w) (nextRef w) (intervals w)
    (nextIntervalId w) (timers w).

(** A field assignment [this.f = v] on the Timer at reference [i]. *)
Definition update (i : nat) (f : Timer → Timer) (w : World) : World :=
  match heap w !! i with
  | None => w
  | Some t =>
      mkWorld (alarm w) (alarmCalls w) (<[i := f t]> (heap w)) (nextRef w)
        (intervals w) (nextIntervalId w) (timers w)
  end.

(** [clearInterval (id)]; [clearInterval (null)] does nothing. *)
Definition clearInterval (id : option nat) (w : World) : World :=
  match id with
  | None => w
  | Some k =>
      mkWorld (alarm w) (alarmCalls w) (heap w) (nextRef w)
        (delete k (intervals w)) (nextIntervalId w) (timers w)
  end.

(** [setInterval (callback, 250)]: registers the callback under a fresh id
    and returns the id. *)
Definition setInterval (c : Closure) (w : World) : nat * World :=
  let k := nextIntervalId w in
  (k, mkWorld (alarm w) (alarmCalls w) (heap w) (nextRef w)
        (<[k := c]> (intervals w)) (S k) (timers w)).

(** [stop ()] *)
Definition stop (i : nat) (w : World) : World :=
  match heap w !! i with
  | None => w
  | Some t =>
      if negb (running t) then w
      else
        let w := update i (set_running false) w in
        let w := clearInterval (intervalId t) w in
        update i (set_intervalId None) w
  end.

(** [stopAlarm ()] *)
Definition stopAlarm (i : nat) (w : World) : World :=
  let w := update i (set_alarming false) w in
  callAlarm i CallStop w.

(** [_triggerAlarm ()] *)
Definition _triggerAlarm (i : nat) (w : World) : World :=
  let w := stop i w in
  let w := update i (set_totalSeconds 0) w in
  let w := update i (set_alarming true) w in
  callAlarm i CallPlay w.

(** [reset ()] *)
Definition reset (i : nat) (w : World) : World :=
  let w := stopAlarm i w in
  let w := stop i w in
  match heap w !! i with
  | None => w
  | Some t =>
      match mode t with
      | Down => update i (set_totalSeconds (targetSeconds t)) w
      | Up => update i (set_totalSeconds 0) w
      end
  end.

(** [destroy ()] *)
Definition destroy (i : nat) (w : World) : World :=
  let w := stopAlarm i w in
  stop i w.

(** [start ()], with [now] the value that [Date.now ()] returns. *)
Definition start (i : nat) (now : Z) (w : World) : World :=
  let w := callAlarm i CallInit w in
  match heap w !! i with
  | None => w
  | Some t =>
      if running t then w
      else if bool_decide (mode t = Down) && (totalSeconds t <=? 0) then w
      else
        let w := update i (set_running true) w in
        let '(k, w) := setInterval (mkClosure i now (totalSeconds t)) w in
        update i (set_intervalId (Some k)) w
  end.

(** The body of the interval callback of [start ()], run by the browser
    for the registered id [k] when [Date.now ()] returns [now]. An id that
    is not in the table has no callback to run. *)
Definition tick (k : nat) (now : Z) (w : World) : World :=
  match intervals w !! k with
  | None => w
  | Some c =>
      let i := owner c in
      match heap w !! i with
      | None => w
      | Some t =>
          let elapsed := (now - startTime c) / 1000 in
          match mode t with
          | Up => update i (set_totalSeconds (startSeconds c + elapsed)) w
          | Down =>
              let n := Z.max 0 (startSeconds c - elapsed) in
              let w := update i (set_totalSeconds n) w in
              if n <=? 0 then _triggerAlarm i w else w
          end
      end
  end.

(** *** Event handlers bound in [_bindEvents ()] *)

(** Click on a mode toggle button whose [data-mode] is [md]. *)
Definition clickToggle (i : nat) (md : Mode) (w : World) : World :=
  match heap w !! i with
  | None => w
  | Some t =>
      if running t then w
      else reset i (update i (set_mode md) w)
  end.

(** Click on a picker arrow; [dataDir] is the button's [data-dir]. *)
Definition clickArrow (i : nat) (u : Unit) (dataDir : string) (w : World)
  : World :=
  match heap w !! i with
  | None => w
  | Some t =>
      if running t then w
      else
        let dir := if String.eqb dataDir "up" then 1 else -1 in
        update i (_adjustPicker u dir) w
  end.

(** Click on the recording button. *)
Definition clickRec (i : nat) (w : World) : World :=
  match heap w !! i with
  | None => w
  | Some t => update i (set_recording (negb (recording t))) w
  end.

(** Click on the card outside its buttons: acknowledges the alarm. *)
Definition clickCard (i : nat) (w : World) : World :=
  match heap w !! i with
  | None => w
  | Some t => if alarming t then stopAlarm i w else w
  end.

(** *** App Controller *)

(** The property names that the object literal [MODES] inherits from
    [Object.prototype]. The value found under each of them is a function
    (the prototype object itself for ["__proto__"]): it is truthy and it
    has no [count]. *)
Definition objectPrototypeKeys : list string :=
  ["constructor"; "__defineGetter__"; "__defineSetter__"; "hasOwnProperty";
   "__lookupGetter__"; "__lookupSetter__"; "isPrototypeOf";
   "propertyIsEnumerable"; "toString"; "valueOf"; "__proto__";
   "toLocaleString"].

(** [const cfg = MODES[modeKey]]: [None] when the lookup is [undefined]
    and [if (!cfg) return] leaves, otherwise the number of rounds of
    [for (let i = 0; i < cfg.count; i++)]. For the two entries of the
    literal that is their [count]. A value inherited from the prototype
    passes the guard too; its [count] is [undefined] and [0 < undefined]
    is false, so the loop makes no round. *)
Definition MODES (modeKey : string) : option nat :=
  if String.eqb modeKey "isgd" then Some 1%nat
  else if String.eqb modeKey "ap" then Some 2%nat
  else if existsb (String.eqb modeKey) objectPrototypeKeys then Some 0%nat
  else None.

(** [timers.push (new Timer (insertedCard, i))] *)
Definition pushTimer (idx : nat) (w : World) : World :=
  let r := nextRef w in
  mkWorld (alarm w) (alarmCalls w) (<[r := newTimer idx]> (heap w)) (S r)
    (intervals w) (nextIntervalId w) (timers w ++ [r]).

(** [timers.forEach (t => t.destroy ()); timers = []] *)
Definition destroyAll (w : World) : World :=
  let w := foldl (fun w r => destroy r w) w (timers w) in
  mkWorld (alarm w) (alarmCalls w) (heap w) (nextRef w) (intervals w)
    (nextIntervalId w) [].

Definition showTimerScreen (modeKey : string) (w : World) : World :=
  match MODES modeKey with
  | None => w
  | Some count =>
      foldl (fun w idx => pushTimer idx w) (destroyAll w) (seq 0 count)
  end.

Definition showModeSelect (w : World) : World := destroyAll w.

(** ** Runs *)

(** What can happen to the page: user input, a direct call of a public
    method on a Timer object, or the browser running an interval
    callback. *)
Inductive Event :=
  | EvShowTimerScreen (modeKey : string)
  | EvShowModeSelect
  | EvClickToggle (i : nat) (md : Mode)
  | EvClickArrow (i : nat) (u : Unit) (dataDir : string)
  | EvClickRec (i : nat)
  | EvStart (i : nat) (now : Z)
  | EvStop (i : nat)
  | EvReset (i : nat)
  | EvClickCard (i : nat)
  | EvStopAlarm (i : nat)
  | EvDestroy (i : nat)
  | EvTick (k : nat) (now : Z).

Definition step (w : World) (e : Event) : World :=
  match e with
  | EvShowTimerScreen key => showTimerScreen key w
  | EvShowModeSelect => showModeSelect w
  | EvClickToggle i md => clickToggle i md w
  | EvClickArrow i u d => clickArrow i u d w
  | EvClickRec i => clickRec i w
  | EvStart i now => start i now w
  | EvStop i => stop i w
  | EvReset i => reset i w
  | EvClickCard i => clickCard i w
  | EvStopAlarm i => stopAlarm i w
  | EvDestroy i => destroy i w
  | EvTick k now => tick k now w
  end.

Definition run (w : World) (evs : list Event) : World :=
  foldl step w evs.

Definition reachable (w : World) : Prop :=
  ∃ evs, w = run initialWorld evs.

(** ** Notions used in the statements *)

(** What [stop ()] does to the fields of its own object. *)
Definition stopT (t : Timer) : Timer :=
  if running t then set_intervalId None (set_running false t) else t.

(** The interval table after [stop ()] on the Timer at [i]. *)
Definition stopIntervals (i : nat) (w : World) : gmap nat Closure :=
  match heap w !! i with
  | Some t =>
      if running t then
        match intervalId t with
        | Some k => delete k (intervals w)
        | None => intervals w
        end
      else intervals w
  | None => intervals w
  end.

(** Whether [start ()] gets past its two guards. *)
Definition starts (t : Timer) : bool :=
  negb (running t)
  && negb (bool_decide (mode t = Down) && (totalSeconds t <=? 0)).

(** Every registered callback belongs to a Timer that is running and that
    holds the callback's id in [intervalId]. *)
Definition intervals_owned (w : World) : Prop :=
  ∀ k c, intervals w !! k = Some c →
    ∃ t, heap w !! owner c = Some t ∧ running t = true
         ∧ intervalId t = Some k.

Definition ids_fresh (w : World) : Prop :=
  ∀ k c, intervals w !! k = Some c → (k < nextIntervalId w)%nat.

Definition refs_fresh (w : World) : Prop :=
  ∀ i t, heap w !! i = Some t → (i < nextRef w)%nat.

(** A running countdown has not reached zero. *)
Definition countdown_positive_at (i : nat) (w : World) : Prop :=
  ∀ t, heap w !! i = Some t → running t = true → mode t = Down →
    0 < totalSeconds t.

Definition countdown_positive (w : World) : Prop :=
  ∀ i, countdown_positive_at i w.

Definition countdown_positive_except (i : nat) (w : World) : Prop :=
  ∀ j, j ≠ i → countdown_positive_at j w.

Definition structure_ok (w : World) : Prop :=
  intervals_owned w ∧ ids_fresh w ∧ refs_fresh w.

Definition wf (w : World) : Prop :=
  structure_ok w ∧ countdown_positive w.

(** A field update that leaves [running] and [intervalId] alone. *)
Definition keeps_poll (f : Timer → Timer) : Prop :=
  ∀ t, running (f t) = running t ∧ intervalId (f t) = intervalId t.

(** The Timer at [i] is not running (or there is none). *)
Definition idle (i : nat) (w : World) : Prop :=
  ∀ t, heap w !! i = Some t → running t = false.

(** No registered callback belongs to the Timer at [i]. *)
Definition no_poll (i : nat) (w : World) : Prop :=
  ∀ k c, intervals w !! k = Some c → owner c ≠ i.

(** How often the Timer at [i] has called [alarm.play ()]. *)
Definition playCount (i : nat) (w : World) : nat :=
  length (filter (λ e, e = (i, CallPlay)) (alarmCalls w)).

(** The value that the callback stores in [totalSeconds]. *)
Definition recompute (md : Mode) (c : Closure) (now : Z) : Z :=
  let elapsed := (now - startTime c) / 1000 in
  match md with
  | Up => startSeconds c + elapsed
  | Down => Z.max 0 (startSeconds c - elapsed)
  end.

(** A list of callback runs: the id and the clock reading of each. *)
Definition runTicks (w : World) (ticks : list (nat * Z)) : World :=
  run w (map (λ p, EvTick p.1 p.2) ticks).

(** The claim of the specification about duration adjustment, as it is
    written: [targetSeconds] is recomputed, and [totalSeconds] is set to it
    exactly in CountDown mode, being left unchanged in CountUp mode. *)
Definition adjustment_follows_mode (w : World) (i : nat) (u : Unit)
    (d : string) : Prop :=
  ∀ t t', heap w !! i = Some t → running t = false →
    heap (clickArrow i u d w) !! i = Some t' →
    targetSeconds t' = setH t' * 3600 + setM t' * 60 + setS t'
    ∧ (totalSeconds t' = targetSeconds t' ↔ mode t = Down)
    ∧ (mode t = Up → totalSeconds t' = totalSeconds t).

(** A stopwatch stopped at 7 seconds. *)
Definition stoppedStopwatch : World :=
  run initialWorld
    [EvShowTimerScreen "isgd"; EvClickToggle 0 Up; EvStart 0 0;
     EvTick 1 7000; EvStop 0].

(** Two countdowns of one second each, both expired and unacknowledged. *)
Definition bothAlarming : World :=
  run initialWorld
    [EvShowTimerScreen "ap";
     EvClickArrow 0 UnitS "up"; EvClickArrow 1 UnitS "up";
     EvStart 0 0; EvStart 1 0; EvTick 1 1000; EvTick 2 1000].

(** A stopwatch started at clock reading 0 and polled once, late. *)
Definition runningStopwatch : World :=
  run initialWorld
    [EvShowTimerScreen "isgd"; EvClickToggle 0 Up; EvStart 0 0].

(** A countdown of two seconds, started at clock reading 5000. *)
Definition runningCountdown : World :=
  run initialWorld
    [EvShowTimerScreen "isgd";
     EvClickArrow 0 UnitS "up"; EvClickArrow 0 UnitS "up"; EvStart 0 5000].

Definition timer_nonneg (t : Timer) : Prop :=
  0 ≤ totalSeconds t ∧ 0 ≤ targetSeconds t
  ∧ 0 ≤ setH t ≤ 23 ∧ 0 ≤ setM t ≤ 59 ∧ 0 ≤ setS t ≤ 59.

Definition nonneg (w : World) : Prop :=
  (∀ i t, heap w !! i = Some t → timer_nonneg t)
  ∧ (∀ k c, intervals w !! k = Some c → 0 ≤ startSeconds c).

(** The clock reading of a callback run is not earlier than the reading
    that the callback captured when [start ()] registered it. *)
Definition clock_ok (w : World) (e : Event) : bool :=
  match e with
  | EvTick k now =>
      match intervals w !! k with
      | Some c => startTime c <=? now
      | None => true
      end
  | _ => true
  end.

Fixpoint admissible (w : World) (evs : list Event) : bool :=
  match evs with
  | [] => true
  | e :: evs => clock_ok w e && admissible (step w e) evs
  end.

(** The same condition, asked only of the callbacks of Timers that are in
    CountUp mode when the callback runs; a callback of a CountDown Timer
    may run at any clock reading. *)
Definition countup_clock_ok (w : World) (e : Event) : bool :=
  match e with
  | EvTick k now =>
      match intervals w !! k with
      | Some c =>
          match heap w !! owner c with
          | Some t =>
              match mode t with
              | Up => startTime c <=? now
              | Down => true
              end
          | None => true
          end
      | None => true
      end
  | _ => true
  end.

Fixpoint countup_admissible (w : World) (evs : list Event) : bool :=
  match evs with
  | [] => true
  | e :: evs => countup_clock_ok w e && countup_admissible (step w e) evs
  end.

(** A stopwatch started at clock reading 5000 whose callback then runs
    with the clock at 0, the wall clock having been set back. *)
Definition clockSetBack : list Event :=
  [EvShowTimerScreen "isgd"; EvClickToggle 0 Up; EvStart 0 5000; EvTick 1 0].

(** ** Further notions: settings, polling, the App Controller's array *)

(** The settings that the mode toggle and the picker arrows edit. *)
Definition config (t : Timer) : Mode * Z * Z * Z * Z :=
  (mode t, targetSeconds t, setH t, setM t, setS t).

(** The unit values are in their ranges and [targetSeconds] is the
    duration they spell. *)
Definition units_ok (t : Timer) : Prop :=
  0 ≤ setH t ≤ 23 ∧ 0 ≤ setM t ≤ 59 ∧ 0 ≤ setS t ≤ 59
  ∧ targetSeconds t = setH t * 3600 + setM t * 60 + setS t.

(** A running Timer holds the id of a registered callback of its own; a
    Timer that is not running holds [null]. *)
Definition poll_matches_running (w : World) : Prop :=
  ∀ i t, heap w !! i = Some t →
    if running t
    then ∃ k c, intervalId t = Some k ∧ intervals w !! k = Some c
                ∧ owner c = i
    else intervalId t = None.

(** Every registered callback belongs to a Timer of the App Controller's
    array. *)
Definition polls_listed (w : World) : Prop :=
  ∀ k c, intervals w !! k = Some c → owner c ∈ timers w.

(** The Timer that an input event or a direct method call is addressed
    to. *)
Definition target (e : Event) : option nat :=
  match e with
  | EvClickToggle i _ | EvClickArrow i _ _ | EvClickRec i | EvStart i _
  | EvStop i | EvReset i | EvClickCard i | EvStopAlarm i | EvDestroy i =>
      Some i
  | EvShowTimerScreen _ | EvShowModeSelect | EvTick _ _ => None
  end.

(** [n] clicks on the same picker arrow. *)
Definition clickArrows (n : nat) (i : nat) (u : Unit) (d : string)
    (w : World) : World :=
  Nat.iter n (clickArrow i u d) w.

(** The numbers that [_updateDisplay ()] renders for [totalSeconds = t]:
    [Math.floor (t / 3600)], [Math.floor ((t % 3600) / 60)], [t % 60]. *)
Definition displayHMS (t : Z) : Z * Z * Z :=
  (t / 3600, Z.rem t 3600 / 60, Z.rem t 60).

(** The field assignments that the methods and handlers make, apart from
    those of [start ()] and [stop ()] to [running] and [intervalId]. *)
Inductive field_write : (Timer → Timer) → Prop :=
  | fw_totalSeconds v : field_write (set_totalSeconds v)
  | fw_alarming v : field_write (set_alarming v)
  | fw_mode v : field_write (set_mode v)
  | fw_recording v : field_write (set_recording v)
  | fw_adjust_up u : field_write (_adjustPicker u 1)
  | fw_adjust_down u : field_write (_adjustPicker u (-1)).

(** [timers = []] *)
Definition clearTimers (w : World) : World :=
  mkWorld (alarm w) (alarmCalls w) (heap w) (nextRef w) (intervals w)
    (nextIntervalId w) [].

Global Instance Unit_eq_dec : EqDecision Unit.
Proof. solve_decision. Defined.

(** A property of every Timer in the store. *)
Definition heap_all (P : Timer → Prop) (w : World) : Prop :=
  ∀ i t, heap w !! i = Some t → P t.

Definition polling_ok (w : World) : Prop :=
  structure_ok w ∧ poll_matches_running w.

(** [String.prototype.padStart (targetLength, padString)] for a pad string
    of one character. *)
Fixpoint repeatChar (n : nat) (c : Ascii.ascii) : string :=
  match n with
  | O => EmptyString
  | S n => String c (repeatChar n c)
  end.

(** The character ['0']. *)
Definition zeroChar : Ascii.ascii := Ascii.ascii_of_nat 48.

Definition padStart (targetLength : nat) (padChar : Ascii.ascii) (s : string)
  : string :=
  repeatChar (targetLength - String.length s) padChar +:+ s.

(** The text that [_updateDisplay ()] writes for [totalSeconds = t];
    [String (n)] of an integer is its decimal numeral, [pretty n]. *)
Definition displayText (t : Z) : string :=
  let '(h, m, s) := displayHMS t in
  padStart 2 zeroChar (pretty h) +:+ ":" +:+ padStart 2 zeroChar (pretty m)
    +:+ ":" +:+ padStart 2 zeroChar (pretty s).

(** What a Timer shows of a countdown: a CountDown Timer holds a value
    between 0 and its [targetSeconds]. *)
Definition in_target (t : Timer) : Prop :=
  mode t = Down → 0 ≤ totalSeconds t ≤ targetSeconds t.

Definition within_target (w : World) : Prop :=
  (∀ i t, heap w !! i = Some t → in_target t)
  ∧ (∀ k c t, intervals w !! k = Some c → heap w !! owner c = Some t →
       mode t = Down → startSeconds c ≤ targetSeconds t).

Definition shown (t : Timer) : Mode * Z * Z :=
  (mode t, totalSeconds t, targetSeconds t).

(** ** The service worker ([sw.js])

    The Cache Storage is a list of named caches in creation order, each a
    map from request URL to response; requests are the GET requests of
    the app's own assets, identified by their URL. What the network
    answers is an input: [None] stands for a [fetch] that rejects. Each
    handler's promise chain is taken to have settled before the next
    event is looked at. *)

Module ServiceWorker.

Definition CACHE_NAME : string := "three-timer-v5".

Definition ASSETS : list string :=
  ["./"; "./index.html"; "./style.css"; "./app.js"; "./manifest.json";
   "./icons/icon.svg"].

Record Response := mkResponse {
  ok : bool;
  body : string
}.

Abbreviation Cache := (gmap string Response).

(** [caches.keys ()] *)
Definition keys (cs : list (string * Cache)) : list string := fst <$> cs.

(** [caches.open (name)]: the cache of that name, created empty at the
    end of the list if there is none. *)
Definition open (name : string) (cs : list (string * Cache))
  : list (string * Cache) :=
  if decide (name ∈ keys cs) then cs else cs ++ [(name, ∅)].

(** [cache.put (request, response)] on the cache called [name]. *)
Definition put (name url : string) (r : Response)
    (cs : list (string * Cache)) : list (string * Cache) :=
  (λ p, if decide (p.1 = name) then (p.1, <[url := r]> p.2) else p) <$> cs.

(** [caches.delete (name)] *)
Definition delete (name : string) (cs : list (string * Cache))
  : list (string * Cache) :=
  filter (λ p, p.1 ≠ name) cs.

(** [caches.match (request)]: the first cache, in creation order, that
    holds the request answers. *)
Fixpoint cachesMatch (url : string) (cs : list (string * Cache))
  : option Response :=
  match cs with
  | [] => None
  | p :: cs =>
      match p.2 !! url with
      | Some r => Some r
      | None => cachesMatch url cs
      end
  end.

(** [cache.addAll (ASSETS)]: every asset is fetched; they are stored only
    if every fetch succeeded with an ok response. *)
Definition addAll (name : string) (urls : list string)
    (net : string → option Response) (cs : list (string * Cache))
  : list (string * Cache) :=
  if forallb (λ u, match net u with Some r => ok r | None => false end) urls
  then
    foldl (λ cs u, match net u with Some r => put name u r cs | None => cs end)
      cs urls
  else cs.

(** The [install] handler. *)
Definition install (net : string → option Response)
    (cs : list (string * Cache)) : list (string * Cache) :=
  addAll CACHE_NAME ASSETS net (open CACHE_NAME cs).

(** The [activate] handler. *)
Definition activate (cs : list (string * Cache)) : list (string * Cache) :=
  foldl (λ cs k, delete k cs) cs (filter (λ k, k ≠ CACHE_NAME) (keys cs)).

(** The [fetch] handler: the response handed to the page, and the Cache
    Storage afterwards. [net] is the outcome of [fetch (event.request)]. *)
Definition fetchHandler (net : option Response) (url : string)
    (cs : list (string * Cache)) : option Response * list (string * Cache) :=
  match net with
  | Some response =>
      (Some response, put CACHE_NAME url response (open CACHE_NAME cs))
  | None => (cachesMatch url cs, cs)
  end.

End ServiceWorker.

(** The id [k] has been allotted, and the callback registered under it,
    as long as there is one, is [c]. *)
Definition callback_is (k : nat) (c : Closure) (w : World) : Prop :=
  (k < nextIntervalId w)%nat ∧ ∀ c', intervals w !! k = Some c' → c' = c.

(** The id [k] has been allotted and its callback has been removed. *)
Definition callback_gone (k : nat) (w : World) : Prop :=
  (k < nextIntervalId w)%nat ∧ intervals w !! k = None.

(** ** The effect of each method on the fields of the world *)

Lemma update_eq i f w :
  update i f w =
  mkWorld (alarm w) (alarmCalls w) (alter f i (heap w)) (nextRef w)
    (intervals w) (nextIntervalId w) (timers w).
Proof.
  unfold update. destruct (heap w !! i) as [t|] eqn:E.
  - f_equal. apply map_eq. intros j. destruct (decide (i = j)) as [->|Hne].
    + by rewrite lookup_insert_eq, lookup_alter_eq, E.
    + by rewrite lookup_insert_ne, lookup_alter_ne.
  - destruct w; simpl in *. f_equal. apply map_eq. intros j.
    destruct (decide (i = j)) as [->|Hne].
    + by rewrite lookup_alter_eq, E.
    + by rewrite lookup_alter_ne.
Qed.

Lemma stop_eq i w :
  stop i w =
  mkWorld (alarm w) (alarmCalls w) (alter stopT i (heap w)) (nextRef w)
    (stopIntervals i w) (nextIntervalId w) (timers w).
Proof.
  unfold stop, stopIntervals, clearInterval.
  destruct (heap w !! i) as [t|] eqn:E.
  - destruct (running t) eqn:R; simpl.
    + rewrite !update_eq; simpl.
      assert (Hh : alter (set_intervalId None) i
                     (alter (set_running false) i (heap w))
                   = alter stopT i (heap w)).
      { apply map_eq. intros j. destruct (decide (i = j)) as [->|Hne].
        - rewrite !lookup_alter_eq, E. simpl. unfold stopT. by rewrite R.
        - by rewrite !lookup_alter_ne. }
      destruct (intervalId t); simpl; by rewrite Hh.
    + destruct w; simpl in *. f_equal. apply map_eq. intros j.
      destruct (decide (i = j)) as [->|Hne].
      * rewrite lookup_alter_eq, E. simpl. unfold stopT. by rewrite R.
      * by rewrite lookup_alter_ne.
  - destruct w; simpl in *. f_equal. apply map_eq. intros j.
    destruct (decide (i = j)) as [->|Hne].
    + by rewrite lookup_alter_eq, E.
    + by rewrite lookup_alter_ne.
Qed.

Lemma stopAlarm_eq i w :
  stopAlarm i w =
  mkWorld (AlarmSound.stop (alarm w)) ((i, CallStop) :: alarmCalls w)
    (alter (set_alarming false) i (heap w)) (nextRef w) (intervals w)
    (nextIntervalId w) (timers w).
Proof. unfold stopAlarm, callAlarm. by rewrite update_eq. Qed.

Lemma triggerAlarm_eq i w :
  _triggerAlarm i w =
  mkWorld (AlarmSound.play (alarm w)) ((i, CallPlay) :: alarmCalls w)
    (alter (set_alarming true) i
       (alter (set_totalSeconds 0) i (alter stopT i (heap w))))
    (nextRef w) (stopIntervals i w) (nextIntervalId w) (timers w).
Proof. unfold _triggerAlarm, callAlarm. by rewrite stop_eq, !update_eq. Qed.

Lemma start_noop i now w :
  (∀ t, heap w !! i = Some t → starts t = false) →
  start i now w = callAlarm i CallInit w.
Proof.
  intros H. unfold start. simpl.
  destruct (heap w !! i) as [t|] eqn:E; [|done].
  specialize (H t eq_refl). unfold starts in H.
  destruct (running t); [done|]. simpl in H.
  apply negb_false_iff in H. by rewrite H.
Qed.

Lemma start_go i now w t :
  heap w !! i = Some t → starts t = true →
  start i now w =
  mkWorld (AlarmSound.init (alarm w)) ((i, CallInit) :: alarmCalls w)
    (<[i := set_intervalId (Some (nextIntervalId w)) (set_running true t)]>
       (heap w))
    (nextRef w)
    (<[nextIntervalId w := mkClosure i now (totalSeconds t)]> (intervals w))
    (S (nextIntervalId w)) (timers w).
Proof.
  intros E H. unfold start. simpl. rewrite E.
  unfold starts in H. apply andb_true_iff in H as [H1 H2].
  apply negb_true_iff in H1, H2. rewrite H1, H2.
  unfold setInterval. simpl. rewrite !update_eq. simpl. f_equal.
  apply map_eq. intros j. destruct (decide (i = j)) as [->|Hne].
  - by rewrite !lookup_alter_eq, lookup_insert_eq, E.
  - by rewrite !lookup_alter_ne, lookup_insert_ne.
Qed.

(** ** Invariants of reachable worlds *)

Lemma keeps_poll_set_totalSeconds v : keeps_poll (set_totalSeconds v).
Proof. by intros t. Qed.

Lemma keeps_poll_set_alarming v : keeps_poll (set_alarming v).
Proof. by intros t. Qed.

Lemma keeps_poll_set_mode v : keeps_poll (set_mode v).
Proof. by intros t. Qed.

Lemma keeps_poll_set_recording v : keeps_poll (set_recording v).
Proof. by intros t. Qed.

Lemma keeps_poll_adjustPicker u d : keeps_poll (_adjustPicker u d).
Proof. intros t. by destruct u. Qed.

Create HintDb timer discriminated.

#[export] Hint Resolve keeps_poll_set_totalSeconds keeps_poll_set_alarming
  keeps_poll_set_mode keeps_poll_set_recording keeps_poll_adjustPicker : timer.

Ltac split_structure :=
  split; [|split];
  unfold intervals_owned, ids_fresh, refs_fresh; simpl.

Lemma lookup_alter_heap (f : Timer → Timer) (h : gmap nat Timer) i j t' :
  alter f i h !! j = Some t' →
  ∃ t, h !! j = Some t ∧ (t' = t ∨ (i = j ∧ t' = f t)).
Proof.
  destruct (decide (i = j)) as [->|Hne].
  - rewrite lookup_alter_eq. destruct (h !! j) as [t|]; [|done].
    simpl. intros [= <-]. eauto.
  - rewrite lookup_alter_ne by done. eauto.
Qed.

Lemma stopIntervals_sub i w k c :
  stopIntervals i w !! k = Some c → intervals w !! k = Some c.
Proof.
  unfold stopIntervals.
  destruct (heap w !! i) as [t|]; [|done].
  destruct (running t); [|done].
  destruct (intervalId t) as [k0|]; [|done].
  rewrite lookup_delete_Some. tauto.
Qed.

(** After [stop ()] no registered callback belongs to the stopped Timer. *)
Lemma stopIntervals_not_owner i w k c :
  intervals_owned w → stopIntervals i w !! k = Some c → owner c ≠ i.
Proof.
  intros H1 Hk Ho.
  pose proof (stopIntervals_sub _ _ _ _ Hk) as Hk'.
  destruct (H1 k c Hk') as (t & Ht & Hr & Hi). rewrite Ho in Ht.
  unfold stopIntervals in Hk. rewrite Ht, Hr, Hi in Hk.
  by rewrite lookup_delete_eq in Hk.
Qed.

Lemma structure_ok_update i f w :
  keeps_poll f → structure_ok w → structure_ok (update i f w).
Proof.
  intros Hf (H1 & H2 & H3). rewrite update_eq.
  split_structure.
  - intros k c Hk. destruct (H1 k c Hk) as (t & Ht & Hr & Hi).
    destruct (decide (i = owner c)) as [->|Hne].
    + exists (f t). rewrite lookup_alter_eq, Ht. simpl.
      destruct (Hf t) as [-> ->]. done.
    + exists t. by rewrite lookup_alter_ne.
  - exact H2.
  - intros j t' Hj. apply lookup_alter_heap in Hj as (t & Ht & _). eauto.
Qed.

Lemma structure_ok_callAlarm i c w :
  structure_ok w → structure_ok (callAlarm i c w).
Proof. by intros H. Qed.

Lemma structure_ok_stop i w : structure_ok w → structure_ok (stop i w).
Proof.
  intros (H1 & H2 & H3). rewrite stop_eq. split_structure.
  - intros k c Hk.
    pose proof (stopIntervals_not_owner _ _ _ _ H1 Hk) as Hne.
    apply stopIntervals_sub in Hk.
    destruct (H1 k c Hk) as (t & Ht & Hr & Hi).
    exists t. by rewrite lookup_alter_ne.
  - intros k c Hk. apply stopIntervals_sub in Hk. eauto.
  - intros j t' Hj. apply lookup_alter_heap in Hj as (t & Ht & _). eauto.
Qed.

Lemma starts_not_running t : starts t = true → running t = false.
Proof.
  unfold starts. intros H. apply andb_true_iff in H as [H _].
  by apply negb_true_iff in H.
Qed.

Lemma starts_or_not i w :
  (∃ t, heap w !! i = Some t ∧ starts t = true)
  ∨ (∀ t, heap w !! i = Some t → starts t = false).
Proof.
  destruct (heap w !! i) as [t|]; [|by right].
  destruct (starts t) eqn:E; [left; eauto|right].
  by intros t' [= <-].
Qed.

Lemma structure_ok_start i now w :
  structure_ok w → structure_ok (start i now w).
Proof.
  intros Hw. destruct (starts_or_not i w) as [(t & Ht & Hs)|Hn].
  - destruct Hw as (H1 & H2 & H3).
    rewrite (start_go _ _ _ _ Ht Hs). split_structure.
    + intros k c Hk. apply lookup_insert_Some in Hk as [[<- <-]|[Hne Hk]].
      * simpl. eexists. rewrite lookup_insert_eq. done.
      * destruct (H1 k c Hk) as (t' & Ht' & Hr & Hi).
        exists t'. rewrite lookup_insert_ne; [done|].
        intros ->. rewrite Ht in Ht'. injection Ht' as <-.
        apply starts_not_running in Hs. congruence.
    + intros k c Hk. apply lookup_insert_Some in Hk as [[<- <-]|[Hne Hk]].
      * lia.
      * specialize (H2 k c Hk). lia.
    + intros j t' Hj. apply lookup_insert_Some in Hj as [[<- <-]|[Hne Hj]];
        eauto.
  - rewrite start_noop by done. by apply structure_ok_callAlarm.
Qed.

Lemma structure_ok_stopAlarm i w :
  structure_ok w → structure_ok (stopAlarm i w).
Proof.
  intros H. unfold stopAlarm.
  apply structure_ok_callAlarm, structure_ok_update; auto with timer.
Qed.

Lemma structure_ok_triggerAlarm i w :
  structure_ok w → structure_ok (_triggerAlarm i w).
Proof.
  intros H. unfold _triggerAlarm.
  apply structure_ok_callAlarm.
  do 2 (apply structure_ok_update; auto with timer).
  by apply structure_ok_stop.
Qed.

Lemma structure_ok_reset i w : structure_ok w → structure_ok (reset i w).
Proof.
  intros H. unfold reset.
  assert (H' : structure_ok (stop i (stopAlarm i w)))
    by by apply structure_ok_stop, structure_ok_stopAlarm.
  destruct (heap (stop i (stopAlarm i w)) !! i) as [t|]; [|done].
  destruct (mode t); apply structure_ok_update; auto with timer.
Qed.

Lemma structure_ok_destroy i w : structure_ok w → structure_ok (destroy i w).
Proof.
  intros H. by apply structure_ok_stop, structure_ok_stopAlarm.
Qed.

Lemma structure_ok_tick k now w : structure_ok w → structure_ok (tick k now w).
Proof.
  intros H. unfold tick.
  destruct (intervals w !! k) as [c|]; [|done].
  destruct (heap w !! owner c) as [t|]; [|done].
  destruct (mode t).
  - case_match.
    + apply structure_ok_triggerAlarm, structure_ok_update; auto with timer.
    + apply structure_ok_update; auto with timer.
  - apply structure_ok_update; auto with timer.
Qed.

Lemma structure_ok_pushTimer idx w :
  structure_ok w → structure_ok (pushTimer idx w).
Proof.
  intros (H1 & H2 & H3). split_structure.
  - intros k c Hk. destruct (H1 k c Hk) as (t & Ht & Hr & Hi).
    exists t. rewrite lookup_insert_ne; [done|].
    intros Heq. specialize (H3 _ _ Ht). lia.
  - exact H2.
  - intros j t' Hj. apply lookup_insert_Some in Hj as [[<- <-]|[Hne Hj]].
    + lia.
    + specialize (H3 _ _ Hj). lia.
Qed.

Lemma structure_ok_destroyAll w : structure_ok w → structure_ok (destroyAll w).
Proof.
  intros H. unfold destroyAll.
  assert (H' : structure_ok (foldl (λ w r, destroy r w) w (timers w))).
  { generalize (timers w). intros l. revert w H.
    induction l as [|r l IH]; intros w H; simpl; [done|].
    by apply IH, structure_ok_destroy. }
  exact H'.
Qed.

Lemma structure_ok_showTimerScreen key w :
  structure_ok w → structure_ok (showTimerScreen key w).
Proof.
  intros H. unfold showTimerScreen. destruct (MODES key) as [n|]; [|done].
  apply structure_ok_destroyAll in H. revert H.
  generalize (destroyAll w) (seq 0 n). intros w' l. revert w'.
  induction l as [|x l IH]; intros w' H; simpl; [done|].
  by apply IH, structure_ok_pushTimer.
Qed.

Lemma idle_update i j f w : keeps_poll f → idle i w → idle i (update j f w).
Proof.
  intros Hf H t'. rewrite update_eq. simpl. intros Ht'.
  apply lookup_alter_heap in Ht' as (t & Ht & [->|[_ ->]]); [by eauto|].
  destruct (Hf t) as [-> _]. eauto.
Qed.

Lemma idle_stop i w : idle i (stop i w).
Proof.
  intros t'. rewrite stop_eq. simpl. rewrite lookup_alter_eq.
  destruct (heap w !! i) as [t|]; [|done]. simpl. intros [= <-].
  unfold stopT. by destruct (running t) eqn:E.
Qed.

Lemma countdown_positive_weaken i w :
  countdown_positive w → countdown_positive_except i w.
Proof. intros H j _. apply H. Qed.

Lemma countdown_positive_except_update i f w :
  countdown_positive_except i w → countdown_positive_except i (update i f w).
Proof.
  intros H j Hne t. rewrite update_eq. simpl.
  rewrite lookup_alter_ne by done. apply H. done.
Qed.

Lemma countdown_positive_update i f w :
  countdown_positive_except i w →
  (∀ t, heap w !! i = Some t → running (f t) = true → mode (f t) = Down →
        0 < totalSeconds (f t)) →
  countdown_positive (update i f w).
Proof.
  intros H Hf j t'. rewrite update_eq. simpl.
  destruct (decide (i = j)) as [->|Hne].
  - rewrite lookup_alter_eq. destruct (heap w !! j) as [t|] eqn:E; [|done].
    simpl. intros [= <-]. by apply Hf.
  - rewrite lookup_alter_ne by done. by apply H.
Qed.

Lemma countdown_positive_update_idle i f w :
  keeps_poll f → idle i w → countdown_positive_except i w →
  countdown_positive (update i f w).
Proof.
  intros Hf Hi H. apply countdown_positive_update; [done|].
  intros t Ht Hr. destruct (Hf t) as [E _]. rewrite E, (Hi t Ht) in Hr. done.
Qed.

Lemma countdown_positive_update_keep i f w :
  (∀ t, running (f t) = running t ∧ mode (f t) = mode t
        ∧ totalSeconds (f t) = totalSeconds t) →
  countdown_positive w → countdown_positive (update i f w).
Proof.
  intros Hf H. apply countdown_positive_update.
  - by apply countdown_positive_weaken.
  - intros t Ht. destruct (Hf t) as (-> & -> & ->). exact (H i t Ht).
Qed.

Lemma countdown_positive_stop i w :
  countdown_positive_except i w → countdown_positive (stop i w).
Proof.
  intros H j t' Ht' Hr. destruct (decide (j = i)) as [->|Hne].
  - by rewrite (idle_stop _ _ _ Ht') in Hr.
  - revert Ht' Hr. rewrite stop_eq. simpl.
    rewrite lookup_alter_ne by done. by apply H.
Qed.

Lemma countdown_positive_stopAlarm i w :
  countdown_positive w → countdown_positive (stopAlarm i w).
Proof.
  intros H. unfold stopAlarm.
  change (countdown_positive (update i (set_alarming false) w)).
  by apply countdown_positive_update_keep.
Qed.

Lemma countdown_positive_triggerAlarm i w :
  countdown_positive_except i w → countdown_positive (_triggerAlarm i w).
Proof.
  intros H. unfold _triggerAlarm.
  change (countdown_positive
            (update i (set_alarming true)
               (update i (set_totalSeconds 0) (stop i w)))).
  apply countdown_positive_update_idle; auto with timer.
  - apply idle_update; auto with timer. apply idle_stop.
  - apply countdown_positive_except_update, countdown_positive_weaken.
    by apply countdown_positive_stop.
Qed.

Lemma countdown_positive_reset i w :
  countdown_positive w → countdown_positive (reset i w).
Proof.
  intros H. unfold reset.
  assert (H' : countdown_positive (stop i (stopAlarm i w))).
  { apply countdown_positive_stop, countdown_positive_weaken.
    by apply countdown_positive_stopAlarm. }
  destruct (heap (stop i (stopAlarm i w)) !! i) as [t|]; [|done].
  destruct (mode t); apply countdown_positive_update_idle;
    auto using idle_stop, countdown_positive_weaken with timer.
Qed.

Lemma countdown_positive_destroy i w :
  countdown_positive w → countdown_positive (destroy i w).
Proof.
  intros H. apply countdown_positive_stop, countdown_positive_weaken.
  by apply countdown_positive_stopAlarm.
Qed.

Lemma countdown_positive_start i now w :
  countdown_positive w → countdown_positive (start i now w).
Proof.
  intros H. destruct (starts_or_not i w) as [(t & Ht & Hs)|Hn].
  - rewrite (start_go _ _ _ _ Ht Hs). intros j t'. simpl.
    intros Hj. apply lookup_insert_Some in Hj as [[<- <-]|[Hne Hj]].
    + simpl. intros _ Hm. unfold starts in Hs.
      apply andb_true_iff in Hs as [_ Hs]. apply negb_true_iff in Hs.
      rewrite bool_decide_eq_true_2 in Hs by done. simpl in Hs. lia.
    + exact (H j t' Hj).
  - rewrite start_noop by done. exact H.
Qed.

Lemma countdown_positive_tick k now w :
  countdown_positive w → countdown_positive (tick k now w).
Proof.
  intros H. unfold tick.
  destruct (intervals w !! k) as [c|]; [|done].
  destruct (heap w !! owner c) as [t|] eqn:E; [|done].
  destruct (mode t) eqn:M.
  - case_match.
    + apply countdown_positive_triggerAlarm,
        countdown_positive_except_update, countdown_positive_weaken, H.
    + apply countdown_positive_update; [by apply countdown_positive_weaken|].
      intros t' _ _ _. simpl. lia.
  - apply countdown_positive_update; [by apply countdown_positive_weaken|].
    intros t' Ht'. rewrite E in Ht'. injection Ht' as <-. simpl. congruence.
Qed.

Lemma countdown_positive_pushTimer idx w :
  countdown_positive w → countdown_positive (pushTimer idx w).
Proof.
  intros H j t'. simpl. intros Hj.
  apply lookup_insert_Some in Hj as [[<- <-]|[Hne Hj]]; [done|].
  exact (H j t' Hj).
Qed.

Lemma countdown_positive_destroyAll w :
  countdown_positive w → countdown_positive (destroyAll w).
Proof.
  intros H. unfold destroyAll.
  assert (H' : countdown_positive (foldl (λ w r, destroy r w) w (timers w))).
  { generalize (timers w). intros l. revert w H.
    induction l as [|r l IH]; intros w H; simpl; [done|].
    by apply IH, countdown_positive_destroy. }
  exact H'.
Qed.

Lemma countdown_positive_showTimerScreen key w :
  countdown_positive w → countdown_positive (showTimerScreen key w).
Proof.
  intros H. unfold showTimerScreen. destruct (MODES key) as [n|]; [|done].
  apply countdown_positive_destroyAll in H. revert H.
  generalize (destroyAll w) (seq 0 n). intros w' l. revert w'.
  induction l as [|x l IH]; intros w' H; simpl; [done|].
  by apply IH, countdown_positive_pushTimer.
Qed.

Lemma idle_of_lookup i w t :
  heap w !! i = Some t → running t = false → idle i w.
Proof. intros Ht Hr t'. rewrite Ht. by intros [= <-]. Qed.

Lemma wf_step w e : wf w → wf (step w e).
Proof.
  intros [Hs Hc]. destruct e; simpl.
  - split; [by apply structure_ok_showTimerScreen
           |by apply countdown_positive_showTimerScreen].
  - split; [by apply structure_ok_destroyAll
           |by apply countdown_positive_destroyAll].
  - unfold clickToggle. destruct (heap w !! i) as [t|] eqn:E; [|done].
    destruct (running t) eqn:R; [done|]. split.
    + apply structure_ok_reset, structure_ok_update; auto with timer.
    + apply countdown_positive_reset, countdown_positive_update_idle;
        eauto using idle_of_lookup, countdown_positive_weaken with timer.
  - unfold clickArrow. destruct (heap w !! i) as [t|] eqn:E; [|done].
    destruct (running t) eqn:R; [done|]. split.
    + apply structure_ok_update; auto with timer.
    + apply countdown_positive_update_idle;
        eauto using idle_of_lookup, countdown_positive_weaken with timer.
  - unfold clickRec. destruct (heap w !! i) as [t|] eqn:E; [|done]. split.
    + apply structure_ok_update; auto with timer.
    + by apply countdown_positive_update_keep.
  - split; [by apply structure_ok_start|by apply countdown_positive_start].
  - split; [by apply structure_ok_stop|].
    by apply countdown_positive_stop, countdown_positive_weaken.
  - split; [by apply structure_ok_reset|by apply countdown_positive_reset].
  - unfold clickCard. destruct (heap w !! i) as [t|] eqn:E; [|done].
    destruct (alarming t); [|done].
    split; [by apply structure_ok_stopAlarm
           |by apply countdown_positive_stopAlarm].
  - split; [by apply structure_ok_stopAlarm
           |by apply countdown_positive_stopAlarm].
  - split; [by apply structure_ok_destroy
           |by apply countdown_positive_destroy].
  - split; [by apply structure_ok_tick|by apply countdown_positive_tick].
Qed.

Lemma wf_initialWorld : wf initialWorld.
Proof.
  split; [split_structure|]; done.
Qed.

Lemma wf_run evs : ∀ w, wf w → wf (run w evs).
Proof.
  induction evs as [|e evs IH]; intros w H; simpl; [done|].
  by apply IH, wf_step.
Qed.

Lemma wf_reachable w : reachable w → wf w.
Proof. intros [evs ->]. apply wf_run, wf_initialWorld. Qed.


(** ** The interval callback, case by case *)

Lemma tick_unregistered k now w : intervals w !! k = None → tick k now w = w.
Proof. intros H. unfold tick. by rewrite H. Qed.

Lemma tick_up k now w c t :
  intervals w !! k = Some c → heap w !! owner c = Some t → mode t = Up →
  tick k now w = update (owner c) (set_totalSeconds (recompute Up c now)) w.
Proof. intros Hk Ht Hm. unfold tick. by rewrite Hk, Ht, Hm. Qed.

Lemma tick_down_positive k now w c t :
  intervals w !! k = Some c → heap w !! owner c = Some t → mode t = Down →
  0 < recompute Down c now →
  tick k now w = update (owner c) (set_totalSeconds (recompute Down c now)) w.
Proof.
  intros Hk Ht Hm Hp. unfold tick. rewrite Hk, Ht, Hm.
  unfold recompute in Hp. case_match; [lia|done].
Qed.

Lemma tick_down_zero k now w c t :
  intervals w !! k = Some c → heap w !! owner c = Some t → mode t = Down →
  recompute Down c now ≤ 0 →
  tick k now w =
  _triggerAlarm (owner c)
    (update (owner c) (set_totalSeconds (recompute Down c now)) w).
Proof.
  intros Hk Ht Hm Hp. unfold tick. rewrite Hk, Ht, Hm.
  unfold recompute in Hp. case_match; [done|lia].
Qed.

Lemma stopIntervals_update i f w :
  keeps_poll f → stopIntervals i (update i f w) = stopIntervals i w.
Proof.
  intros Hf. unfold stopIntervals. rewrite update_eq. simpl.
  rewrite lookup_alter_eq. destruct (heap w !! i) as [t|]; [|done].
  simpl. by destruct (Hf t) as [-> ->].
Qed.

(** The callback only ever removes entries from the interval table. *)
Lemma tick_intervals_sub k now w k' c :
  intervals (tick k now w) !! k' = Some c → intervals w !! k' = Some c.
Proof.
  unfold tick.
  destruct (intervals w !! k) as [c0|]; [|done].
  destruct (heap w !! owner c0) as [t|]; [|done].
  destruct (mode t).
  - case_match.
    + rewrite triggerAlarm_eq. simpl.
      rewrite stopIntervals_update by auto with timer.
      apply stopIntervals_sub.
    + by rewrite update_eq.
  - by rewrite update_eq.
Qed.

(** The callback leaves every Timer other than its owner alone. *)
Lemma tick_heap_other k now w c i :
  intervals w !! k = Some c → owner c ≠ i →
  heap (tick k now w) !! i = heap w !! i.
Proof.
  intros Hk Hne. unfold tick. rewrite Hk.
  destruct (heap w !! owner c) as [t|]; [|done].
  destruct (mode t).
  - case_match.
    + rewrite triggerAlarm_eq, update_eq. simpl.
      by rewrite !lookup_alter_ne.
    + rewrite update_eq. simpl. by rewrite lookup_alter_ne.
  - rewrite update_eq. simpl. by rewrite lookup_alter_ne.
Qed.

Lemma tick_plays_other k now w c i :
  intervals w !! k = Some c → owner c ≠ i →
  playCount i (tick k now w) = playCount i w.
Proof.
  intros Hk Hne. unfold tick. rewrite Hk.
  destruct (heap w !! owner c) as [t|]; [|done].
  destruct (mode t).
  - case_match.
    + rewrite triggerAlarm_eq, update_eq. unfold playCount. simpl.
      rewrite filter_cons_False; [done|]. congruence.
    + by rewrite update_eq.
  - by rewrite update_eq.
Qed.

(** Once a Timer has no callback registered, no run of callbacks touches
    it, registers a callback for it, or makes it call [alarm.play ()]. *)
Lemma runTicks_no_poll i ticks : ∀ w,
  no_poll i w →
  no_poll i (runTicks w ticks)
  ∧ heap (runTicks w ticks) !! i = heap w !! i
  ∧ playCount i (runTicks w ticks) = playCount i w.
Proof.
  induction ticks as [|[k now] ticks IH]; intros w H; [done|].
  unfold runTicks. simpl. fold (runTicks (tick k now w) ticks).
  destruct (intervals w !! k) as [c|] eqn:Hk.
  - pose proof (H k c Hk) as Hne.
    destruct (IH (tick k now w)) as (IH1 & IH2 & IH3).
    { intros k' c' Hk'. apply tick_intervals_sub in Hk'. eauto. }
    split; [done|]. split.
    + rewrite IH2. by eapply tick_heap_other.
    + rewrite IH3. by eapply tick_plays_other.
  - rewrite tick_unregistered by done. by apply IH.
Qed.

(** [stop ()] leaves no callback of the stopped Timer behind. *)
Lemma no_poll_stop i w : intervals_owned w → no_poll i (stop i w).
Proof.
  intros H k c. rewrite stop_eq. simpl. by apply stopIntervals_not_owner.
Qed.

(** ** Duration adjustment *)

Lemma getUnit_adjustPicker u d t :
  getUnit u (_adjustPicker u d t)
  = Z.rem (getUnit u t + d + unitMax u + 1) (unitMax u + 1).
Proof. by destruct u. Qed.

Lemma unitMax_pos u : 0 < unitMax u + 1.
Proof. destruct u; simpl; lia. Qed.

Lemma adjustPicker_target u d t :
  let t' := _adjustPicker u d t in
  targetSeconds t' = setH t' * 3600 + setM t' * 60 + setS t'
  ∧ totalSeconds t' = targetSeconds t'
  ∧ mode t' = mode t ∧ running t' = running t.
Proof. by destruct u. Qed.

Lemma clickArrow_idle w i t u d :
  heap w !! i = Some t → running t = false →
  heap (clickArrow i u d w) !! i
  = Some (_adjustPicker u (if String.eqb d "up" then 1 else -1) t).
Proof.
  intros Ht Hr. unfold clickArrow. rewrite Ht, Hr, update_eq. simpl.
  by rewrite lookup_alter_eq, Ht.
Qed.

(** C4. For a Timer that is not running and a unit whose value [v] lies in
    its range [0 .. max] (max is 23 for hours, 59 for minutes and
    seconds), one click on a picker arrow stores [(v + dir) mod (max + 1)]
    in that unit, where [dir] is [+1] for the up arrow and [-1]
    otherwise; so incrementing at [max] gives 0 and decrementing at 0
    gives [max]. *)
Theorem clickArrow_wraps w i t u d :
  heap w !! i = Some t → running t = false →
  0 ≤ getUnit u t ≤ unitMax u →
  let dir := if String.eqb d "up" then 1 else -1 in
  ∃ t', heap (clickArrow i u d w) !! i = Some t'
    ∧ getUnit u t' = (getUnit u t + dir) mod (unitMax u + 1)
    ∧ (getUnit u t = unitMax u → dir = 1 → getUnit u t' = 0)
    ∧ (getUnit u t = 0 → dir = -1 → getUnit u t' = unitMax u).
Proof.
  intros Ht Hr Hv dir. eexists. split; [by apply clickArrow_idle|].
  fold dir. rewrite getUnit_adjustPicker.
  pose proof (unitMax_pos u) as Hm.
  assert (Hd : dir = 1 ∨ dir = -1) by (unfold dir; case_match; auto).
  assert (E : Z.rem (getUnit u t + dir + unitMax u + 1) (unitMax u + 1)
              = (getUnit u t + dir) mod (unitMax u + 1)).
  { rewrite Z.rem_mod_nonneg by lia.
    replace (getUnit u t + dir + unitMax u + 1)
      with (getUnit u t + dir + 1 * (unitMax u + 1)) by lia.
    apply Z.mod_add. lia. }
  rewrite E. split; [done|]. split.
  - intros Hmax Hdir. rewrite Hmax, Hdir. apply Z.mod_same. lia.
  - intros H0 Hdir. rewrite H0, Hdir.
    replace (0 + -1) with (unitMax u + -1 * (unitMax u + 1)) by lia.
    rewrite Z.mod_add by lia. apply Z.mod_small. lia.
Qed.

Lemma clickArrow_wraps_witness :
  let w := run initialWorld [EvShowTimerScreen "isgd"] in
  heap w !! 0%nat = Some (newTimer 0) ∧ running (newTimer 0) = false
  ∧ 0 ≤ getUnit UnitH (newTimer 0) ≤ unitMax UnitH
  ∧ ∃ t', heap (clickArrow 0 UnitH "down" w) !! 0%nat = Some t'
      ∧ getUnit UnitH t' = (getUnit UnitH (newTimer 0) + -1) mod 24.
Proof.
  intros w. split; [reflexivity|]. split; [reflexivity|].
  split; [simpl; lia|].
  destruct (clickArrow_wraps w 0%nat (newTimer 0) UnitH "down")
    as (t' & H1 & H2 & _); [reflexivity|reflexivity|simpl; lia|].
  exists t'. split; [exact H1|exact H2].
Defined.

(** C3, as stated, fails: on a stopwatch (CountUp) stopped at 7 seconds, a
    click on the seconds' up arrow overwrites [totalSeconds] with the new
    [targetSeconds], 1. *)
Lemma adjustment_ignores_mode :
  ¬ adjustment_follows_mode stoppedStopwatch 0 UnitS "up".
Proof.
  intros H.
  destruct (H (mkTimer 0 Up false None 7 0 false 0 0 0 false)
              (mkTimer 0 Up false None 1 1 false 0 0 1 false))
    as (_ & _ & H3); [reflexivity|reflexivity|reflexivity|].
  specialize (H3 eq_refl). simpl in H3. lia.
Qed.

(** C3, amended. For a Timer that is not running, an adjustment that
    leaves the unit values at (h, m, s) recomputes
    [targetSeconds = h*3600 + m*60 + s] and sets
    [totalSeconds = targetSeconds] in CountDown mode and in CountUp mode
    alike; [mode] and [running] are unchanged. This holds for a click on a
    picker arrow ([_adjustPicker]) and for a drum picker's [onChange]
    ([_syncFromPicker]). *)
Theorem adjustment_sets_total w i t u d :
  heap w !! i = Some t → running t = false →
  (∃ t', heap (clickArrow i u d w) !! i = Some t'
     ∧ targetSeconds t' = setH t' * 3600 + setM t' * 60 + setS t'
     ∧ totalSeconds t' = targetSeconds t'
     ∧ mode t' = mode t ∧ running t' = false)
  ∧ (∀ v, let t' := pickerOnChange u v t in
       getUnit u t' = v
       ∧ targetSeconds t' = setH t' * 3600 + setM t' * 60 + setS t'
       ∧ totalSeconds t' = targetSeconds t'
       ∧ mode t' = mode t ∧ running t' = false).
Proof.
  intros Ht Hr. split.
  - eexists. split; [by apply clickArrow_idle|].
    destruct (adjustPicker_target u (if String.eqb d "up" then 1 else -1) t)
      as (H1 & H2 & H3 & H4).
    rewrite Hr in H4. done.
  - intros v. by destruct u.
Qed.

Lemma adjustment_sets_total_witness :
  heap stoppedStopwatch !! 0%nat
    = Some (mkTimer 0 Up false None 7 0 false 0 0 0 false)
  ∧ ∃ t', heap (clickArrow 0 UnitS "up" stoppedStopwatch) !! 0%nat = Some t'
      ∧ totalSeconds t' = targetSeconds t'.
Proof.
  split; [reflexivity|].
  destruct (adjustment_sets_total stoppedStopwatch 0%nat
              (mkTimer 0 Up false None 7 0 false 0 0 0 false) UnitS "up")
    as [(t' & H1 & _ & H3 & _) _]; [reflexivity|reflexivity|].
  exists t'. split; [exact H1|exact H3].
Defined.

(** ** [start ()] that does not start *)

(** C5. [start ()] on a Timer that is already running, or that is in
    CountDown mode with [totalSeconds <= 0], changes no field of the Timer
    (so [running] keeps its value), registers no callback and leaves every
    other Timer alone: all it does is the [alarm.init ()] call that comes
    before the two guards. *)
Theorem start_guarded_noop w i t now :
  heap w !! i = Some t →
  running t = true ∨ (mode t = Down ∧ totalSeconds t ≤ 0) →
  start i now w = callAlarm i CallInit w
  ∧ heap (start i now w) = heap w
  ∧ heap (start i now w) !! i = Some t
  ∧ intervals (start i now w) = intervals w
  ∧ nextIntervalId (start i now w) = nextIntervalId w
  ∧ AlarmSound.playing (alarm (start i now w)) = AlarmSound.playing (alarm w).
Proof.
  intros Ht Hg.
  assert (E : start i now w = callAlarm i CallInit w).
  { apply start_noop. intros t'. rewrite Ht. intros [= <-].
    unfold starts. destruct Hg as [->|[-> Hz]]; [done|].
    rewrite bool_decide_eq_true_2 by done.
    apply Z.leb_le in Hz. rewrite Hz. by destruct (running t). }
  rewrite E. done.
Qed.

Lemma start_guarded_noop_witness :
  let w := run initialWorld [EvShowTimerScreen "isgd"] in
  heap w !! 0%nat = Some (newTimer 0)
  ∧ (running (newTimer 0) = true
     ∨ (mode (newTimer 0) = Down ∧ totalSeconds (newTimer 0) ≤ 0))
  ∧ heap (start 0 1000 w) !! 0%nat = Some (newTimer 0)
  ∧ intervals (start 0 1000 w) = intervals w.
Proof.
  intros w. split; [reflexivity|].
  split; [right; split; [reflexivity|simpl; lia]|].
  destruct (start_guarded_noop w 0%nat (newTimer 0) 1000)
    as (_ & _ & H3 & H4 & _);
    [reflexivity|right; split; [reflexivity|simpl; lia]|].
  split; [exact H3|exact H4].
Defined.

(** ** The shared alarm *)

(** C10. The world holds one [alarm] object, which every Timer's
    [stopAlarm ()] reaches. When two distinct Timers are both alarming,
    [stopAlarm ()] on one of them (which is what a click on its card
    runs) sets the shared [playing] flag to [false] and removes its own
    [alarming] mark, while the other Timer is untouched and keeps its
    [alarming] mark. *)
Theorem stopAlarm_silences_all w i j ti tj :
  i ≠ j →
  heap w !! i = Some ti → heap w !! j = Some tj →
  alarming ti = true → alarming tj = true →
  clickCard i w = stopAlarm i w
  ∧ AlarmSound.playing (alarm (stopAlarm i w)) = false
  ∧ heap (stopAlarm i w) !! i = Some (set_alarming false ti)
  ∧ heap (stopAlarm i w) !! j = Some tj.
Proof.
  intros Hne Hi Hj Ai Aj. split.
  - unfold clickCard. by rewrite Hi, Ai.
  - rewrite stopAlarm_eq. simpl.
    rewrite lookup_alter_eq, lookup_alter_ne, Hi by done. done.
Qed.

Lemma stopAlarm_silences_all_witness :
  (0 ≠ 1)%nat
  ∧ heap bothAlarming !! 0%nat
    = Some (mkTimer 0 Down false None 0 1 false 0 0 1 true)
  ∧ heap bothAlarming !! 1%nat
    = Some (mkTimer 1 Down false None 0 1 false 0 0 1 true)
  ∧ AlarmSound.playing (alarm bothAlarming) = true
  ∧ AlarmSound.playing (alarm (stopAlarm 0 bothAlarming)) = false
  ∧ (alarming <$> heap (stopAlarm 0 bothAlarming) !! 1%nat) = Some true.
Proof.
  split; [lia|]. split; [reflexivity|]. split; [reflexivity|].
  split; [reflexivity|].
  destruct (stopAlarm_silences_all bothAlarming 0%nat 1%nat
              (mkTimer 0 Down false None 0 1 false 0 0 1 true)
              (mkTimer 1 Down false None 0 1 false 0 0 1 true))
    as (_ & H2 & _ & H4); [lia|reflexivity|reflexivity|reflexivity
                          |reflexivity|].
  split; [exact H2|]. rewrite H4. reflexivity.
Defined.

(** ** [reset ()] *)

(** C7. [reset ()] on a Timer in any state is [stopAlarm ()], then
    [stop ()], then the assignment of [totalSeconds]: [targetSeconds] in
    CountDown mode, 0 in CountUp mode. Afterwards the Timer is idle
    ([running] is [false], the [alarming] mark is gone), no callback of
    its is registered, the alarm is silent, and [mode] and [targetSeconds]
    are as before. *)
Theorem reset_returns_to_idle w i t :
  reachable w → heap w !! i = Some t →
  let v := match mode t with Down => targetSeconds t | Up => 0 end in
  reset i w = update i (set_totalSeconds v) (stop i (stopAlarm i w))
  ∧ alarmCalls (reset i w) = (i, CallStop) :: alarmCalls w
  ∧ AlarmSound.playing (alarm (reset i w)) = false
  ∧ no_poll i (reset i w)
  ∧ ∃ t', heap (reset i w) !! i = Some t'
      ∧ running t' = false ∧ alarming t' = false
      ∧ totalSeconds t' = v
      ∧ mode t' = mode t ∧ targetSeconds t' = targetSeconds t.
Proof.
  intros Hw Ht v.
  assert (Hs : heap (stop i (stopAlarm i w)) !! i
               = Some (stopT (set_alarming false t))).
  { rewrite stop_eq, stopAlarm_eq. simpl.
    by rewrite !lookup_alter_eq, Ht. }
  assert (Hm : mode (stopT (set_alarming false t)) = mode t
               ∧ targetSeconds (stopT (set_alarming false t))
                 = targetSeconds t
               ∧ running (stopT (set_alarming false t)) = false
               ∧ alarming (stopT (set_alarming false t)) = false).
  { unfold stopT. simpl. by destruct (running t) eqn:R. }
  destruct Hm as (Hm1 & Hm2 & Hm3 & Hm4).
  assert (E : reset i w
              = update i (set_totalSeconds v) (stop i (stopAlarm i w))).
  { unfold reset. rewrite Hs, Hm1, Hm2. unfold v. by destruct (mode t). }
  split; [exact E|]. rewrite E, update_eq. simpl.
  split; [by rewrite stop_eq, stopAlarm_eq|].
  split; [by rewrite stop_eq, stopAlarm_eq|].
  split.
  - apply no_poll_stop, structure_ok_stopAlarm.
    by apply wf_reachable in Hw as [Hw _].
  - rewrite lookup_alter_eq, Hs. simpl. eexists. split; [done|]. simpl.
    by rewrite Hm1, Hm2, Hm3, Hm4.
Qed.

Lemma reset_returns_to_idle_witness :
  reachable bothAlarming
  ∧ heap bothAlarming !! 0%nat
    = Some (mkTimer 0 Down false None 0 1 false 0 0 1 true)
  ∧ ∃ t', heap (reset 0 bothAlarming) !! 0%nat = Some t'
      ∧ running t' = false ∧ alarming t' = false ∧ totalSeconds t' = 1.
Proof.
  assert (Hr : reachable bothAlarming) by (eexists; reflexivity).
  split; [exact Hr|]. split; [reflexivity|].
  destruct (reset_returns_to_idle bothAlarming 0%nat
              (mkTimer 0 Down false None 0 1 false 0 0 1 true) Hr)
    as (_ & _ & _ & _ & t' & H1 & H2 & H3 & H4 & _); [reflexivity|].
  exists t'. split; [exact H1|]. split; [exact H2|].
  split; [exact H3|exact H4].
Defined.

(** ** Ticks *)

Lemma recompute_down_nonneg c now : 0 ≤ recompute Down c now.
Proof. unfold recompute. lia. Qed.

Lemma runTicks_cons w k now ticks :
  runTicks w ((k, now) :: ticks) = runTicks (tick k now w) ticks.
Proof. done. Qed.

Lemma runTicks_intervals_sub ticks : ∀ w k c,
  intervals (runTicks w ticks) !! k = Some c → intervals w !! k = Some c.
Proof.
  induction ticks as [|[k0 now] ticks IH]; intros w k c H; [done|].
  rewrite runTicks_cons in H. apply IH in H.
  by apply tick_intervals_sub in H.
Qed.

Lemma mode_alter (f : Timer → Timer) (h : gmap nat Timer) i j :
  (∀ t, mode (f t) = mode t) →
  mode <$> alter f i h !! j = mode <$> h !! j.
Proof.
  intros Hf. destruct (decide (i = j)) as [->|Hne].
  - rewrite lookup_alter_eq. destruct (h !! j); [|done]. simpl.
    by rewrite Hf.
  - by rewrite lookup_alter_ne.
Qed.

Lemma mode_stopT t : mode (stopT t) = mode t.
Proof. unfold stopT. by destruct (running t). Qed.

(** The callback never writes [mode]. *)
Lemma tick_mode k now w i :
  mode <$> heap (tick k now w) !! i = mode <$> heap w !! i.
Proof.
  unfold tick.
  destruct (intervals w !! k) as [c|]; [|done].
  destruct (heap w !! owner c) as [t|]; [|done].
  destruct (mode t).
  - case_match.
    + rewrite triggerAlarm_eq, update_eq. simpl.
      rewrite !mode_alter; auto using mode_stopT.
    + rewrite update_eq. simpl. by rewrite mode_alter.
  - rewrite update_eq. simpl. by rewrite mode_alter.
Qed.

Lemma runTicks_mode ticks : ∀ w i,
  mode <$> heap (runTicks w ticks) !! i = mode <$> heap w !! i.
Proof.
  induction ticks as [|[k0 now] ticks IH]; intros w i; [done|].
  by rewrite runTicks_cons, IH, tick_mode.
Qed.

(** One run of a registered callback. *)
Lemma tick_total k now w c t :
  intervals w !! k = Some c → heap w !! owner c = Some t →
  totalSeconds <$> heap (tick k now w) !! owner c
  = Some (recompute (mode t) c now).
Proof.
  intros Hk Ht. destruct (mode t) eqn:Hm.
  - destruct (decide (0 < recompute Down c now)) as [Hp|Hz].
    + rewrite (tick_down_positive _ _ _ _ _ Hk Ht Hm Hp), update_eq. simpl.
      by rewrite lookup_alter_eq, Ht.
    + pose proof (recompute_down_nonneg c now) as Hn.
      rewrite (tick_down_zero _ _ _ _ _ Hk Ht Hm) by lia.
      rewrite triggerAlarm_eq, update_eq. simpl.
      rewrite !lookup_alter_eq, Ht. simpl. f_equal.
      unfold recompute in *. lia.
  - rewrite (tick_up _ _ _ _ _ Hk Ht Hm), update_eq. simpl.
    by rewrite lookup_alter_eq, Ht.
Qed.

(** [start ()] that gets past its guards registers a callback that has
    captured the clock reading and the [totalSeconds] of that moment. *)
Lemma start_registers_closure w i t now :
  heap w !! i = Some t → starts t = true →
  intervals (start i now w) !! nextIntervalId w
  = Some (mkClosure i now (totalSeconds t)).
Proof.
  intros Ht Hs. rewrite (start_go _ _ _ _ Ht Hs). simpl.
  by rewrite lookup_insert_eq.
Qed.

(** ** Expiry of a countdown *)

Lemma triggerAlarm_after_update_intervals i v w :
  intervals (_triggerAlarm i (update i (set_totalSeconds v) w))
  = stopIntervals i w.
Proof.
  rewrite triggerAlarm_eq. simpl.
  by rewrite stopIntervals_update by auto with timer.
Qed.

(** C2. When the callback of a running CountDown Timer computes 0, that
    run removes the callback from the interval table, sets [running] to
    [false] and [totalSeconds] to 0, marks the card [alarming] and calls
    [alarm.play ()] once. No callback of that Timer is registered
    afterwards, so whatever callbacks run later, at whatever clock
    readings, the Timer is not touched and its count of [play ()] calls
    stays at one more than before. *)
Theorem countdown_expiry_alarms_once w k c t now :
  reachable w →
  intervals w !! k = Some c → heap w !! owner c = Some t →
  mode t = Down → recompute Down c now = 0 →
  let i := owner c in
  let w' := tick k now w in
  running t = true
  ∧ intervals w' !! k = None ∧ no_poll i w'
  ∧ (∃ t', heap w' !! i = Some t' ∧ running t' = false
       ∧ alarming t' = true ∧ totalSeconds t' = 0)
  ∧ alarmCalls w' = (i, CallPlay) :: alarmCalls w
  ∧ AlarmSound.playing (alarm w') = true
  ∧ playCount i w' = S (playCount i w)
  ∧ ∀ ticks,
      heap (runTicks w' ticks) !! i = heap w' !! i
      ∧ playCount i (runTicks w' ticks) = S (playCount i w).
Proof.
  intros Hw Hk Ht Hm Hz i w'.
  apply wf_reachable in Hw as [(Ho & _) _].
  destruct (Ho k c Hk) as (t0 & Ht0 & Hr & Hid).
  assert (t0 = t) by congruence. subst t0.
  assert (E : w' = _triggerAlarm i
                     (update i (set_totalSeconds (recompute Down c now)) w)).
  { unfold w'. apply (tick_down_zero _ _ _ _ _ Hk Ht Hm). lia. }
  assert (Hi : intervals w' = delete k (intervals w)).
  { rewrite E, triggerAlarm_after_update_intervals.
    unfold stopIntervals, i. by rewrite Ht, Hr, Hid. }
  assert (Hn : no_poll i w').
  { intros k' c'. rewrite E, triggerAlarm_after_update_intervals.
    by apply stopIntervals_not_owner. }
  assert (Hp : playCount i w' = S (playCount i w)).
  { rewrite E, triggerAlarm_eq, update_eq. unfold playCount. simpl.
    by rewrite filter_cons_True. }
  split; [done|]. split; [by rewrite Hi, lookup_delete_eq|].
  split; [done|]. split.
  { rewrite E, triggerAlarm_eq, update_eq. simpl.
    unfold i. rewrite !lookup_alter_eq, Ht. simpl.
    eexists. split; [reflexivity|]. unfold stopT. simpl. by rewrite Hr. }
  split; [by rewrite E, triggerAlarm_eq, update_eq|].
  split.
  { rewrite E, triggerAlarm_eq, update_eq. simpl.
    unfold AlarmSound.play, AlarmSound._beepLoop. simpl.
    by destruct (AlarmSound.playing (alarm w)) eqn:P; simpl; rewrite ?P. }
  split; [done|].
  intros ticks. destruct (runTicks_no_poll i ticks w' Hn) as (_ & H1 & H2).
  split; [done|]. by rewrite H2.
Qed.

Lemma countdown_expiry_alarms_once_witness :
  reachable runningCountdown
  ∧ intervals runningCountdown !! 1%nat = Some (mkClosure 0 5000 2)
  ∧ heap runningCountdown !! 0%nat
    = Some (mkTimer 0 Down true (Some 1%nat) 2 2 false 0 0 2 false)
  ∧ recompute Down (mkClosure 0 5000 2) 7000 = 0
  ∧ intervals (tick 1 7000 runningCountdown) !! 1%nat = None
  ∧ playCount 0
      (runTicks (tick 1 7000 runningCountdown) [(1%nat, 7250); (1%nat, 7500)])
    = 1%nat.
Proof.
  assert (Hr : reachable runningCountdown) by (eexists; reflexivity).
  split; [exact Hr|]. split; [reflexivity|]. split; [reflexivity|].
  split; [reflexivity|].
  destruct (countdown_expiry_alarms_once runningCountdown 1%nat
              (mkClosure 0 5000 2)
              (mkTimer 0 Down true (Some 1%nat) 2 2 false 0 0 2 false)
              7000 Hr)
    as (_ & H2 & _ & _ & _ & _ & _ & H8);
    [reflexivity|reflexivity|reflexivity|reflexivity|].
  split; [exact H2|].
  destruct (H8 [(1%nat, 7250); (1%nat, 7500)]) as [_ H9]. exact H9.
Defined.

(** ** [destroy ()] *)

(** C9. [destroy ()] stops the alarm and removes the Timer's callback from
    the interval table before it returns. Afterwards no callback of that
    Timer is registered, so whatever callbacks the browser still runs, at
    whatever clock readings, the Timer's fields stay as [destroy ()] left
    them (not running, not alarming) and the Timer makes no further
    [alarm.play ()] call. *)
Theorem destroy_cancels_poll w i :
  reachable w →
  let w' := destroy i w in
  no_poll i w'
  ∧ AlarmSound.playing (alarm w') = false
  ∧ (∀ t', heap w' !! i = Some t' → running t' = false ∧ alarming t' = false)
  ∧ ∀ ticks,
      no_poll i (runTicks w' ticks)
      ∧ heap (runTicks w' ticks) !! i = heap w' !! i
      ∧ playCount i (runTicks w' ticks) = playCount i w'.
Proof.
  intros Hw w'. apply wf_reachable in Hw as [Hs _].
  assert (Hn : no_poll i w').
  { apply no_poll_stop. by apply (structure_ok_stopAlarm i) in Hs as [Ho _]. }
  split; [done|]. split; [by unfold w', destroy; rewrite stop_eq|].
  split.
  - intros t' Ht'. split; [by apply (idle_stop i (stopAlarm i w))|].
    revert Ht'. unfold w', destroy. rewrite stop_eq, stopAlarm_eq. simpl.
    rewrite !lookup_alter_eq. destruct (heap w !! i) as [t|]; [|done].
    simpl. intros [= <-]. unfold stopT. simpl. by destruct (running t).
  - intros ticks. by apply runTicks_no_poll.
Qed.

Lemma destroy_cancels_poll_witness :
  reachable runningCountdown
  ∧ is_Some (intervals runningCountdown !! 1%nat)
  ∧ heap (runTicks (destroy 0 runningCountdown)
            [(1%nat, 6000); (1%nat, 7000); (1%nat, 9000)]) !! 0%nat
    = heap (destroy 0 runningCountdown) !! 0%nat
  ∧ playCount 0 (runTicks (destroy 0 runningCountdown)
                   [(1%nat, 6000); (1%nat, 7000); (1%nat, 9000)])
    = 0%nat.
Proof.
  assert (Hr : reachable runningCountdown) by (eexists; reflexivity).
  split; [exact Hr|]. split; [eexists; reflexivity|].
  destruct (destroy_cancels_poll runningCountdown 0%nat Hr)
    as (_ & _ & _ & H).
  destruct (H [(1%nat, 6000); (1%nat, 7000); (1%nat, 9000)])
    as (_ & H1 & H2).
  split; [exact H1|]. rewrite H2. reflexivity.
Defined.

(** ** [stop ()] and resuming *)

Lemma runTicks_snoc w ticks k now :
  runTicks w (ticks ++ [(k, now)]) = tick k now (runTicks w ticks).
Proof. unfold runTicks, run. by rewrite map_app, foldl_app. Qed.

Lemma runTicks_unregistered k ns : ∀ w,
  intervals w !! k = None → runTicks w (map (pair k) ns) = w.
Proof.
  induction ns as [|n ns IH]; intros w H; [done|].
  simpl. rewrite runTicks_cons, tick_unregistered by done. by apply IH.
Qed.

(** A callback of a CountDown Timer that computes 0 leaves the table. *)
Lemma tick_down_zero_unregisters w k c t now :
  intervals_owned w →
  intervals w !! k = Some c → heap w !! owner c = Some t → mode t = Down →
  recompute Down c now ≤ 0 →
  intervals (tick k now w) !! k = None.
Proof.
  intros Ho Hk Ht Hm Hz.
  destruct (Ho k c Hk) as (t0 & Ht0 & Hr & Hid).
  assert (t0 = t) by congruence. subst t0.
  rewrite (tick_down_zero _ _ _ _ _ Hk Ht Hm Hz).
  rewrite triggerAlarm_after_update_intervals.
  unfold stopIntervals. rewrite Ht, Hr, Hid. apply lookup_delete_eq.
Qed.

(** While a stopwatch's callback runs, it stays registered. *)
Lemma runTicks_up_keeps k c ns : ∀ w t,
  intervals w !! k = Some c → heap w !! owner c = Some t → mode t = Up →
  intervals (runTicks w (map (pair k) ns)) !! k = Some c
  ∧ ∃ t', heap (runTicks w (map (pair k) ns)) !! owner c = Some t'
          ∧ mode t' = Up.
Proof.
  induction ns as [|n ns IH]; intros w t Hk Ht Hm; [by eauto|].
  simpl. rewrite runTicks_cons.
  pose proof (tick_up k n w c t Hk Ht Hm) as E.
  apply (IH _ (set_totalSeconds (recompute Up c n) t)).
  - by rewrite E, update_eq.
  - rewrite E, update_eq. simpl. by rewrite lookup_alter_eq, Ht.
  - done.
Qed.

(** A countdown polled at readings up to [startTime + 1000 * s] is either
    still polling, or has expired, and then [startSeconds <= s]. *)
Lemma runTicks_down_progress k c s ns : ∀ w t,
  intervals_owned w →
  Forall (λ n, n ≤ startTime c + 1000 * s) ns →
  intervals w !! k = Some c → heap w !! owner c = Some t → mode t = Down →
  let w' := runTicks w (map (pair k) ns) in
  (intervals w' !! k = Some c
   ∧ ∃ t', heap w' !! owner c = Some t' ∧ mode t' = Down)
  ∨ (intervals w' !! k = None
     ∧ totalSeconds <$> heap w' !! owner c = Some 0
     ∧ startSeconds c - s ≤ 0).
Proof.
  induction ns as [|n ns IH]; intros w t Ho Hns Hk Ht Hm; [left; by eauto|].
  simpl. rewrite runTicks_cons.
  apply Forall_cons in Hns as [Hn Hns].
  destruct (decide (0 < recompute Down c n)) as [Hp|Hz].
  - pose proof (tick_down_positive k n w c t Hk Ht Hm Hp) as E.
    apply (IH _ (set_totalSeconds (recompute Down c n) t)).
    + rewrite E. intros k' c' Hk'. rewrite update_eq in Hk'. simpl in Hk'.
      destruct (Ho k' c' Hk') as (t' & Ht' & Hr & Hid).
      rewrite update_eq. simpl.
      destruct (decide (owner c = owner c')) as [Heq|Hne].
      * rewrite Heq, lookup_alter_eq, Ht'. simpl. eauto.
      * rewrite lookup_alter_ne by done. eauto.
    + done.
    + by rewrite E, update_eq.
    + rewrite E, update_eq. simpl. by rewrite lookup_alter_eq, Ht.
    + done.
  - right.
    assert (Hz' : recompute Down c n ≤ 0) by lia.
    pose proof (tick_down_zero_unregisters w k c t n Ho Hk Ht Hm Hz') as Hu.
    rewrite runTicks_unregistered by done.
    split; [done|]. split.
    + rewrite (tick_total _ _ _ _ _ Hk Ht), Hm. f_equal.
      pose proof (recompute_down_nonneg c n). lia.
    + unfold recompute in Hz'.
      assert ((n - startTime c) / 1000 ≤ s).
      { apply Z.div_le_upper_bound; lia. }
      lia.
Qed.

Lemma div_whole_seconds t0 s : (t0 + 1000 * s - t0) / 1000 = s.
Proof.
  replace (t0 + 1000 * s - t0) with (s * 1000) by lia.
  apply Z.div_mul. lia.
Qed.

(** C6. [stop ()] on a running Timer removes its callback from the
    interval table and sets [running] to [false] (and [intervalId] to
    [null]); [totalSeconds], [targetSeconds] and [mode] keep their
    values. A [start ()] after it, at clock reading [t0], anchors at the
    value [v] that [totalSeconds] had at the stop: once the clock has
    advanced by [s] whole seconds, with the new callback run at any
    readings up to then, the run at [t0 + 1000 * s] leaves
    [totalSeconds = v + s] in CountUp mode and [max (0, v - s)] in
    CountDown mode. *)
Theorem stop_then_start_resumes w i t :
  reachable w → heap w !! i = Some t → running t = true →
  let v := totalSeconds t in
  let w1 := stop i w in
  heap w1 !! i = Some (set_intervalId None (set_running false t))
  ∧ no_poll i w1
  ∧ ∀ t0 s (ns : list Z),
      0 ≤ s → Forall (λ n, n ≤ t0 + 1000 * s) ns →
      let k := nextIntervalId w1 in
      totalSeconds
        <$> heap (runTicks (start i t0 w1)
                    (map (pair k) (ns ++ [t0 + 1000 * s]))) !! i
      = Some (match mode t with Up => v + s | Down => Z.max 0 (v - s) end).
Proof.
  intros Hw Ht Hr v w1.
  pose proof (wf_reachable _ Hw) as [Hs Hc].
  set (t1 := set_intervalId None (set_running false t)).
  assert (H1 : heap w1 !! i = Some t1).
  { unfold w1. rewrite stop_eq. simpl. rewrite lookup_alter_eq, Ht. simpl.
    unfold stopT. by rewrite Hr. }
  split; [exact H1|]. split; [by apply no_poll_stop, Hs|].
  intros t0 s ns Hs0 Hns k.
  assert (Hgo : starts t1 = true).
  { unfold starts. simpl. destruct (mode t) eqn:Hm; [|done].
    rewrite bool_decide_eq_true_2 by done. simpl.
    pose proof (Hc i t Ht Hr Hm). apply negb_true_iff, Z.leb_gt. lia. }
  pose proof (start_go i t0 w1 t1 H1 Hgo) as E.
  set (c := mkClosure i t0 v).
  set (t2 := set_intervalId (Some k) (set_running true t1)).
  assert (Hk : intervals (start i t0 w1) !! k = Some c).
  { rewrite E. simpl. by rewrite lookup_insert_eq. }
  assert (H2 : heap (start i t0 w1) !! owner c = Some t2).
  { rewrite E. simpl. by rewrite lookup_insert_eq. }
  assert (Ho : intervals_owned (start i t0 w1)).
  { by apply structure_ok_start, structure_ok_stop. }
  rewrite map_app. simpl. rewrite runTicks_snoc.
  destruct (mode t) eqn:Hm.
  - destruct (runTicks_down_progress k c s ns _ t2 Ho Hns Hk H2 Hm)
      as [(Hk' & t' & Ht' & Hm')|(Hk' & Ht' & Hle)].
    + pose proof (tick_total _ (t0 + 1000 * s) _ _ _ Hk' Ht') as Hfin.
      rewrite Hm' in Hfin. unfold recompute in Hfin.
      subst c. cbn [owner startTime startSeconds] in Hfin.
      by rewrite div_whole_seconds in Hfin.
    + rewrite tick_unregistered by done.
      subst c. cbn [owner startTime startSeconds] in Ht', Hle.
      rewrite Ht'. f_equal. lia.
  - destruct (runTicks_up_keeps k c ns _ t2 Hk H2 Hm)
      as (Hk' & t' & Ht' & Hm').
    pose proof (tick_total _ (t0 + 1000 * s) _ _ _ Hk' Ht') as Hfin.
    rewrite Hm' in Hfin. unfold recompute in Hfin.
    subst c. cbn [owner startTime startSeconds] in Hfin.
    by rewrite div_whole_seconds in Hfin.
Qed.

Lemma stop_then_start_resumes_witness :
  reachable runningCountdown
  ∧ heap runningCountdown !! 0%nat
    = Some (mkTimer 0 Down true (Some 1%nat) 2 2 false 0 0 2 false)
  ∧ Forall (λ n, n ≤ 9000 + 1000 * 1) [9250; 9500]
  ∧ totalSeconds
      <$> heap (runTicks (start 0 9000 (stop 0 runningCountdown))
                  (map (pair (nextIntervalId (stop 0 runningCountdown)))
                     ([9250; 9500] ++ [9000 + 1000 * 1]))) !! 0%nat
    = Some 1.
Proof.
  assert (Hr : reachable runningCountdown) by (eexists; reflexivity).
  assert (Hf : Forall (λ n, n ≤ 9000 + 1000 * 1) [9250; 9500]).
  { repeat constructor; lia. }
  split; [exact Hr|]. split; [reflexivity|]. split; [exact Hf|].
  destruct (stop_then_start_resumes runningCountdown 0%nat
              (mkTimer 0 Down true (Some 1%nat) 2 2 false 0 0 2 false) Hr)
    as (_ & _ & H); [reflexivity|reflexivity|].
  exact (H 9000 1 [9250; 9500] ltac:(lia) Hf).
Defined.

(** ** Sign of [totalSeconds] *)

Lemma nonneg_update i f w :
  (∀ t, heap w !! i = Some t → timer_nonneg t → timer_nonneg (f t)) →
  nonneg w → nonneg (update i f w).
Proof.
  intros Hf [H1 H2]. rewrite update_eq. split; simpl; [|done].
  intros j t' Hj. destruct (decide (i = j)) as [->|Hne].
  - rewrite lookup_alter_eq in Hj.
    destruct (heap w !! j) as [t|] eqn:E; [|done].
    injection Hj as <-. eauto.
  - rewrite lookup_alter_ne in Hj by done. eauto.
Qed.

Lemma nonneg_set_totalSeconds i v w :
  0 ≤ v → nonneg w → nonneg (update i (set_totalSeconds v) w).
Proof.
  intros Hv. apply nonneg_update. intros t _ (_ & H). by split.
Qed.

Lemma nonneg_callAlarm i c w : nonneg w → nonneg (callAlarm i c w).
Proof. by intros H. Qed.

Lemma timer_nonneg_stopT t : timer_nonneg t → timer_nonneg (stopT t).
Proof. unfold stopT. by destruct (running t). Qed.

Lemma nonneg_stop i w : nonneg w → nonneg (stop i w).
Proof.
  intros [H1 H2]. rewrite stop_eq. split; simpl.
  - intros j t' Hj.
    apply lookup_alter_heap in Hj as (t & Ht & [->|[_ ->]]); [by eauto|].
    apply timer_nonneg_stopT. eauto.
  - intros k c Hk. apply stopIntervals_sub in Hk. eauto.
Qed.

Lemma nonneg_stopAlarm i w : nonneg w → nonneg (stopAlarm i w).
Proof.
  intros H. unfold stopAlarm. apply nonneg_callAlarm, nonneg_update; [|done].
  by intros t _ Ht.
Qed.

Lemma nonneg_triggerAlarm i w : nonneg w → nonneg (_triggerAlarm i w).
Proof.
  intros H. unfold _triggerAlarm. apply nonneg_callAlarm.
  apply nonneg_update; [by intros t _ Ht|].
  apply nonneg_set_totalSeconds; [done|]. by apply nonneg_stop.
Qed.

Lemma nonneg_reset i w : nonneg w → nonneg (reset i w).
Proof.
  intros H. unfold reset.
  assert (H' : nonneg (stop i (stopAlarm i w)))
    by by apply nonneg_stop, nonneg_stopAlarm.
  destruct (heap (stop i (stopAlarm i w)) !! i) as [t|] eqn:E; [|done].
  destruct (mode t); apply nonneg_set_totalSeconds; try done.
  destruct H' as [H' _]. by destruct (H' i t E) as (_ & ? & _).
Qed.

Lemma nonneg_destroy i w : nonneg w → nonneg (destroy i w).
Proof. intros H. by apply nonneg_stop, nonneg_stopAlarm. Qed.

Lemma nonneg_start i now w : nonneg w → nonneg (start i now w).
Proof.
  intros [H1 H2]. destruct (starts_or_not i w) as [(t & Ht & Hs)|Hn].
  - rewrite (start_go _ _ _ _ Ht Hs). split; simpl.
    + intros j t' Hj. apply lookup_insert_Some in Hj as [[<- <-]|[Hne Hj]].
      * exact (H1 i t Ht).
      * eauto.
    + intros k c Hk. apply lookup_insert_Some in Hk as [[<- <-]|[Hne Hk]].
      * simpl. by destruct (H1 i t Ht) as [? _].
      * eauto.
  - by rewrite start_noop.
Qed.

Lemma nonneg_pushTimer idx w : nonneg w → nonneg (pushTimer idx w).
Proof.
  intros [H1 H2]. split; simpl; [|done].
  intros j t' Hj. apply lookup_insert_Some in Hj as [[<- <-]|[Hne Hj]].
  - unfold timer_nonneg. simpl. lia.
  - eauto.
Qed.

Lemma nonneg_destroyAll w : nonneg w → nonneg (destroyAll w).
Proof.
  intros H. unfold destroyAll.
  assert (H' : nonneg (foldl (λ w r, destroy r w) w (timers w))).
  { generalize (timers w). intros l. revert w H.
    induction l as [|r l IH]; intros w H; simpl; [done|].
    by apply IH, nonneg_destroy. }
  exact H'.
Qed.

Lemma nonneg_showTimerScreen key w :
  nonneg w → nonneg (showTimerScreen key w).
Proof.
  intros H. unfold showTimerScreen. destruct (MODES key) as [n|]; [|done].
  apply nonneg_destroyAll in H. revert H.
  generalize (destroyAll w) (seq 0 n). intros w' l. revert w'.
  induction l as [|x l IH]; intros w' H; simpl; [done|].
  by apply IH, nonneg_pushTimer.
Qed.

Lemma timer_nonneg_adjustPicker u d t :
  d = 1 ∨ d = -1 → timer_nonneg t → timer_nonneg (_adjustPicker u d t).
Proof.
  intros Hd (H1 & H2 & H3 & H4 & H5).
  assert (Hrem : ∀ v m, 0 ≤ v ≤ m → 0 ≤ Z.rem (v + d + m + 1) (m + 1) ≤ m).
  { intros v m Hv. pose proof (Z.rem_bound_pos (v + d + m + 1) (m + 1)). lia. }
  pose proof (Hrem _ _ H3). pose proof (Hrem _ _ H4). pose proof (Hrem _ _ H5).
  unfold timer_nonneg. destruct u; simpl in *; lia.
Qed.

Lemma nonneg_tick k now w :
  countup_clock_ok w (EvTick k now) = true → nonneg w →
  nonneg (tick k now w).
Proof.
  intros Hc H. unfold tick. simpl in Hc.
  destruct (intervals w !! k) as [c|] eqn:Hk; [|done].
  destruct (heap w !! owner c) as [t|]; [|done].
  assert (Hs : 0 ≤ startSeconds c) by (destruct H as [_ H]; eauto).
  destruct (mode t).
  - case_match.
    + apply nonneg_triggerAlarm, nonneg_set_totalSeconds; [lia|done].
    + apply nonneg_set_totalSeconds; [lia|done].
  - apply Z.leb_le in Hc.
    assert (He : 0 ≤ (now - startTime c) / 1000) by (apply Z.div_pos; lia).
    apply nonneg_set_totalSeconds; [lia|done].
Qed.

Lemma nonneg_step w e :
  countup_clock_ok w e = true → nonneg w → nonneg (step w e).
Proof.
  intros Hc H. destruct e; simpl.
  - by apply nonneg_showTimerScreen.
  - by apply nonneg_destroyAll.
  - unfold clickToggle. destruct (heap w !! i) as [t|]; [|done].
    destruct (running t); [done|].
    apply nonneg_reset, nonneg_update; [|done]. by intros t' _ Ht'.
  - unfold clickArrow. destruct (heap w !! i) as [t|]; [|done].
    destruct (running t); [done|].
    apply nonneg_update; [|done]. intros t' _.
    apply timer_nonneg_adjustPicker. case_match; auto.
  - unfold clickRec. destruct (heap w !! i) as [t|]; [|done].
    apply nonneg_update; [|done]. by intros t' _ Ht'.
  - by apply nonneg_start.
  - by apply nonneg_stop.
  - by apply nonneg_reset.
  - unfold clickCard. destruct (heap w !! i) as [t|]; [|done].
    destruct (alarming t); [|done]. by apply nonneg_stopAlarm.
  - by apply nonneg_stopAlarm.
  - by apply nonneg_destroy.
  - by apply nonneg_tick.
Qed.

Lemma nonneg_run evs : ∀ w,
  countup_admissible w evs = true → nonneg w → nonneg (run w evs).
Proof.
  induction evs as [|e evs IH]; intros w Ha H; simpl; [done|].
  simpl in Ha. apply andb_true_iff in Ha as [Hc Ha].
  by apply IH, nonneg_step.
Qed.

Lemma nonneg_initialWorld : nonneg initialWorld.
Proof. by split. Qed.

(** C8, as stated, fails: callbacks at arbitrary clock readings include
    readings before the one captured by [start ()], and in CountUp mode
    the recomputation is not floored: the run above leaves
    [totalSeconds = -5]. *)
Lemma countup_negative_when_clock_set_back :
  ¬ (∀ evs i t, heap (run initialWorld evs) !! i = Some t →
                0 ≤ totalSeconds t).
Proof.
  intros H.
  specialize (H clockSetBack 0%nat
                (mkTimer 0 Up true (Some 1%nat) (-5) 0 false 0 0 0 false)
                eq_refl).
  simpl in H. lia.
Qed.

(** C8, amended. For every sequence of operations (showing a timer screen,
    which constructs the Timers, mode change, duration adjustment, start,
    stop, reset, alarm acknowledge, destroy) interleaved with callback
    runs, where the callbacks of Timers in CountUp mode run at clock
    readings not earlier than the reading captured by the [start ()] that
    registered them and the callbacks of Timers in CountDown mode run at
    arbitrary clock readings, every Timer has [totalSeconds >= 0]
    afterwards, in CountDown and in CountUp mode. *)
Theorem totalSeconds_nonneg evs i t :
  countup_admissible initialWorld evs = true →
  heap (run initialWorld evs) !! i = Some t →
  0 ≤ totalSeconds t.
Proof.
  intros Ha Ht.
  destruct (nonneg_run evs initialWorld Ha nonneg_initialWorld) as [H _].
  by destruct (H i t Ht) as [? _].
Qed.

Lemma totalSeconds_nonneg_witness :
  let evs :=
    [EvShowTimerScreen "ap";
     EvClickArrow 0 UnitS "up"; EvClickArrow 0 UnitS "up";
     EvClickArrow 0 UnitS "up"; EvClickToggle 1 Up;
     EvStart 0 5000; EvStart 1 5000;
     EvTick 1 2000; EvTick 2 8400] in
  countup_admissible initialWorld evs = true
  ∧ admissible initialWorld evs = false
  ∧ heap (run initialWorld evs) !! 0%nat
    = Some (mkTimer 0 Down true (Some 1%nat) 6 3 false 0 0 3 false)
  ∧ heap (run initialWorld evs) !! 1%nat
    = Some (mkTimer 1 Up true (Some 2%nat) 3 0 false 0 0 0 false)
  ∧ 0 ≤ totalSeconds
           (mkTimer 0 Down true (Some 1%nat) 6 3 false 0 0 3 false)
  ∧ 0 ≤ totalSeconds
           (mkTimer 1 Up true (Some 2%nat) 3 0 false 0 0 0 false).
Proof.
  intros evs. split; [reflexivity|]. split; [reflexivity|].
  split; [reflexivity|]. split; [reflexivity|]. split.
  - exact (totalSeconds_nonneg evs 0%nat
             (mkTimer 0 Down true (Some 1%nat) 6 3 false 0 0 3 false)
             eq_refl eq_refl).
  - exact (totalSeconds_nonneg evs 1%nat
             (mkTimer 1 Up true (Some 2%nat) 3 0 false 0 0 0 false)
             eq_refl eq_refl).
Defined.

(** * Further properties of the code *)

(** ** AlarmSound *)

(** [play ()] is idempotent: the guard on [playing] makes a second call
    change nothing, so one beep loop runs however often [play ()] is
    called; a call on a silent alarm sets [playing] and starts exactly one
    oscillator, a call on a playing alarm starts none. *)
Theorem play_idempotent a :
  AlarmSound.play (AlarmSound.play a) = AlarmSound.play a
  ∧ AlarmSound.playing (AlarmSound.play a) = true
  ∧ AlarmSound.oscillators (AlarmSound.play a)
    = (if AlarmSound.playing a then AlarmSound.oscillators a
       else S (AlarmSound.oscillators a)).
Proof.
  unfold AlarmSound.play, AlarmSound._beepLoop, AlarmSound.init.
  destruct a as [c p o]. simpl. destruct p; simpl; done.
Qed.

(** [stop ()] always leaves the alarm silent with no oscillator held, it
    is idempotent, and it undoes [play ()]: stopping after playing gives
    the same state as stopping at once, up to the AudioContext that
    [play ()] created. *)
Theorem stop_silences a :
  AlarmSound.playing (AlarmSound.stop a) = false
  ∧ AlarmSound.oscillators (AlarmSound.stop a) = 0%nat
  ∧ AlarmSound.stop (AlarmSound.stop a) = AlarmSound.stop a
  ∧ AlarmSound.stop (AlarmSound.play a)
    = AlarmSound.stop (AlarmSound.init a).
Proof.
  unfold AlarmSound.play, AlarmSound._beepLoop, AlarmSound.init,
    AlarmSound.stop.
  destruct a as [c p o]. simpl. destruct p; simpl; done.
Qed.

(** ** One callback per Timer *)

(** In every reachable world two registered callbacks never belong to the
    same Timer: [start ()] registers none while the Timer is running and
    [stop ()] removes the one it holds. *)
Theorem at_most_one_callback w k1 k2 c1 c2 :
  reachable w →
  intervals w !! k1 = Some c1 → intervals w !! k2 = Some c2 →
  owner c1 = owner c2 → k1 = k2.
Proof.
  intros Hw H1 H2 Ho. apply wf_reachable in Hw as [(Hown & _) _].
  destruct (Hown k1 c1 H1) as (t1 & Ht1 & _ & Hi1).
  destruct (Hown k2 c2 H2) as (t2 & Ht2 & _ & Hi2).
  rewrite Ho in Ht1. congruence.
Qed.

Lemma at_most_one_callback_witness :
  reachable runningCountdown
  ∧ intervals runningCountdown !! 1%nat = Some (mkClosure 0 5000 2)
  ∧ owner (mkClosure 0 5000 2) = owner (mkClosure 0 5000 2)
  ∧ (1 = 1)%nat.
Proof.
  assert (Hr : reachable runningCountdown) by (eexists; reflexivity).
  split; [exact Hr|]. split; [reflexivity|]. split; [reflexivity|].
  exact (at_most_one_callback runningCountdown 1%nat 1%nat
           (mkClosure 0 5000 2) (mkClosure 0 5000 2) Hr
           eq_refl eq_refl eq_refl).
Defined.

(** ** Cards are independent *)

Lemma update_heap_other i j f w :
  i ≠ j → heap (update i f w) !! j = heap w !! j.
Proof. intros H. rewrite update_eq. simpl. by rewrite lookup_alter_ne. Qed.

Lemma stop_heap_other i j w : i ≠ j → heap (stop i w) !! j = heap w !! j.
Proof. intros H. rewrite stop_eq. simpl. by rewrite lookup_alter_ne. Qed.

Lemma stopAlarm_heap_other i j w :
  i ≠ j → heap (stopAlarm i w) !! j = heap w !! j.
Proof. intros H. rewrite stopAlarm_eq. simpl. by rewrite lookup_alter_ne. Qed.

Lemma destroy_heap_other i j w :
  i ≠ j → heap (destroy i w) !! j = heap w !! j.
Proof.
  intros H. unfold destroy.
  by rewrite stop_heap_other, stopAlarm_heap_other.
Qed.

Lemma reset_heap_other i j w : i ≠ j → heap (reset i w) !! j = heap w !! j.
Proof.
  intros H. unfold reset.
  destruct (heap (stop i (stopAlarm i w)) !! i) as [t|].
  - destruct (mode t);
      by rewrite update_heap_other, stop_heap_other, stopAlarm_heap_other.
  - by rewrite stop_heap_other, stopAlarm_heap_other.
Qed.

Lemma start_heap_other i j now w :
  i ≠ j → heap (start i now w) !! j = heap w !! j.
Proof.
  intros H. destruct (starts_or_not i w) as [(t & Ht & Hs)|Hn].
  - rewrite (start_go _ _ _ _ Ht Hs). simpl. by rewrite lookup_insert_ne.
  - by rewrite start_noop.
Qed.

Lemma clickToggle_heap_other i j md w :
  i ≠ j → heap (clickToggle i md w) !! j = heap w !! j.
Proof.
  intros H. unfold clickToggle. destruct (heap w !! i) as [t|]; [|done].
  destruct (running t); [done|].
  by rewrite reset_heap_other, update_heap_other.
Qed.

Lemma clickArrow_heap_other i j u d w :
  i ≠ j → heap (clickArrow i u d w) !! j = heap w !! j.
Proof.
  intros H. unfold clickArrow. destruct (heap w !! i) as [t|]; [|done].
  destruct (running t); [done|]. by rewrite update_heap_other.
Qed.

Lemma clickRec_heap_other i j w :
  i ≠ j → heap (clickRec i w) !! j = heap w !! j.
Proof.
  intros H. unfold clickRec. destruct (heap w !! i) as [t|]; [|done].
  by rewrite update_heap_other.
Qed.

Lemma clickCard_heap_other i j w :
  i ≠ j → heap (clickCard i w) !! j = heap w !! j.
Proof.
  intros H. unfold clickCard. destruct (heap w !! i) as [t|]; [|done].
  destruct (alarming t); [|done]. by rewrite stopAlarm_heap_other.
Qed.

(** An input event or method call addressed to one Timer changes no field
    of any other Timer: the cards share nothing but the alarm. *)
Theorem step_leaves_other_timers w e i j :
  target e = Some i → i ≠ j →
  heap (step w e) !! j = heap w !! j.
Proof.
  intros He Hne. destruct e; simpl in He; try discriminate;
    injection He as ->; simpl.
  - by apply clickToggle_heap_other.
  - by apply clickArrow_heap_other.
  - by apply clickRec_heap_other.
  - by apply start_heap_other.
  - by apply stop_heap_other.
  - by apply reset_heap_other.
  - by apply clickCard_heap_other.
  - by apply stopAlarm_heap_other.
  - by apply destroy_heap_other.
Qed.

Lemma step_leaves_other_timers_witness :
  target (EvReset 0) = Some 0%nat ∧ (0 ≠ 1)%nat
  ∧ heap (step bothAlarming (EvReset 0)) !! 1%nat
    = Some (mkTimer 1 Down false None 0 1 false 0 0 1 true).
Proof.
  split; [reflexivity|]. split; [lia|].
  rewrite (step_leaves_other_timers bothAlarming (EvReset 0) 0%nat 1%nat);
    [reflexivity|reflexivity|lia].
Defined.

(** ** Settings are locked while running *)

Section Projection.

Context {B : Type} (g : Timer → B).
Hypothesis g_running : ∀ v t, g (set_running v t) = g t.
Hypothesis g_intervalId : ∀ v t, g (set_intervalId v t) = g t.
Hypothesis g_totalSeconds : ∀ v t, g (set_totalSeconds v t) = g t.
Hypothesis g_alarming : ∀ v t, g (set_alarming v t) = g t.
Hypothesis g_recording : ∀ v t, g (set_recording v t) = g t.

Lemma proj_alter (f : Timer → Timer) (h : gmap nat Timer) i j :
  (∀ t, g (f t) = g t) → g <$> alter f i h !! j = g <$> h !! j.
Proof.
  intros Hf. destruct (decide (i = j)) as [->|Hne].
  - rewrite lookup_alter_eq. destruct (h !! j); [|done]. simpl.
    by rewrite Hf.
  - by rewrite lookup_alter_ne.
Qed.

Lemma proj_stopT t : g (stopT t) = g t.
Proof.
  unfold stopT. destruct (running t); [|done].
  by rewrite g_intervalId, g_running.
Qed.

Lemma proj_update i j f w :
  (∀ t, g (f t) = g t) →
  g <$> heap (update i f w) !! j = g <$> heap w !! j.
Proof. intros Hf. rewrite update_eq. simpl. by apply proj_alter. Qed.

Lemma proj_stop i j w : g <$> heap (stop i w) !! j = g <$> heap w !! j.
Proof. rewrite stop_eq. simpl. apply proj_alter, proj_stopT. Qed.

Lemma proj_stopAlarm i j w :
  g <$> heap (stopAlarm i w) !! j = g <$> heap w !! j.
Proof. rewrite stopAlarm_eq. simpl. by apply proj_alter. Qed.

Lemma proj_triggerAlarm i j w :
  g <$> heap (_triggerAlarm i w) !! j = g <$> heap w !! j.
Proof.
  rewrite triggerAlarm_eq. simpl.
  rewrite !proj_alter; auto using proj_stopT.
Qed.

Lemma proj_destroy i j w :
  g <$> heap (destroy i w) !! j = g <$> heap w !! j.
Proof. unfold destroy. by rewrite proj_stop, proj_stopAlarm. Qed.

Lemma proj_reset i j w : g <$> heap (reset i w) !! j = g <$> heap w !! j.
Proof.
  unfold reset. destruct (heap (stop i (stopAlarm i w)) !! i) as [t|].
  - destruct (mode t);
      by rewrite proj_update, proj_stop, proj_stopAlarm.
  - by rewrite proj_stop, proj_stopAlarm.
Qed.

Lemma proj_start i j now w :
  g <$> heap (start i now w) !! j = g <$> heap w !! j.
Proof.
  destruct (starts_or_not i w) as [(t & Ht & Hs)|Hn].
  - rewrite (start_go _ _ _ _ Ht Hs). simpl.
    destruct (decide (i = j)) as [->|Hne].
    + rewrite lookup_insert_eq, Ht. simpl.
      by rewrite g_intervalId, g_running.
    + by rewrite lookup_insert_ne.
  - by rewrite start_noop.
Qed.

Lemma proj_tick k now j w :
  g <$> heap (tick k now w) !! j = g <$> heap w !! j.
Proof.
  unfold tick.
  destruct (intervals w !! k) as [c|]; [|done].
  destruct (heap w !! owner c) as [t|]; [|done].
  destruct (mode t).
  - case_match.
    + by rewrite proj_triggerAlarm, proj_update.
    + by rewrite proj_update.
  - by rewrite proj_update.
Qed.

Lemma proj_clickRec i j w :
  g <$> heap (clickRec i w) !! j = g <$> heap w !! j.
Proof.
  unfold clickRec. destruct (heap w !! i) as [t|]; [|done].
  by rewrite proj_update.
Qed.

Lemma proj_clickCard i j w :
  g <$> heap (clickCard i w) !! j = g <$> heap w !! j.
Proof.
  unfold clickCard. destruct (heap w !! i) as [t|]; [|done].
  destruct (alarming t); [|done]. by rewrite proj_stopAlarm.
Qed.

Lemma proj_destroyAll j w :
  g <$> heap (destroyAll w) !! j = g <$> heap w !! j.
Proof.
  unfold destroyAll. simpl. generalize (timers w). intros l. revert w.
  induction l as [|r l IH]; intros w; simpl; [done|].
  by rewrite IH, proj_destroy.
Qed.

End Projection.

Lemma destroyAll_nextRef w : nextRef (destroyAll w) = nextRef w.
Proof.
  unfold destroyAll. simpl. generalize (timers w). intros l. revert w.
  induction l as [|r l IH]; intros w; simpl; [done|].
  rewrite IH. unfold destroy. by rewrite stop_eq, stopAlarm_eq.
Qed.

(** Constructing Timers leaves the existing ones alone. *)
Lemma pushTimers_heap_old l : ∀ w j,
  (j < nextRef w)%nat →
  heap (foldl (λ w idx, pushTimer idx w) w l) !! j = heap w !! j.
Proof.
  induction l as [|x l IH]; intros w j Hj; simpl; [done|].
  rewrite IH by (simpl; lia). simpl. rewrite lookup_insert_ne; [done|lia].
Qed.

Lemma showTimerScreen_heap_old key w j :
  (j < nextRef w)%nat →
  config <$> heap (showTimerScreen key w) !! j = config <$> heap w !! j.
Proof.
  intros Hj. unfold showTimerScreen. destruct (MODES key) as [n|]; [|done].
  rewrite pushTimers_heap_old by by rewrite destroyAll_nextRef.
  by apply proj_destroyAll.
Qed.

(** While a Timer is running nothing changes its settings: whatever
    happens next (a click on its mode toggle or on a picker arrow
    included), [mode], [targetSeconds] and the three unit values are the
    same afterwards. *)
Theorem settings_locked_while_running w e i t :
  reachable w → heap w !! i = Some t → running t = true →
  config <$> heap (step w e) !! i = Some (config t).
Proof.
  intros Hw Ht Hr.
  apply wf_reachable in Hw as [(_ & _ & Hf) _].
  assert (E : config <$> heap w !! i = Some (config t)) by by rewrite Ht.
  rewrite <- E. destruct e; simpl.
  - apply showTimerScreen_heap_old. eauto.
  - by apply proj_destroyAll.
  - destruct (decide (i0 = i)) as [->|Hne].
    + unfold clickToggle. by rewrite Ht, Hr.
    + by rewrite clickToggle_heap_other.
  - destruct (decide (i0 = i)) as [->|Hne].
    + unfold clickArrow. by rewrite Ht, Hr.
    + by rewrite clickArrow_heap_other.
  - by apply proj_clickRec.
  - by apply proj_start.
  - by apply proj_stop.
  - by apply proj_reset.
  - by apply proj_clickCard.
  - by apply proj_stopAlarm.
  - by apply proj_destroy.
  - by apply proj_tick.
Qed.

Lemma settings_locked_while_running_witness :
  reachable runningCountdown
  ∧ heap runningCountdown !! 0%nat
    = Some (mkTimer 0 Down true (Some 1%nat) 2 2 false 0 0 2 false)
  ∧ config <$> heap (step runningCountdown (EvClickToggle 0 Up)) !! 0%nat
    = Some (Down, 2, 0, 0, 2).
Proof.
  assert (Hr : reachable runningCountdown) by (eexists; reflexivity).
  split; [exact Hr|]. split; [reflexivity|].
  exact (settings_locked_while_running runningCountdown (EvClickToggle 0 Up)
           0%nat (mkTimer 0 Down true (Some 1%nat) 2 2 false 0 0 2 false)
           Hr eq_refl eq_refl).
Defined.

(** ** Invariants, generically *)

Section WorldInvariant.

Variable I : World → Prop.
Hypothesis I_update : ∀ i f w, field_write f → I w → I (update i f w).
Hypothesis I_callAlarm : ∀ i c w, I w → I (callAlarm i c w).
Hypothesis I_stop : ∀ i w, I w → I (stop i w).
Hypothesis I_start : ∀ i now w, I w → I (start i now w).
Hypothesis I_pushTimer : ∀ idx w, I w → I (pushTimer idx w).
Hypothesis I_clearTimers : ∀ w, I w → I (clearTimers w).

Lemma inv_stopAlarm i w : I w → I (stopAlarm i w).
Proof.
  intros H. unfold stopAlarm. apply I_callAlarm, I_update; [constructor|done].
Qed.

Lemma inv_triggerAlarm i w : I w → I (_triggerAlarm i w).
Proof.
  intros H. unfold _triggerAlarm. apply I_callAlarm.
  do 2 (apply I_update; [constructor|]). by apply I_stop.
Qed.

Lemma inv_reset i w : I w → I (reset i w).
Proof.
  intros H. unfold reset.
  assert (H' : I (stop i (stopAlarm i w))) by by apply I_stop, inv_stopAlarm.
  destruct (heap (stop i (stopAlarm i w)) !! i) as [t|]; [|done].
  destruct (mode t); (apply I_update; [constructor|done]).
Qed.

Lemma inv_destroy i w : I w → I (destroy i w).
Proof. intros H. by apply I_stop, inv_stopAlarm. Qed.

Lemma inv_tick k now w : I w → I (tick k now w).
Proof.
  intros H. unfold tick.
  destruct (intervals w !! k) as [c|]; [|done].
  destruct (heap w !! owner c) as [t|]; [|done].
  destruct (mode t).
  - case_match.
    + apply inv_triggerAlarm, I_update; [constructor|done].
    + apply I_update; [constructor|done].
  - apply I_update; [constructor|done].
Qed.

Lemma inv_destroyAll w : I w → I (destroyAll w).
Proof.
  intros H. unfold destroyAll.
  assert (H' : I (foldl (λ w r, destroy r w) w (timers w))).
  { generalize (timers w). intros l. revert w H.
    induction l as [|r l IH]; intros w H; simpl; [done|].
    by apply IH, inv_destroy. }
  by apply I_clearTimers in H'.
Qed.

Lemma inv_showTimerScreen key w : I w → I (showTimerScreen key w).
Proof.
  intros H. unfold showTimerScreen. destruct (MODES key) as [n|]; [|done].
  apply inv_destroyAll in H. revert H.
  generalize (destroyAll w) (seq 0 n). intros w' l. revert w'.
  induction l as [|x l IH]; intros w' H; simpl; [done|].
  by apply IH, I_pushTimer.
Qed.

Lemma inv_step w e : I w → I (step w e).
Proof.
  intros H. destruct e; simpl.
  - by apply inv_showTimerScreen.
  - by apply inv_destroyAll.
  - unfold clickToggle. destruct (heap w !! i) as [t|]; [|done].
    destruct (running t); [done|].
    apply inv_reset, I_update; [constructor|done].
  - unfold clickArrow. destruct (heap w !! i) as [t|]; [|done].
    destruct (running t); [done|].
    apply I_update; [|done]. case_match; constructor.
  - unfold clickRec. destruct (heap w !! i) as [t|]; [|done].
    apply I_update; [constructor|done].
  - by apply I_start.
  - by apply I_stop.
  - by apply inv_reset.
  - unfold clickCard. destruct (heap w !! i) as [t|]; [|done].
    destruct (alarming t); [|done]. by apply inv_stopAlarm.
  - by apply inv_stopAlarm.
  - by apply inv_destroy.
  - by apply inv_tick.
Qed.

Lemma inv_run evs : ∀ w, I w → I (run w evs).
Proof.
  induction evs as [|e evs IH]; intros w H; simpl; [done|].
  by apply IH, inv_step.
Qed.

Lemma inv_reachable w : I initialWorld → reachable w → I w.
Proof. intros H0 [evs ->]. by apply inv_run. Qed.

End WorldInvariant.

Lemma field_write_keeps_poll f : field_write f → keeps_poll f.
Proof. intros []; auto with timer. Qed.

(** ** The picker's values *)

Lemma units_ok_field_write f t : field_write f → units_ok t → units_ok (f t).
Proof.
  intros Hf (H1 & H2 & H3 & H4).
  assert (Hrem : ∀ d v m, d = 1 ∨ d = -1 → 0 ≤ v ≤ m →
                 0 ≤ Z.rem (v + d + m + 1) (m + 1) ≤ m).
  { intros d v m Hd Hv.
    pose proof (Z.rem_bound_pos (v + d + m + 1) (m + 1)). lia. }
  destruct Hf as [| | | |u|u]; try done.
  - pose proof (Hrem 1 _ _ (or_introl eq_refl) H1).
    pose proof (Hrem 1 _ _ (or_introl eq_refl) H2).
    pose proof (Hrem 1 _ _ (or_introl eq_refl) H3).
    unfold units_ok. destruct u; simpl in *; lia.
  - pose proof (Hrem (-1) _ _ (or_intror eq_refl) H1).
    pose proof (Hrem (-1) _ _ (or_intror eq_refl) H2).
    pose proof (Hrem (-1) _ _ (or_intror eq_refl) H3).
    unfold units_ok. destruct u; simpl in *; lia.
Qed.

Lemma heap_all_units_ok w : reachable w → heap_all units_ok w.
Proof.
  apply inv_reachable.
  - intros i f w' Hf H j t'. rewrite update_eq. simpl. intros Hj.
    apply lookup_alter_heap in Hj as (t & Ht & [->|[_ ->]]); [by eauto|].
    apply units_ok_field_write; eauto.
  - by intros i c w' H.
  - intros i w' H j t'. rewrite stop_eq. simpl. intros Hj.
    apply lookup_alter_heap in Hj as (t & Ht & [->|[_ ->]]); [by eauto|].
    unfold stopT. destruct (running t); [|by eauto].
    exact (H j t Ht).
  - intros i now w' H. destruct (starts_or_not i w') as [(t & Ht & Hs)|Hn].
    + rewrite (start_go _ _ _ _ Ht Hs). intros j t'. simpl. intros Hj.
      apply lookup_insert_Some in Hj as [[<- <-]|[Hne Hj]]; [|by eauto].
      exact (H i t Ht).
    + by rewrite start_noop.
  - intros idx w' H j t'. simpl. intros Hj.
    apply lookup_insert_Some in Hj as [[<- <-]|[Hne Hj]]; [|by eauto].
    unfold units_ok. simpl. lia.
  - by intros w' H.
  - by intros i t.
Qed.

(** In every reachable world each Timer's hour value lies in 0..23, its
    minute and second values in 0..59, and [targetSeconds] is
    [setH * 3600 + setM * 60 + setS], hence at most 86399 (23:59:59):
    the duration never goes out of step with the picker. *)
Theorem picker_values_in_range w i t :
  reachable w → heap w !! i = Some t →
  0 ≤ setH t ≤ 23 ∧ 0 ≤ setM t ≤ 59 ∧ 0 ≤ setS t ≤ 59
  ∧ targetSeconds t = setH t * 3600 + setM t * 60 + setS t
  ∧ 0 ≤ targetSeconds t ≤ 86399.
Proof.
  intros Hw Ht.
  destruct (heap_all_units_ok w Hw i t Ht) as (H1 & H2 & H3 & H4).
  repeat split; try tauto; lia.
Qed.

Lemma picker_values_in_range_witness :
  reachable runningCountdown
  ∧ heap runningCountdown !! 0%nat
    = Some (mkTimer 0 Down true (Some 1%nat) 2 2 false 0 0 2 false)
  ∧ 0 ≤ 2 ≤ 86399.
Proof.
  assert (Hr : reachable runningCountdown) by (eexists; reflexivity).
  split; [exact Hr|]. split; [reflexivity|].
  destruct (picker_values_in_range runningCountdown 0%nat
              (mkTimer 0 Down true (Some 1%nat) 2 2 false 0 0 2 false)
              Hr eq_refl) as (_ & _ & _ & _ & H).
  exact H.
Defined.

(** ** Running and polling go together *)

Lemma polling_ok_update i f w :
  field_write f → polling_ok w → polling_ok (update i f w).
Proof.
  intros Hf [Hs Hp]. apply field_write_keeps_poll in Hf.
  split; [by apply structure_ok_update|].
  intros j t'. rewrite update_eq. simpl. intros Hj.
  apply lookup_alter_heap in Hj as (t & Ht & [->|[_ ->]]).
  - exact (Hp j t Ht).
  - destruct (Hf t) as [-> ->]. exact (Hp j t Ht).
Qed.

Lemma polling_ok_stop i w : polling_ok w → polling_ok (stop i w).
Proof.
  intros [Hs Hp]. split; [by apply structure_ok_stop|].
  intros j t'. rewrite stop_eq. simpl. intros Hj.
  destruct (decide (i = j)) as [->|Hne].
  - rewrite lookup_alter_eq in Hj.
    destruct (heap w !! j) as [t|] eqn:Ht; [|done].
    injection Hj as <-. specialize (Hp j t Ht). unfold stopT.
    destruct (running t) eqn:Hr; [done|]. by rewrite Hr.
  - rewrite lookup_alter_ne in Hj by done.
    pose proof (Hp j t' Hj) as Hpj.
    destruct (running t') eqn:Hr; [|done].
    destruct Hpj as (k & c & Hid & Hk & Ho).
    exists k, c. split; [done|]. split; [|done].
    unfold stopIntervals. destruct (heap w !! i) as [t|] eqn:Ht; [|done].
    specialize (Hp i t Ht).
    destruct (running t); [|done].
    destruct Hp as (k0 & c0 & Hid0 & Hk0 & Ho0). rewrite Hid0.
    rewrite lookup_delete_ne; [done|]. intros ->. congruence.
Qed.

Lemma polling_ok_start i now w : polling_ok w → polling_ok (start i now w).
Proof.
  intros [Hs Hp]. split; [by apply structure_ok_start|].
  destruct (starts_or_not i w) as [(t & Ht & Hgo)|Hn];
    [|by rewrite start_noop].
  rewrite (start_go _ _ _ _ Ht Hgo). intros j t'. simpl. intros Hj.
  apply lookup_insert_Some in Hj as [[<- <-]|[Hne Hj]].
  - simpl. eexists _, _. split; [done|]. by rewrite lookup_insert_eq.
  - pose proof (Hp j t' Hj) as Hpj.
    destruct (running t'); [|done].
    destruct Hpj as (k & c & Hid & Hk & Ho).
    exists k, c. split; [done|]. split; [|done].
    destruct Hs as (_ & Hfresh & _). specialize (Hfresh k c Hk).
    rewrite lookup_insert_ne; [done|lia].
Qed.

Lemma polling_ok_pushTimer idx w :
  polling_ok w → polling_ok (pushTimer idx w).
Proof.
  intros [Hs Hp]. split; [by apply structure_ok_pushTimer|].
  intros j t'. simpl. intros Hj.
  apply lookup_insert_Some in Hj as [[<- <-]|[Hne Hj]]; [done|].
  exact (Hp j t' Hj).
Qed.

Lemma polling_ok_reachable w : reachable w → polling_ok w.
Proof.
  apply inv_reachable.
  - apply polling_ok_update.
  - by intros i c w' H.
  - apply polling_ok_stop.
  - apply polling_ok_start.
  - apply polling_ok_pushTimer.
  - by intros w' H.
  - split; [apply wf_initialWorld|]. by intros i t.
Qed.

(** In every reachable world a Timer is running exactly when a callback
    is registered for it, and then [intervalId] is that callback's id; a
    Timer that is not running holds [null]. So a running Timer is always
    being polled, and a stopped one never is. *)
Theorem running_iff_polled w i t :
  reachable w → heap w !! i = Some t →
  (running t = true ↔ ∃ k c, intervals w !! k = Some c ∧ owner c = i)
  ∧ (running t = true →
     ∃ k c, intervalId t = Some k ∧ intervals w !! k = Some c
            ∧ owner c = i)
  ∧ (running t = false → intervalId t = None).
Proof.
  intros Hw Ht. destruct (polling_ok_reachable w Hw) as [(Ho & _) Hp].
  specialize (Hp i t Ht). split; [split|split].
  - intros Hr. rewrite Hr in Hp. destruct Hp as (k & c & _ & Hk & Hc).
    eauto.
  - intros (k & c & Hk & Hc). destruct (Ho k c Hk) as (t' & Ht' & Hr & _).
    rewrite Hc in Ht'. congruence.
  - intros Hr. by rewrite Hr in Hp.
  - intros Hr. by rewrite Hr in Hp.
Qed.

Lemma running_iff_polled_witness :
  reachable runningCountdown
  ∧ heap runningCountdown !! 0%nat
    = Some (mkTimer 0 Down true (Some 1%nat) 2 2 false 0 0 2 false)
  ∧ (true = true ↔
     ∃ k c, intervals runningCountdown !! k = Some c ∧ owner c = 0%nat).
Proof.
  assert (Hr : reachable runningCountdown) by (eexists; reflexivity).
  split; [exact Hr|]. split; [reflexivity|].
  destruct (running_iff_polled runningCountdown 0%nat
              (mkTimer 0 Down true (Some 1%nat) 2 2 false 0 0 2 false)
              Hr eq_refl) as [H _].
  exact H.
Defined.

(** ** Picker arrows compose *)

Lemma rem_wrap d v m :
  d = 1 ∨ d = -1 → 0 ≤ v ≤ m →
  Z.rem (v + d + m + 1) (m + 1) = (v + d) mod (m + 1).
Proof.
  intros Hd Hv. rewrite Z.rem_mod_nonneg by lia.
  replace (v + d + m + 1) with (v + d + 1 * (m + 1)) by lia.
  apply Z.mod_add. lia.
Qed.

Lemma unitMax_nonneg u : 0 ≤ unitMax u.
Proof. destruct u; simpl; lia. Qed.

Lemma units_ok_getUnit u t : units_ok t → 0 ≤ getUnit u t ≤ unitMax u.
Proof. intros (H1 & H2 & H3 & _). by destruct u. Qed.

Lemma getUnit_adjustPicker_mod u d t :
  d = 1 ∨ d = -1 → 0 ≤ getUnit u t ≤ unitMax u →
  getUnit u (_adjustPicker u d t) = (getUnit u t + d) mod (unitMax u + 1).
Proof.
  intros Hd Hv. rewrite getUnit_adjustPicker. by apply rem_wrap.
Qed.

(** [_adjustPicker] touches only the unit it is given. *)
Lemma getUnit_adjustPicker_other u u' d t :
  u ≠ u' → getUnit u' (_adjustPicker u d t) = getUnit u' t.
Proof. by destruct u, u'. Qed.

Lemma config_of_units t t' :
  units_ok t → units_ok t' → mode t' = mode t →
  (∀ u, getUnit u t' = getUnit u t) → config t' = config t.
Proof.
  intros (_ & _ & _ & H) (_ & _ & _ & H') Hm Hu. unfold config.
  pose proof (Hu UnitH) as E1. pose proof (Hu UnitM) as E2.
  pose proof (Hu UnitS) as E3. simpl in E1, E2, E3.
  rewrite Hm, H, H', E1, E2, E3. done.
Qed.

Lemma adjustPicker_inverse u d t :
  d = 1 ∨ d = -1 → units_ok t →
  config (_adjustPicker u (- d) (_adjustPicker u d t)) = config t.
Proof.
  intros Hd Ht.
  assert (Hd' : - d = 1 ∨ - d = -1) by lia.
  assert (Hf : ∀ d0, d0 = 1 ∨ d0 = -1 → field_write (_adjustPicker u d0)).
  { intros d0 [->| ->]; constructor. }
  pose proof (units_ok_field_write _ t (Hf d Hd) Ht) as Ht1.
  pose proof (units_ok_field_write _ _ (Hf (- d) Hd') Ht1) as Ht2.
  apply config_of_units; [done|done|by destruct u|].
  intros u'. destruct (decide (u = u')) as [<-|Hne].
  - pose proof (units_ok_getUnit u t Ht) as Hv.
    pose proof (units_ok_getUnit u _ Ht1) as Hv1.
    pose proof (unitMax_nonneg u) as Hm.
    rewrite getUnit_adjustPicker_mod by done.
    rewrite getUnit_adjustPicker_mod by done.
    rewrite Zplus_mod_idemp_l.
    replace (getUnit u t + d + - d) with (getUnit u t) by lia.
    apply Z.mod_small. lia.
  - by rewrite !getUnit_adjustPicker_other.
Qed.

Lemma arrow_dir_cases (d : string) :
  (if String.eqb d "up" then 1 else -1) = 1
  ∨ (if String.eqb d "up" then 1 else -1) = -1.
Proof. case_match; auto. Qed.

(** On a Timer that is not running, a click on a unit's up arrow followed
    by a click on its down arrow (or the other way round) restores all
    settings: the three unit values, [targetSeconds] and [mode]. *)
Theorem arrow_up_down_restores w i t u :
  reachable w → heap w !! i = Some t → running t = false →
  config <$> heap (clickArrow i u "down" (clickArrow i u "up" w)) !! i
  = Some (config t)
  ∧ config <$> heap (clickArrow i u "up" (clickArrow i u "down" w)) !! i
    = Some (config t).
Proof.
  intros Hw Ht Hr.
  pose proof (heap_all_units_ok w Hw i t Ht) as Hu.
  split.
  - pose proof (clickArrow_idle w i t u "up" Ht Hr) as E1. simpl in E1.
    rewrite (clickArrow_idle _ i _ u "down" E1) by by destruct u.
    simpl. f_equal. by apply (adjustPicker_inverse u 1); [left|].
  - pose proof (clickArrow_idle w i t u "down" Ht Hr) as E1. simpl in E1.
    rewrite (clickArrow_idle _ i _ u "up" E1) by by destruct u.
    simpl. f_equal. by apply (adjustPicker_inverse u (-1)); [right|].
Qed.

Lemma arrow_up_down_restores_witness :
  let w := run initialWorld
             [EvShowTimerScreen "isgd"; EvClickArrow 0 UnitM "down"] in
  reachable w
  ∧ heap w !! 0%nat
    = Some (mkTimer 0 Down false None 3540 3540 false 0 59 0 false)
  ∧ config <$> heap (clickArrow 0 UnitM "down" (clickArrow 0 UnitM "up" w))
               !! 0%nat
    = Some (Down, 3540, 0, 59, 0).
Proof.
  intros w.
  assert (Hr : reachable w) by (eexists; reflexivity).
  split; [exact Hr|]. split; [reflexivity|].
  destruct (arrow_up_down_restores w 0%nat
              (mkTimer 0 Down false None 3540 3540 false 0 59 0 false) UnitM
              Hr eq_refl eq_refl) as [H _].
  exact H.
Defined.

Lemma clickArrows_S n i u d w :
  clickArrows (S n) i u d w = clickArrow i u d (clickArrows n i u d w).
Proof. done. Qed.

(** On a Timer that is not running, [n] clicks on a unit's up arrow leave
    the unit at [(v + n) mod (max + 1)] and [n] clicks on its down arrow
    at [(v - n) mod (max + 1)], so a full round of [max + 1] clicks (24
    for hours, 60 for minutes and seconds) returns to the value [v] it
    started from. *)
Theorem arrow_clicks_cycle w i t u d n :
  reachable w → heap w !! i = Some t → running t = false →
  let dir := if String.eqb d "up" then 1 else -1 in
  (∃ t', heap (clickArrows n i u d w) !! i = Some t'
     ∧ running t' = false
     ∧ getUnit u t' = (getUnit u t + dir * Z.of_nat n) mod (unitMax u + 1))
  ∧ (Z.of_nat n = unitMax u + 1 →
     getUnit u <$> heap (clickArrows n i u d w) !! i = Some (getUnit u t)).
Proof.
  intros Hw Ht Hr dir.
  pose proof (units_ok_getUnit u t (heap_all_units_ok w Hw i t Ht)) as Hv.
  pose proof (unitMax_nonneg u) as Hm.
  assert (H : ∃ t', heap (clickArrows n i u d w) !! i = Some t'
     ∧ running t' = false
     ∧ getUnit u t' = (getUnit u t + dir * Z.of_nat n) mod (unitMax u + 1)).
  { induction n as [|n IH].
    - exists t. split; [done|]. split; [done|].
      rewrite Z.mul_0_r, Z.add_0_r, Z.mod_small; lia.
    - destruct IH as (t1 & Ht1 & Hr1 & Hg1).
      rewrite clickArrows_S.
      eexists. split; [by apply clickArrow_idle|].
      split; [by destruct u|]. fold dir.
      assert (0 ≤ getUnit u t1 ≤ unitMax u).
      { rewrite Hg1.
        pose proof (Z.mod_pos_bound (getUnit u t + dir * Z.of_nat n)
                      (unitMax u + 1)). lia. }
      rewrite getUnit_adjustPicker_mod by (done || apply arrow_dir_cases).
      rewrite Hg1, Zplus_mod_idemp_l. f_equal. lia. }
  split; [exact H|]. intros Hn.
  destruct H as (t' & Ht' & _ & Hg). rewrite Ht'. simpl. f_equal.
  rewrite Hg, Hn, Z.mod_add by lia. apply Z.mod_small. lia.
Qed.

Lemma arrow_clicks_cycle_witness :
  let w := run initialWorld
             [EvShowTimerScreen "isgd"; EvClickArrow 0 UnitH "up"] in
  reachable w
  ∧ heap w !! 0%nat
    = Some (mkTimer 0 Down false None 3600 3600 false 1 0 0 false)
  ∧ Z.of_nat 24 = unitMax UnitH + 1
  ∧ getUnit UnitH <$> heap (clickArrows 24 0 UnitH "down" w) !! 0%nat
    = Some 1.
Proof.
  intros w.
  assert (Hr : reachable w) by (eexists; reflexivity).
  split; [exact Hr|]. split; [reflexivity|]. split; [reflexivity|].
  destruct (arrow_clicks_cycle w 0%nat
              (mkTimer 0 Down false None 3600 3600 false 1 0 0 false)
              UnitH "down" 24 Hr eq_refl eq_refl) as [_ H].
  exact (H eq_refl).
Defined.

(** ** Polls that do not expire *)

Lemma update_update_totalSeconds i v1 v2 w :
  update i (set_totalSeconds v2) (update i (set_totalSeconds v1) w)
  = update i (set_totalSeconds v2) w.
Proof.
  rewrite !update_eq. simpl. f_equal. apply map_eq. intros j.
  destruct (decide (i = j)) as [->|Hne].
  - rewrite !lookup_alter_eq. by destruct (heap w !! j).
  - by rewrite !lookup_alter_ne.
Qed.

(** The callback overwrites [totalSeconds]: what an earlier run stored
    there makes no difference to the next run. *)
Lemma tick_after_update k n w c t v :
  intervals w !! k = Some c → heap w !! owner c = Some t →
  tick k n (update (owner c) (set_totalSeconds v) w) = tick k n w.
Proof.
  intros Hk Ht.
  assert (Hk' : intervals (update (owner c) (set_totalSeconds v) w) !! k
                = Some c) by by rewrite update_eq.
  assert (Ht' : heap (update (owner c) (set_totalSeconds v) w) !! owner c
                = Some (set_totalSeconds v t)).
  { rewrite update_eq. simpl. by rewrite lookup_alter_eq, Ht. }
  unfold tick. rewrite Hk, Hk', Ht, Ht'. simpl.
  destruct (mode t); [case_match|]; by rewrite update_update_totalSeconds.
Qed.

Lemma tick_no_expiry k n w c t :
  intervals w !! k = Some c → heap w !! owner c = Some t →
  mode t = Up ∨ 0 < recompute Down c n →
  tick k n w
  = update (owner c) (set_totalSeconds (recompute (mode t) c n)) w.
Proof.
  intros Hk Ht Hm. destruct (mode t) eqn:E.
  - destruct Hm as [|Hp]; [done|]. by eapply tick_down_positive.
  - by eapply tick_up.
Qed.

Lemma polls_absorbed k c n ns : ∀ w t,
  intervals w !! k = Some c → heap w !! owner c = Some t →
  mode t = Up ∨ Forall (λ m, 0 < recompute Down c m) ns →
  runTicks w (map (pair k) (ns ++ [n])) = tick k n w.
Proof.
  induction ns as [|n1 ns IH]; intros w t Hk Ht Hm; [done|].
  simpl. rewrite runTicks_cons.
  assert (Hm1 : mode t = Up ∨ 0 < recompute Down c n1).
  { destruct Hm as [|Hf]; [by left|right]. by apply Forall_cons in Hf as []. }
  rewrite (tick_no_expiry _ _ _ _ _ Hk Ht Hm1).
  rewrite (IH _ (set_totalSeconds (recompute (mode t) c n1) t)).
  - by eapply tick_after_update.
  - by rewrite update_eq.
  - rewrite update_eq. simpl. by rewrite lookup_alter_eq, Ht.
  - destruct Hm as [|Hf]; [by left|right]. by apply Forall_cons in Hf as [].
Qed.

(** A stopwatch (CountUp) never stops or alarms by itself: after any
    number of runs of its callback, at any clock readings, the world is
    the one before them with [totalSeconds] set from the last reading
    alone; [running], the interval table, the [alarming] mark and the
    alarm are untouched, and skipped or late runs leave no trace. *)
Theorem stopwatch_polls_only_count w k c t ns n :
  intervals w !! k = Some c → heap w !! owner c = Some t → mode t = Up →
  runTicks w (map (pair k) (ns ++ [n]))
  = update (owner c)
      (set_totalSeconds (startSeconds c + (n - startTime c) / 1000)) w.
Proof.
  intros Hk Ht Hm.
  rewrite (polls_absorbed k c n ns w t Hk Ht (or_introl Hm)).
  by rewrite (tick_up _ _ _ _ _ Hk Ht Hm).
Qed.

Lemma stopwatch_polls_only_count_witness :
  intervals runningStopwatch !! 1%nat = Some (mkClosure 0 0 0)
  ∧ heap runningStopwatch !! 0%nat
    = Some (mkTimer 0 Up true (Some 1%nat) 0 0 false 0 0 0 false)
  ∧ runTicks runningStopwatch (map (pair 1%nat) ([250; 3100] ++ [5020]))
    = update 0 (set_totalSeconds (0 + (5020 - 0) / 1000)) runningStopwatch.
Proof.
  split; [reflexivity|]. split; [reflexivity|].
  exact (stopwatch_polls_only_count runningStopwatch 1%nat (mkClosure 0 0 0)
           (mkTimer 0 Up true (Some 1%nat) 0 0 false 0 0 0 false)
           [250; 3100] 5020 eq_refl eq_refl eq_refl).
Defined.

Lemma before_deadline c n :
  n < startTime c + 1000 * startSeconds c ↔ 0 < recompute Down c n.
Proof.
  unfold recompute. split.
  - intros H.
    assert ((n - startTime c) / 1000 < startSeconds c)
      by (apply Z.div_lt_upper_bound; lia).
    lia.
  - intros H. destruct (decide (n < startTime c + 1000 * startSeconds c));
      [done|].
    assert (startSeconds c ≤ (n - startTime c) / 1000)
      by (apply Z.div_le_lower_bound; lia).
    lia.
Qed.

(** Before its deadline ([startTime + 1000 * startSeconds]) a countdown
    does nothing but count: after any runs of its callback at clock
    readings before the deadline, the world is the one before them with
    [totalSeconds] set to [startSeconds - floor ((n - startTime) / 1000)],
    a positive value, from the last reading [n] alone. *)
Theorem countdown_polls_before_deadline w k c t ns n :
  intervals w !! k = Some c → heap w !! owner c = Some t → mode t = Down →
  Forall (λ m, m < startTime c + 1000 * startSeconds c) (ns ++ [n]) →
  runTicks w (map (pair k) (ns ++ [n]))
  = update (owner c)
      (set_totalSeconds (startSeconds c - (n - startTime c) / 1000)) w
  ∧ 0 < startSeconds c - (n - startTime c) / 1000.
Proof.
  intros Hk Ht Hm Hf. apply Forall_app in Hf as [Hns Hn].
  apply Forall_inv in Hn. apply before_deadline in Hn.
  assert (Hns' : Forall (λ m, 0 < recompute Down c m) ns).
  { eapply Forall_impl; [exact Hns|]. intros m. apply before_deadline. }
  rewrite (polls_absorbed k c n ns w t Hk Ht (or_intror Hns')).
  rewrite (tick_down_positive _ _ _ _ _ Hk Ht Hm Hn).
  unfold recompute in *. split; [|lia]. do 2 f_equal. lia.
Qed.

Lemma countdown_polls_before_deadline_witness :
  intervals runningCountdown !! 1%nat = Some (mkClosure 0 5000 2)
  ∧ heap runningCountdown !! 0%nat
    = Some (mkTimer 0 Down true (Some 1%nat) 2 2 false 0 0 2 false)
  ∧ Forall (λ m, m < 5000 + 1000 * 2) ([5250; 5500] ++ [6100])
  ∧ runTicks runningCountdown (map (pair 1%nat) ([5250; 5500] ++ [6100]))
    = update 0 (set_totalSeconds (2 - (6100 - 5000) / 1000)) runningCountdown.
Proof.
  assert (Hf : Forall (λ m, m < 5000 + 1000 * 2) ([5250; 5500] ++ [6100])).
  { repeat constructor; lia. }
  split; [reflexivity|]. split; [reflexivity|]. split; [exact Hf|].
  destruct (countdown_polls_before_deadline runningCountdown 1%nat
              (mkClosure 0 5000 2)
              (mkTimer 0 Down true (Some 1%nat) 2 2 false 0 0 2 false)
              [5250; 5500] 6100 eq_refl eq_refl eq_refl Hf) as [H _].
  exact H.
Defined.

(** A countdown expires exactly at the first run of its callback at or
    after the deadline: the run leaves the callback registered, and the
    Timer running, if and only if the clock reading is before
    [startTime + 1000 * startSeconds]. *)
Theorem countdown_expires_at_deadline w k c t now :
  reachable w →
  intervals w !! k = Some c → heap w !! owner c = Some t → mode t = Down →
  (is_Some (intervals (tick k now w) !! k)
   ↔ now < startTime c + 1000 * startSeconds c)
  ∧ (running <$> heap (tick k now w) !! owner c = Some true
     ↔ now < startTime c + 1000 * startSeconds c).
Proof.
  intros Hw Hk Ht Hm.
  apply wf_reachable in Hw as [(Ho & _) _].
  destruct (Ho k c Hk) as (t0 & Ht0 & Hr & Hid).
  assert (t0 = t) by congruence. subst t0.
  rewrite before_deadline.
  destruct (decide (0 < recompute Down c now)) as [Hp|Hz].
  - rewrite (tick_down_positive _ _ _ _ _ Hk Ht Hm Hp), update_eq. simpl.
    rewrite Hk, lookup_alter_eq, Ht. simpl. rewrite Hr.
    split; split; eauto.
  - assert (Hz' : recompute Down c now ≤ 0) by lia.
    rewrite (tick_down_zero_unregisters w k c t now Ho Hk Ht Hm Hz').
    rewrite (tick_down_zero _ _ _ _ _ Hk Ht Hm Hz').
    rewrite triggerAlarm_eq, update_eq. simpl.
    rewrite !lookup_alter_eq, Ht. simpl. unfold stopT. simpl. rewrite Hr.
    simpl. split; split; done.
Qed.

Lemma countdown_expires_at_deadline_witness :
  reachable runningCountdown
  ∧ intervals runningCountdown !! 1%nat = Some (mkClosure 0 5000 2)
  ∧ heap runningCountdown !! 0%nat
    = Some (mkTimer 0 Down true (Some 1%nat) 2 2 false 0 0 2 false)
  ∧ (is_Some (intervals (tick 1 6999 runningCountdown) !! 1%nat)
     ↔ 6999 < 5000 + 1000 * 2).
Proof.
  assert (Hr : reachable runningCountdown) by (eexists; reflexivity).
  split; [exact Hr|]. split; [reflexivity|]. split; [reflexivity|].
  destruct (countdown_expires_at_deadline runningCountdown 1%nat
              (mkClosure 0 5000 2)
              (mkTimer 0 Down true (Some 1%nat) 2 2 false 0 0 2 false)
              6999 Hr eq_refl eq_refl eq_refl) as [H _].
  exact H.
Defined.

(** ** [reset ()], [start ()] and [stop ()] compose *)

Lemma stopIntervals_stopAlarm i w :
  stopIntervals i (stopAlarm i w) = stopIntervals i w.
Proof.
  unfold stopIntervals. rewrite stopAlarm_eq. simpl.
  rewrite lookup_alter_eq. by destruct (heap w !! i).
Qed.

Lemma reset_lookup i w t :
  heap w !! i = Some t →
  heap (reset i w) !! i
  = Some (set_totalSeconds
            (match mode t with Down => targetSeconds t | Up => 0 end)
            (stopT (set_alarming false t))).
Proof.
  intros Ht.
  assert (Hs : heap (stop i (stopAlarm i w)) !! i
               = Some (stopT (set_alarming false t))).
  { rewrite stop_eq, stopAlarm_eq. simpl. by rewrite !lookup_alter_eq, Ht. }
  unfold reset. rewrite Hs.
  assert (Hm : mode (stopT (set_alarming false t)) = mode t
               ∧ targetSeconds (stopT (set_alarming false t))
                 = targetSeconds t).
  { unfold stopT. simpl. by destruct (running t). }
  destruct Hm as [-> ->].
  destruct (mode t); rewrite update_eq; simpl;
    by rewrite lookup_alter_eq, Hs.
Qed.

Lemma reset_intervals i w : intervals (reset i w) = stopIntervals i w.
Proof.
  unfold reset.
  destruct (heap (stop i (stopAlarm i w)) !! i) as [t|];
    [destruct (mode t); rewrite update_eq|];
    rewrite stop_eq; simpl; apply stopIntervals_stopAlarm.
Qed.

Lemma reset_alarm i w : alarm (reset i w) = AlarmSound.stop (alarm w).
Proof.
  unfold reset.
  destruct (heap (stop i (stopAlarm i w)) !! i) as [t|];
    [destruct (mode t); rewrite update_eq|];
    by rewrite stop_eq, stopAlarm_eq.
Qed.

(** [reset ()] is idempotent on the state: a second [reset ()] changes no
    Timer, does not touch the interval table and leaves the alarm as the
    first one left it. *)
Theorem reset_idempotent w i t :
  heap w !! i = Some t →
  heap (reset i (reset i w)) = heap (reset i w)
  ∧ intervals (reset i (reset i w)) = intervals (reset i w)
  ∧ alarm (reset i (reset i w)) = alarm (reset i w).
Proof.
  intros Ht. pose proof (reset_lookup i w t Ht) as H1.
  pose proof (reset_lookup i _ _ H1) as H2.
  split; [|split].
  - apply map_eq. intros j. destruct (decide (i = j)) as [<-|Hne].
    + rewrite H2, H1. f_equal. destruct t as [? md r ? ? ? ? ? ? ? ?].
      unfold stopT. simpl. destruct r, md; reflexivity.
    + by rewrite reset_heap_other.
  - rewrite (reset_intervals i (reset i w)). unfold stopIntervals.
    rewrite H1.
    set (v := match mode t with Down => targetSeconds t | Up => 0 end).
    assert (running (set_totalSeconds v (stopT (set_alarming false t)))
            = false) as ->; [|done].
    unfold stopT. simpl. destruct (running t) eqn:E; simpl; [done|exact E].
  - by rewrite !reset_alarm.
Qed.

Lemma reset_idempotent_witness :
  heap bothAlarming !! 0%nat
    = Some (mkTimer 0 Down false None 0 1 false 0 0 1 true)
  ∧ heap (reset 0 (reset 0 bothAlarming)) = heap (reset 0 bothAlarming).
Proof.
  split; [reflexivity|].
  destruct (reset_idempotent bothAlarming 0%nat
              (mkTimer 0 Down false None 0 1 false 0 0 1 true) eq_refl)
    as [H _].
  exact H.
Defined.

(** [start ()] followed at once by [stop ()] is a round trip: every Timer
    and the interval table are as before (only the id counter of
    [setInterval] has advanced), so in particular [totalSeconds] is not
    lost. *)
Theorem start_stop_round_trip w i t now :
  reachable w → heap w !! i = Some t → starts t = true →
  heap (stop i (start i now w)) = heap w
  ∧ intervals (stop i (start i now w)) = intervals w
  ∧ timers (stop i (start i now w)) = timers w.
Proof.
  intros Hw Ht Hs.
  destruct (polling_ok_reachable w Hw) as [(_ & Hfresh & _) Hp].
  pose proof (starts_not_running t Hs) as Hr.
  specialize (Hp i t Ht). rewrite Hr in Hp.
  rewrite (start_go _ _ _ _ Ht Hs), stop_eq. simpl.
  split; [|split; [|done]].
  - apply map_eq. intros j. destruct (decide (i = j)) as [<-|Hne].
    + rewrite lookup_alter_eq, lookup_insert_eq, Ht. simpl. f_equal.
      destruct t. simpl in *. by subst.
    + by rewrite lookup_alter_ne, lookup_insert_ne.
  - unfold stopIntervals. simpl. rewrite lookup_insert_eq. simpl.
    rewrite delete_insert_eq. apply delete_id.
    destruct (intervals w !! nextIntervalId w) as [c|] eqn:E; [|done].
    specialize (Hfresh _ _ E). lia.
Qed.

Lemma start_stop_round_trip_witness :
  reachable stoppedStopwatch
  ∧ heap stoppedStopwatch !! 0%nat
    = Some (mkTimer 0 Up false None 7 0 false 0 0 0 false)
  ∧ starts (mkTimer 0 Up false None 7 0 false 0 0 0 false) = true
  ∧ heap (stop 0 (start 0 9000 stoppedStopwatch)) = heap stoppedStopwatch.
Proof.
  assert (Hr : reachable stoppedStopwatch) by (eexists; reflexivity).
  split; [exact Hr|]. split; [reflexivity|]. split; [reflexivity|].
  destruct (start_stop_round_trip stoppedStopwatch 0%nat
              (mkTimer 0 Up false None 7 0 false 0 0 0 false) 9000
              Hr eq_refl eq_refl) as [H _].
  exact H.
Defined.

Lemma starts_after_reset t v :
  mode t = Down → 0 < v →
  starts (set_totalSeconds v (stopT (set_alarming false t))) = true.
Proof.
  intros Hm Hv. assert (E : (v <=? 0) = false) by by apply Z.leb_gt.
  destruct t as [? md r ? ? ? ? ? ? ? ?]. simpl in Hm. subst md.
  unfold starts, stopT. simpl. destruct r; simpl; by rewrite E.
Qed.

(** After a countdown has expired, [start ()] does nothing to any Timer
    or to the interval table, before and after the alarm is acknowledged:
    [totalSeconds] is 0 and the second guard returns. [reset ()] is the
    way out: it restores [targetSeconds], and if that is positive the next
    [start ()] registers a callback anchored at it. *)
Theorem expired_countdown_needs_reset w k c t now now' :
  intervals w !! k = Some c → heap w !! owner c = Some t →
  mode t = Down → recompute Down c now ≤ 0 →
  let i := owner c in
  let w' := tick k now w in
  (heap (start i now' w') = heap w'
   ∧ intervals (start i now' w') = intervals w')
  ∧ (heap (start i now' (stopAlarm i w')) = heap (stopAlarm i w')
     ∧ intervals (start i now' (stopAlarm i w')) = intervals w')
  ∧ (0 < targetSeconds t →
     intervals (start i now' (reset i w'))
       !! nextIntervalId (reset i w')
     = Some (mkClosure i now' (targetSeconds t))).
Proof.
  intros Hk Ht Hm Hz i w'.
  set (t' := set_alarming true
               (set_totalSeconds 0
                  (stopT (set_totalSeconds (recompute Down c now) t)))).
  assert (Ht' : heap w' !! i = Some t').
  { unfold w'. rewrite (tick_down_zero _ _ _ _ _ Hk Ht Hm Hz).
    rewrite triggerAlarm_eq, update_eq. simpl.
    by rewrite !lookup_alter_eq, Ht. }
  assert (Hm' : mode t' = Down ∧ totalSeconds t' = 0
                ∧ targetSeconds t' = targetSeconds t).
  { unfold t', stopT. simpl. by destruct (running t). }
  destruct Hm' as (Hm1 & Hm2 & Hm3).
  assert (Hno : ∀ t0, mode t0 = Down → totalSeconds t0 = 0 →
                      starts t0 = false).
  { intros t0 E1 E2. unfold starts.
    rewrite bool_decide_eq_true_2, E2 by done. simpl.
    by destruct (running t0). }
  split; [|split].
  - rewrite start_noop; [done|]. intros t0. rewrite Ht'.
    intros [= <-]. by apply Hno.
  - rewrite start_noop; [by rewrite stopAlarm_eq|]. intros t0.
    rewrite stopAlarm_eq. simpl. rewrite lookup_alter_eq, Ht'. simpl.
    intros [= <-]. by apply Hno.
  - intros Hpos. pose proof (reset_lookup i w' t' Ht') as Hr.
    rewrite Hm1, Hm3 in Hr.
    erewrite start_registers_closure; [|exact Hr|]; [done|].
    by apply starts_after_reset.
Qed.

Lemma expired_countdown_needs_reset_witness :
  intervals runningCountdown !! 1%nat = Some (mkClosure 0 5000 2)
  ∧ heap runningCountdown !! 0%nat
    = Some (mkTimer 0 Down true (Some 1%nat) 2 2 false 0 0 2 false)
  ∧ recompute Down (mkClosure 0 5000 2) 7000 ≤ 0
  ∧ heap (start 0 8000 (tick 1 7000 runningCountdown))
    = heap (tick 1 7000 runningCountdown)
  ∧ intervals (start 0 8000 (reset 0 (tick 1 7000 runningCountdown)))
      !! nextIntervalId (reset 0 (tick 1 7000 runningCountdown))
    = Some (mkClosure 0 8000 2).
Proof.
  assert (Hz : recompute Down (mkClosure 0 5000 2) 7000 ≤ 0)
    by (vm_compute; discriminate).
  split; [reflexivity|]. split; [reflexivity|]. split; [exact Hz|].
  destruct (expired_countdown_needs_reset runningCountdown 1%nat
              (mkClosure 0 5000 2)
              (mkTimer 0 Down true (Some 1%nat) 2 2 false 0 0 2 false)
              7000 8000 eq_refl eq_refl eq_refl Hz) as ([H1 _] & _ & H3).
  split; [exact H1|]. apply H3. simpl. lia.
Defined.

(** The recording button works at any time and touches nothing but the
    [recording] flag; two clicks cancel out, leaving the whole world as
    it was. *)
Theorem clickRec_involution w i t :
  heap w !! i = Some t →
  heap (clickRec i w) !! i = Some (set_recording (negb (recording t)) t)
  ∧ clickRec i (clickRec i w) = w.
Proof.
  intros Ht.
  assert (H1 : heap (clickRec i w) !! i
               = Some (set_recording (negb (recording t)) t)).
  { unfold clickRec. rewrite Ht, update_eq. simpl.
    by rewrite lookup_alter_eq, Ht. }
  split; [exact H1|].
  unfold clickRec at 1. rewrite H1. unfold clickRec. rewrite Ht.
  rewrite !update_eq. simpl. destruct w as [a cs h nr iv ni ts].
  simpl in *. f_equal. apply map_eq. intros j.
  destruct (decide (i = j)) as [<-|Hne].
  - rewrite !lookup_alter_eq, Ht. simpl. f_equal.
    destruct t. simpl. by rewrite negb_involutive.
  - by rewrite !lookup_alter_ne.
Qed.

Lemma clickRec_involution_witness :
  heap runningCountdown !! 0%nat
    = Some (mkTimer 0 Down true (Some 1%nat) 2 2 false 0 0 2 false)
  ∧ heap (clickRec 0 runningCountdown) !! 0%nat
    = Some (mkTimer 0 Down true (Some 1%nat) 2 2 true 0 0 2 false)
  ∧ clickRec 0 (clickRec 0 runningCountdown) = runningCountdown.
Proof.
  split; [reflexivity|].
  exact (clickRec_involution runningCountdown 0%nat
           (mkTimer 0 Down true (Some 1%nat) 2 2 false 0 0 2 false)
           eq_refl).
Defined.

(** ** The App Controller *)

Lemma destroy_intervals_sub r w k c :
  intervals (destroy r w) !! k = Some c → intervals w !! k = Some c.
Proof.
  unfold destroy. rewrite stop_eq. simpl. intros H.
  apply stopIntervals_sub in H. by rewrite stopAlarm_eq in H.
Qed.

Lemma destroys_intervals_sub l : ∀ w k c,
  intervals (foldl (λ w r, destroy r w) w l) !! k = Some c →
  intervals w !! k = Some c.
Proof.
  induction l as [|r l IH]; intros w k c H; simpl in *; [done|].
  apply IH in H. by apply destroy_intervals_sub in H.
Qed.

Lemma destroys_structure_ok l : ∀ w,
  structure_ok w → structure_ok (foldl (λ w r, destroy r w) w l).
Proof.
  induction l as [|r l IH]; intros w H; simpl; [done|].
  by apply IH, structure_ok_destroy.
Qed.

Lemma destroys_no_poll l : ∀ w r,
  structure_ok w → r ∈ l →
  no_poll r (foldl (λ w r, destroy r w) w l).
Proof.
  induction l as [|r0 l IH]; intros w r Hs Hr; simpl.
  - by apply elem_of_nil in Hr.
  - destruct (decide (r ∈ l)) as [Hin|Hnin].
    + apply IH; [by apply structure_ok_destroy|done].
    + apply elem_of_cons in Hr as [->|Hr]; [|done].
      intros k c Hk. apply destroys_intervals_sub in Hk.
      revert k c Hk. apply no_poll_stop.
      by apply (structure_ok_stopAlarm r0) in Hs as [Ho _].
Qed.

Lemma destroy_idle_kept r j w : idle r w → idle r (destroy j w).
Proof.
  intros H. destruct (decide (j = r)) as [->|Hne].
  - apply idle_stop.
  - intros t. rewrite destroy_heap_other by done. apply H.
Qed.

Lemma destroys_idle l : ∀ w r,
  r ∈ l → idle r (foldl (λ w r, destroy r w) w l).
Proof.
  induction l as [|r0 l IH]; intros w r Hr; simpl.
  - by apply elem_of_nil in Hr.
  - destruct (decide (r ∈ l)) as [Hin|Hnin]; [by apply IH|].
    apply elem_of_cons in Hr as [->|Hr]; [|done].
    assert (H0 : idle r0 (destroy r0 w)) by apply idle_stop.
    revert H0. generalize (destroy r0 w). clear. revert r0.
    induction l as [|r1 l IH]; intros r0 w H; simpl; [done|].
    by apply IH, destroy_idle_kept.
Qed.

Lemma destroys_silent l : ∀ w,
  l ≠ [] →
  AlarmSound.playing (alarm (foldl (λ w r, destroy r w) w l)) = false.
Proof.
  induction l as [|r l IH]; intros w Hl; [done|]. simpl.
  destruct l as [|r' l']; [|by apply IH].
  simpl. unfold destroy. by rewrite stop_eq, stopAlarm_eq.
Qed.

(** Leaving the timer screen leaks nothing: if every registered callback
    belongs to a Timer of the [timers] array (as is the case while events
    reach only the cards on screen), then after [showModeSelect ()] the
    interval table is empty, the array is empty, each Timer that was in
    the array is stopped, and the alarm is silent if there was a Timer to
    destroy. *)
Theorem showModeSelect_leaks_nothing w :
  reachable w → polls_listed w →
  intervals (showModeSelect w) = ∅
  ∧ timers (showModeSelect w) = []
  ∧ (∀ r, r ∈ timers w → idle r (showModeSelect w))
  ∧ (timers w ≠ [] → AlarmSound.playing (alarm (showModeSelect w)) = false).
Proof.
  intros Hw Hl. apply wf_reachable in Hw as [Hs _].
  unfold showModeSelect, destroyAll. simpl.
  split; [|split; [done|split]].
  - apply map_empty. intros k.
    destruct (intervals _ !! k) as [c|] eqn:Hk; [|done]. exfalso.
    pose proof (destroys_intervals_sub _ _ _ _ Hk) as Hk0.
    by apply (destroys_no_poll (timers w) w (owner c) Hs (Hl k c Hk0) k c).
  - intros r Hr. by apply destroys_idle.
  - apply destroys_silent.
Qed.

Lemma showModeSelect_leaks_nothing_witness :
  let w := run initialWorld
             [EvShowTimerScreen "ap";
              EvClickArrow 0 UnitS "up"; EvClickArrow 1 UnitM "up";
              EvStart 0 0; EvStart 1 0; EvTick 1 1000] in
  reachable w ∧ polls_listed w
  ∧ intervals w !! 2%nat = Some (mkClosure 1 0 60)
  ∧ AlarmSound.playing (alarm w) = true
  ∧ intervals (showModeSelect w) = ∅
  ∧ AlarmSound.playing (alarm (showModeSelect w)) = false.
Proof.
  intros w.
  assert (Hr : reachable w) by (eexists; reflexivity).
  assert (Hl : polls_listed w).
  { intros k c Hk.
    assert (E : intervals w = {[2%nat := mkClosure 1 0 60]})
      by reflexivity.
    rewrite E in Hk. apply lookup_singleton_Some in Hk as [_ <-].
    apply elem_of_cons. right. apply elem_of_cons. by left. }
  split; [exact Hr|]. split; [exact Hl|]. split; [reflexivity|].
  split; [reflexivity|].
  destruct (showModeSelect_leaks_nothing w Hr Hl) as (H1 & _ & _ & H4).
  split; [exact H1|]. apply H4. discriminate.
Defined.

Lemma pushTimers_spec n : ∀ a w,
  let w' := foldl (λ w idx, pushTimer idx w) w (seq a n) in
  timers w' = timers w ++ seq (nextRef w) n
  ∧ nextRef w' = (nextRef w + n)%nat
  ∧ intervals w' = intervals w ∧ alarm w' = alarm w
  ∧ ∀ j, (j < n)%nat →
      heap w' !! (nextRef w + j)%nat = Some (newTimer (a + j)).
Proof.
  induction n as [|n IH]; intros a w; simpl.
  - rewrite app_nil_r. repeat split; try lia; intros; lia.
  - destruct (IH (S a) (pushTimer a w)) as (H1 & H2 & H3 & H4 & H5).
    simpl in *. rewrite H1, H2, H3, H4, <- app_assoc. simpl.
    repeat split; try lia. intros [|j] Hj.
    + rewrite pushTimers_heap_old by (simpl; lia). simpl.
      rewrite Nat.add_0_r, Nat.add_0_r. apply lookup_insert_eq.
    + replace (nextRef w + S j)%nat with (S (nextRef w) + j)%nat by lia.
      replace (a + S j)%nat with (S a + j)%nat by lia.
      apply H5. lia.
Qed.

Lemma objectPrototypeKeys_elem key :
  existsb (String.eqb key) objectPrototypeKeys = true
  ↔ key ∈ objectPrototypeKeys.
Proof.
  rewrite existsb_exists. split.
  - intros (x & Hx & E). apply String.eqb_eq in E as ->.
    by apply list_elem_of_In.
  - intros H. exists key. split; [by apply list_elem_of_In|].
    apply String.eqb_refl.
Qed.

Lemma MODES_cases key :
  (MODES key = Some 1%nat ↔ key = "isgd")
  ∧ (MODES key = Some 2%nat ↔ key = "ap")
  ∧ (MODES key = Some 0%nat ↔ key ∈ objectPrototypeKeys)
  ∧ (MODES key = None
     ↔ key ≠ "isgd" ∧ key ≠ "ap" ∧ key ∉ objectPrototypeKeys)
  ∧ ∀ n, MODES key = Some n → (n ≤ 2)%nat.
Proof.
  assert (H1 : "isgd" ∉ objectPrototypeKeys)
    by (rewrite <- objectPrototypeKeys_elem; by vm_compute).
  assert (H2 : "ap" ∉ objectPrototypeKeys)
    by (rewrite <- objectPrototypeKeys_elem; by vm_compute).
  unfold MODES.
  destruct (String.eqb_spec key "isgd") as [->|N1];
    [|destruct (String.eqb_spec key "ap") as [->|N2];
      [|destruct (existsb (String.eqb key) objectPrototypeKeys) eqn:E;
        [apply objectPrototypeKeys_elem in E
        |assert (key ∉ objectPrototypeKeys)
           by (rewrite <- objectPrototypeKeys_elem; congruence)]]];
    repeat split; intros; try (intuition congruence);
    match goal with H : Some _ = Some _ |- _ => injection H as <-; lia end.
Qed.

(** [showTimerScreen (modeKey)] finds its configuration by the property
    lookup [MODES[modeKey]]. With "isgd" or "ap" it destroys the Timers
    of the array and fills it with 1 or 2 new ones at fresh references,
    each in the constructor's state (CountDown, not running, 00:00:00)
    and with its loop index; the Timers that existed keep their
    settings. With a key that names a property inherited from
    [Object.prototype] ("constructor", "toString", "__proto__", ...) the
    lookup is truthy as well: the guard does not return, every Timer of
    the array is destroyed and none is created, exactly as
    [showModeSelect ()] leaves the state. Only with a key that is neither
    does it change nothing. *)
Theorem showTimerScreen_fresh_timers key w :
  (∀ n, MODES key = Some n →
     (n ≤ 2)%nat
     ∧ timers (showTimerScreen key w) = seq (nextRef w) n
     ∧ (∀ j, (j < n)%nat →
          heap (showTimerScreen key w) !! (nextRef w + j)%nat
          = Some (newTimer j))
     ∧ (∀ j, (j < nextRef w)%nat →
          config <$> heap (showTimerScreen key w) !! j
          = config <$> heap w !! j))
  ∧ (MODES key = Some 1%nat ↔ key = "isgd")
  ∧ (MODES key = Some 2%nat ↔ key = "ap")
  ∧ (key ∈ objectPrototypeKeys →
     MODES key = Some 0%nat ∧ showTimerScreen key w = showModeSelect w)
  ∧ (key ≠ "isgd" → key ≠ "ap" → key ∉ objectPrototypeKeys →
     showTimerScreen key w = w).
Proof.
  destruct (MODES_cases key) as (C1 & C2 & C0 & CN & Cle).
  split; [|split; [done|split; [done|split]]].
  - intros n Hn. split; [by apply Cle|].
    pose proof (showTimerScreen_heap_old key w) as Hold.
    unfold showTimerScreen in *. rewrite Hn in *.
    destruct (pushTimers_spec n 0 (destroyAll w)) as (H1 & _ & _ & _ & H5).
    rewrite destroyAll_nextRef in *. split; [|split; [|done]].
    + rewrite H1. done.
    + intros j Hj. by rewrite H5.
  - intros Hk. apply C0 in Hk. split; [done|].
    unfold showTimerScreen. by rewrite Hk.
  - intros N1 N2 N3. unfold showTimerScreen.
    by rewrite (proj2 CN (conj N1 (conj N2 N3))).
Qed.

Lemma showTimerScreen_fresh_timers_witness :
  MODES "ap" = Some 2%nat
  ∧ timers (showTimerScreen "ap" runningCountdown) = [1%nat; 2%nat]
  ∧ heap (showTimerScreen "ap" runningCountdown) !! 2%nat
    = Some (newTimer 1)
  ∧ "constructor" ∈ objectPrototypeKeys
  ∧ showTimerScreen "constructor" runningCountdown
    = showModeSelect runningCountdown
  ∧ timers (showModeSelect runningCountdown) = []
  ∧ intervals (showModeSelect runningCountdown) = ∅
  ∧ showTimerScreen "triple" runningCountdown = runningCountdown.
Proof.
  assert (Hc : "constructor" ∈ objectPrototypeKeys)
    by (apply elem_of_cons; by left).
  destruct (showTimerScreen_fresh_timers "ap" runningCountdown) as [H _].
  destruct (H 2%nat eq_refl) as (_ & H1 & H2 & _).
  destruct (showTimerScreen_fresh_timers "constructor" runningCountdown)
    as (_ & _ & _ & H3 & _).
  destruct (showTimerScreen_fresh_timers "triple" runningCountdown)
    as (_ & _ & _ & _ & H4).
  split; [reflexivity|]. split; [exact H1|].
  split; [exact (H2 1%nat ltac:(lia))|]. split; [exact Hc|].
  split; [exact (proj2 (H3 Hc))|]. split; [reflexivity|].
  split; [reflexivity|].
  apply H4; [discriminate|discriminate|].
  rewrite <- objectPrototypeKeys_elem. by vm_compute.
Defined.

(** ** What the display shows *)

Lemma mod_60_of_mod_3600 t : t mod 60 = (t mod 3600) mod 60.
Proof.
  rewrite (Z.div_mod t 3600) at 1 by lia.
  replace (3600 * (t / 3600) + t mod 3600)
    with (t mod 3600 + 60 * (t / 3600) * 60) by lia.
  apply Z.mod_add. lia.
Qed.

Lemma displayHMS_nonneg t :
  0 ≤ t → displayHMS t = (t / 3600, (t mod 3600) / 60, t mod 60).
Proof. intros Ht. unfold displayHMS. by rewrite !Z.rem_mod_nonneg by lia. Qed.

(** For [totalSeconds = t >= 0] the three numbers that [_updateDisplay ()]
    renders lose nothing: [h * 3600 + m * 60 + s = t], with minutes and
    seconds in 0..59; the hours are at most 23 when [t] is at most 86399
    (every [targetSeconds]) and take two digits as long as [t] is below
    360000. *)
Theorem displayHMS_decomposes t :
  0 ≤ t →
  let '(h, m, s) := displayHMS t in
  h * 3600 + m * 60 + s = t
  ∧ 0 ≤ h ∧ 0 ≤ m ≤ 59 ∧ 0 ≤ s ≤ 59
  ∧ (t ≤ 86399 → h ≤ 23) ∧ (t < 360000 → h ≤ 99).
Proof.
  intros Ht. rewrite displayHMS_nonneg by done.
  pose proof (Z.div_mod t 3600 ltac:(lia)) as E1.
  pose proof (Z.mod_pos_bound t 3600 ltac:(lia)) as B1.
  pose proof (Z.div_mod (t mod 3600) 60 ltac:(lia)) as E2.
  pose proof (Z.mod_pos_bound (t mod 3600) 60 ltac:(lia)) as B2.
  pose proof (Z.mod_pos_bound t 60 ltac:(lia)) as B3.
  pose proof (mod_60_of_mod_3600 t) as E4.
  lia.
Qed.

Lemma displayHMS_decomposes_witness :
  0 ≤ 3725
  ∧ displayHMS 3725 = (1, 2, 5)
  ∧ 1 * 3600 + 2 * 60 + 5 = 3725.
Proof.
  split; [lia|]. split; [reflexivity|].
  pose proof (displayHMS_decomposes 3725 ltac:(lia)) as H.
  simpl in H. destruct H as [H _]. exact H.
Defined.

(** ** The display text *)

Lemma padStart2_digits n :
  0 ≤ n ≤ 99 →
  padStart 2 zeroChar (pretty n)
  = String (pretty_N_char (Z.to_N (n / 10)))
      (String (pretty_N_char (Z.to_N (n mod 10))) EmptyString).
Proof.
  intros Hn.
  assert (E : n = Z.of_nat (Z.to_nat n)) by lia.
  assert (Hk : (Z.to_nat n < 100)%nat) by lia.
  revert E Hk. generalize (Z.to_nat n). intros k -> Hk. clear Hn.
  do 100 (destruct k as [|k]; [vm_compute; reflexivity|]).
  lia.
Qed.

Lemma two_digits_inj a b :
  0 ≤ a ≤ 99 → 0 ≤ b ≤ 99 →
  padStart 2 zeroChar (pretty a) = padStart 2 zeroChar (pretty b) → a = b.
Proof.
  intros Ha Hb. rewrite !padStart2_digits by done. intros [= H1 H2].
  pose proof (Z.div_mod a 10 ltac:(lia)) as Ea.
  pose proof (Z.div_mod b 10 ltac:(lia)) as Eb.
  pose proof (Z.mod_pos_bound a 10 ltac:(lia)).
  pose proof (Z.mod_pos_bound b 10 ltac:(lia)).
  assert (0 ≤ a / 10 < 10)
    by (split; [apply Z.div_pos|apply Z.div_lt_upper_bound]; lia).
  assert (0 ≤ b / 10 < 10)
    by (split; [apply Z.div_pos|apply Z.div_lt_upper_bound]; lia).
  apply pretty_N_char_inj in H1; [|lia..].
  apply pretty_N_char_inj in H2; [|lia..].
  lia.
Qed.

Lemma hms_two_digits t :
  0 ≤ t < 360000 →
  0 ≤ t / 3600 ≤ 99 ∧ 0 ≤ t mod 3600 / 60 ≤ 99 ∧ 0 ≤ t mod 60 ≤ 99
  ∧ t / 3600 * 3600 + t mod 3600 / 60 * 60 + t mod 60 = t.
Proof.
  intros Ht.
  pose proof (Z.div_mod t 3600 ltac:(lia)).
  pose proof (Z.mod_pos_bound t 3600 ltac:(lia)).
  pose proof (Z.div_mod (t mod 3600) 60 ltac:(lia)).
  pose proof (Z.mod_pos_bound (t mod 3600) 60 ltac:(lia)).
  pose proof (Z.mod_pos_bound t 60 ltac:(lia)).
  pose proof (mod_60_of_mod_3600 t).
  lia.
Qed.

(** For [0 <= totalSeconds < 360000] (under 100 hours) the display text
    has exactly 8 characters, two digits each for hours, minutes and
    seconds with colons between, and it identifies the value: two
    different values in that range never show the same text. *)
Theorem displayText_fixed_width_injective t t' :
  0 ≤ t < 360000 → 0 ≤ t' < 360000 →
  String.length (displayText t) = 8%nat
  ∧ (displayText t = displayText t' → t = t').
Proof.
  intros Ht Ht'.
  pose proof (hms_two_digits t Ht) as (Hh & Hm & Hs & E).
  pose proof (hms_two_digits t' Ht') as (Hh' & Hm' & Hs' & E').
  unfold displayText. rewrite !displayHMS_nonneg by lia.
  rewrite !padStart2_digits by done.
  split; [reflexivity|].
  simpl. intros [= A1 A2 B1 B2 C1 C2].
  assert (Eh : t / 3600 = t' / 3600).
  { apply two_digits_inj; [done|done|].
    rewrite !padStart2_digits by done. by rewrite A1, A2. }
  assert (Em : t mod 3600 / 60 = t' mod 3600 / 60).
  { apply two_digits_inj; [done|done|].
    rewrite !padStart2_digits by done. by rewrite B1, B2. }
  assert (Es : t mod 60 = t' mod 60).
  { apply two_digits_inj; [done|done|].
    rewrite !padStart2_digits by done. by rewrite C1, C2. }
  lia.
Qed.

Lemma displayText_fixed_width_injective_witness :
  0 ≤ 3725 < 360000 ∧ 0 ≤ 86399 < 360000
  ∧ displayText 3725 = "01:02:05" ∧ displayText 86399 = "23:59:59"
  ∧ String.length (displayText 3725) = 8%nat.
Proof.
  split; [lia|]. split; [lia|]. split; [reflexivity|]. split; [reflexivity|].
  destruct (displayText_fixed_width_injective 3725 86399 ltac:(lia)
              ltac:(lia)) as [H _].
  exact H.
Defined.

(** ** A countdown stays within its duration *)

Lemma reachable_step w e : reachable w → reachable (step w e).
Proof.
  intros [evs ->]. exists (evs ++ [e]). unfold run. by rewrite foldl_app.
Qed.

Lemma shown_lookup (h h' : gmap nat Timer) j t' :
  shown <$> h' !! j = shown <$> h !! j → h' !! j = Some t' →
  ∃ t, h !! j = Some t ∧ shown t' = shown t.
Proof.
  intros E Ht'. rewrite Ht' in E.
  destruct (h !! j) as [t|]; simpl in E; [|done].
  exists t. split; [done|]. congruence.
Qed.

Lemma in_target_shown t t' : shown t' = shown t → in_target t → in_target t'.
Proof. unfold in_target. intros [= -> -> ->]. done. Qed.

(** Steps that change neither [mode], [totalSeconds] nor [targetSeconds]
    of any Timer and register no callback. *)
Lemma within_target_keep w w' :
  (∀ j, shown <$> heap w' !! j = shown <$> heap w !! j) →
  (∀ k c, intervals w' !! k = Some c → intervals w !! k = Some c) →
  within_target w → within_target w'.
Proof.
  intros Hh Hi [B1 B2]. split.
  - intros j t' Ht'.
    destruct (shown_lookup _ _ _ _ (Hh j) Ht') as (t & Ht & E).
    eapply in_target_shown; eauto.
  - intros k c t' Hk Ht'.
    destruct (shown_lookup _ _ _ _ (Hh (owner c)) Ht') as (t & Ht & E).
    injection E as -> _ ->. eauto.
Qed.

(** Steps that leave one Timer, which has no callback, at its target. *)
Lemma within_target_retarget i w w' :
  (∀ j, j ≠ i → heap w' !! j = heap w !! j) →
  (∀ t', heap w' !! i = Some t' → mode t' = Down →
         totalSeconds t' = targetSeconds t' ∧ 0 ≤ targetSeconds t') →
  (∀ k c, intervals w' !! k = Some c →
          intervals w !! k = Some c ∧ owner c ≠ i) →
  within_target w → within_target w'.
Proof.
  intros Hh Hi Hk [B1 B2]. split.
  - intros j t' Ht'. destruct (decide (j = i)) as [->|Hne].
    + intros Hm. destruct (Hi t' Ht' Hm). lia.
    + rewrite Hh in Ht' by done. eauto.
  - intros k c t' Hc Ht'. destruct (Hk k c Hc) as [Hc0 Hne].
    rewrite Hh in Ht' by done. eauto.
Qed.

Lemma shown_stopT t : shown (stopT t) = shown t.
Proof. unfold stopT. by destruct (running t). Qed.

Lemma within_target_stop i w : within_target w → within_target (stop i w).
Proof.
  apply within_target_keep.
  - intros j. rewrite stop_eq. simpl. destruct (decide (i = j)) as [->|Hne].
    + rewrite lookup_alter_eq. destruct (heap w !! j); [|done]. simpl.
      by rewrite shown_stopT.
    + by rewrite lookup_alter_ne.
  - intros k c. rewrite stop_eq. simpl. apply stopIntervals_sub.
Qed.

Lemma within_target_stopAlarm i w :
  within_target w → within_target (stopAlarm i w).
Proof.
  apply within_target_keep.
  - intros j. rewrite stopAlarm_eq. simpl.
    destruct (decide (i = j)) as [->|Hne].
    + rewrite lookup_alter_eq. by destruct (heap w !! j).
    + by rewrite lookup_alter_ne.
  - intros k c. by rewrite stopAlarm_eq.
Qed.

Lemma within_target_destroy i w :
  within_target w → within_target (destroy i w).
Proof. intros H. by apply within_target_stop, within_target_stopAlarm. Qed.

Lemma within_target_destroyAll w :
  within_target w → within_target (destroyAll w).
Proof.
  intros H. unfold destroyAll.
  assert (H' : within_target (foldl (λ w r, destroy r w) w (timers w))).
  { generalize (timers w). intros l. revert w H.
    induction l as [|r l IH]; intros w H; simpl; [done|].
    by apply IH, within_target_destroy. }
  exact H'.
Qed.

Lemma within_target_pushTimer idx w :
  structure_ok w → within_target w → within_target (pushTimer idx w).
Proof.
  intros (Ho & _ & Hf) [B1 B2]. split; simpl.
  - intros j t' Hj. apply lookup_insert_Some in Hj as [[<- <-]|[Hne Hj]].
    + intros _. simpl. lia.
    + eauto.
  - intros k c t' Hk Ht'.
    destruct (Ho k c Hk) as (t & Ht & _). specialize (Hf _ _ Ht).
    rewrite lookup_insert_ne in Ht' by lia. eauto.
Qed.

Lemma within_target_showTimerScreen key w :
  structure_ok w → within_target w → within_target (showTimerScreen key w).
Proof.
  intros Hs H. unfold showTimerScreen. destruct (MODES key) as [n|]; [|done].
  apply within_target_destroyAll in H. apply structure_ok_destroyAll in Hs.
  revert Hs H. generalize (destroyAll w) (seq 0 n). intros w' l. revert w'.
  induction l as [|x l IH]; intros w' Hs H; simpl; [done|].
  apply IH; [by apply structure_ok_pushTimer|by apply within_target_pushTimer].
Qed.

Lemma within_target_start i now w :
  within_target w → within_target (start i now w).
Proof.
  intros [B1 B2]. destruct (starts_or_not i w) as [(t & Ht & Hs)|Hn];
    [|by rewrite start_noop].
  rewrite (start_go _ _ _ _ Ht Hs).
  assert (Hh : ∀ j t', <[i:=set_intervalId (Some (nextIntervalId w))
                              (set_running true t)]> (heap w) !! j = Some t' →
                 ∃ t0, heap w !! j = Some t0 ∧ shown t' = shown t0).
  { intros j t' Hj. apply lookup_insert_Some in Hj as [[<- <-]|[Hne Hj]];
      eauto. }
  split; simpl.
  - intros j t' Hj. destruct (Hh j t' Hj) as (t0 & Ht0 & E).
    eapply in_target_shown; eauto.
  - intros k c t' Hk Ht'. destruct (Hh _ t' Ht') as (t0 & Ht0 & E).
    injection E as -> _ ->.
    apply lookup_insert_Some in Hk as [[<- <-]|[Hne Hk]]; [|by eauto].
    simpl in *. intros Hm. assert (t0 = t) by congruence. subst t0.
    destruct (B1 i t Ht Hm). lia.
Qed.

(** Steps in which one Timer counts: its [mode] and [targetSeconds] stay
    and, in CountDown mode, the new value is between 0 and the target. *)
Lemma within_target_count i t w w' :
  heap w !! i = Some t →
  (∀ j, j ≠ i → heap w' !! j = heap w !! j) →
  (∀ t', heap w' !! i = Some t' →
         mode t' = mode t ∧ targetSeconds t' = targetSeconds t
         ∧ (mode t = Down → 0 ≤ totalSeconds t' ≤ targetSeconds t)) →
  (∀ k c, intervals w' !! k = Some c → intervals w !! k = Some c) →
  within_target w → within_target w'.
Proof.
  intros Ht Hh Hi Hk [B1 B2]. split.
  - intros j t' Ht'. destruct (decide (j = i)) as [->|Hne].
    + destruct (Hi t' Ht') as (Em & Et & Hv). unfold in_target.
      rewrite Em, Et. done.
    + rewrite Hh in Ht' by done. eauto.
  - intros k c t' Hc Ht'. apply Hk in Hc.
    destruct (decide (owner c = i)) as [Ho|Hne].
    + rewrite Ho in Ht'. destruct (Hi t' Ht') as (-> & -> & _).
      apply (B2 k c t Hc). by rewrite Ho.
    + rewrite Hh in Ht' by done. eauto.
Qed.

Lemma reset_lookup_none i w :
  heap w !! i = None → heap (reset i w) !! i = None.
Proof.
  intros H.
  assert (Hs : heap (stop i (stopAlarm i w)) !! i = None).
  { rewrite stop_eq, stopAlarm_eq. simpl. by rewrite !lookup_alter_eq, H. }
  unfold reset. by rewrite Hs.
Qed.

Lemma reset_retargets i w :
  intervals_owned w → heap_all units_ok w →
  (∀ t', heap (reset i w) !! i = Some t' → mode t' = Down →
         totalSeconds t' = targetSeconds t' ∧ 0 ≤ targetSeconds t')
  ∧ (∀ k c, intervals (reset i w) !! k = Some c →
            intervals w !! k = Some c ∧ owner c ≠ i).
Proof.
  intros Ho Hu. split.
  - intros t'. destruct (heap w !! i) as [t|] eqn:Ht.
    + rewrite (reset_lookup i w t Ht). intros [= <-]. simpl.
      rewrite mode_stopT. simpl.
      assert (targetSeconds (stopT (set_alarming false t)) = targetSeconds t)
        as -> by (unfold stopT; simpl; by destruct (running t)).
      destruct (Hu i t Ht) as (? & ? & ? & ?). intros ->. lia.
    + by rewrite reset_lookup_none.
  - intros k c. rewrite reset_intervals. intros Hk. split.
    + by apply stopIntervals_sub in Hk.
    + by eapply stopIntervals_not_owner.
Qed.

Lemma within_target_step w e :
  reachable w → clock_ok w e = true →
  within_target w → within_target (step w e).
Proof.
  intros Hw Hc H.
  pose proof (wf_reachable w Hw) as [Hs _].
  pose proof Hs as (Ho & _).
  pose proof (heap_all_units_ok w Hw) as Hu.
  destruct e; simpl.
  - by apply within_target_showTimerScreen.
  - by apply within_target_destroyAll.
  - unfold clickToggle. destruct (heap w !! i) as [t|] eqn:Ht; [|done].
    destruct (running t) eqn:Hr; [done|].
    destruct (reset_retargets i (update i (set_mode md) w)) as [R1 R2].
    { apply structure_ok_update; auto with timer. }
    { intros j t'. rewrite update_eq. simpl. intros Hj.
      apply lookup_alter_heap in Hj as (t0 & Ht0 & [->|[_ ->]]);
        [by eauto|].
      apply units_ok_field_write; [constructor|by eauto]. }
    apply (within_target_retarget i w); [|done| |done].
    + intros j Hne. by rewrite reset_heap_other, update_heap_other.
    + intros k c Hk. destruct (R2 k c Hk) as [Hk' Hne].
      by rewrite update_eq in Hk'.
  - unfold clickArrow. destruct (heap w !! i) as [t|] eqn:Ht; [|done].
    destruct (running t) eqn:Hr; [done|].
    apply (within_target_retarget i w); [| | |done].
    + intros j Hne. by rewrite update_heap_other.
    + intros t'. rewrite update_eq. simpl. rewrite lookup_alter_eq, Ht.
      simpl. intros [= <-] _.
      set (d := if String.eqb dataDir "up" then 1 else -1).
      destruct (adjustPicker_target u d t) as (_ & E & _). split; [done|].
      assert (Hf : field_write (_adjustPicker u d))
        by (unfold d; case_match; constructor).
      destruct (units_ok_field_write _ t Hf (Hu i t Ht)) as (? & ? & ? & ?).
      lia.
    + intros k c. rewrite update_eq. simpl. intros Hk. split; [done|].
      destruct (Ho k c Hk) as (t0 & Ht0 & Hr0 & _). intros E.
      rewrite E in Ht0. congruence.
  - unfold clickRec. destruct (heap w !! i) as [t|] eqn:Ht; [|done].
    revert H. apply within_target_keep.
    + intros j. rewrite update_eq. simpl.
      destruct (decide (i = j)) as [->|Hne].
      * rewrite lookup_alter_eq. by destruct (heap w !! j).
      * by rewrite lookup_alter_ne.
    + intros k c. by rewrite update_eq.
  - by apply within_target_start.
  - by apply within_target_stop.
  - destruct (reset_retargets i w Ho Hu) as [R1 R2].
    apply (within_target_retarget i w); [|done|done|done].
    intros j Hne. by apply reset_heap_other.
  - unfold clickCard. destruct (heap w !! i) as [t|]; [|done].
    destruct (alarming t); [|done]. by apply within_target_stopAlarm.
  - by apply within_target_stopAlarm.
  - by apply within_target_destroy.
  - simpl in Hc. destruct (intervals w !! k) as [c|] eqn:Hk;
      [|by rewrite tick_unregistered].
    apply Z.leb_le in Hc.
    assert (He : 0 ≤ (now - startTime c) / 1000) by (apply Z.div_pos; lia).
    destruct (heap w !! owner c) as [t|] eqn:Ht;
      [|unfold tick; by rewrite Hk, Ht].
    apply (within_target_count (owner c) t w); [done| | |by eauto using
      tick_intervals_sub|done].
    + intros j Hne. by eapply tick_heap_other.
    + intros t' Ht'.
      pose proof (proj_tick (λ x, (mode x, targetSeconds x))
                    ltac:(done) ltac:(done) ltac:(done) ltac:(done)
                    k now (owner c) w) as Hp.
      rewrite Ht', Ht in Hp. simpl in Hp.
      split; [congruence|]. split; [congruence|]. intros Hm.
      pose proof (tick_total k now w c t Hk Ht) as Htot.
      rewrite Ht', Hm in Htot. injection Htot as ->.
      destruct H as [B1 B2]. specialize (B2 k c t Hk Ht Hm).
      pose proof (B1 _ t Ht Hm). unfold recompute. lia.
Qed.

Lemma within_target_run evs : ∀ w,
  reachable w → admissible w evs = true →
  within_target w → within_target (run w evs).
Proof.
  induction evs as [|e evs IH]; intros w Hw Ha H; simpl; [done|].
  simpl in Ha. apply andb_true_iff in Ha as [Hc Ha].
  apply IH; [by apply reachable_step|done|by apply within_target_step].
Qed.

(** As long as callbacks run at clock readings not earlier than the one
    their [start ()] captured, a Timer in CountDown mode always holds a
    value between 0 and its [targetSeconds] (itself at most 86399): the
    display never shows more than the configured duration. *)
Theorem countdown_within_target evs i t :
  admissible initialWorld evs = true →
  heap (run initialWorld evs) !! i = Some t → mode t = Down →
  0 ≤ totalSeconds t ≤ targetSeconds t ∧ targetSeconds t ≤ 86399.
Proof.
  intros Ha Ht Hm.
  assert (Hr : reachable (run initialWorld evs)) by by eexists.
  destruct (within_target_run evs initialWorld) as [B1 _];
    [by exists []|done|by split|].
  split; [by apply (B1 i t Ht)|].
  destruct (heap_all_units_ok _ Hr i t Ht) as (? & ? & ? & ?). lia.
Qed.

Lemma countdown_within_target_witness :
  let evs :=
    [EvShowTimerScreen "isgd"; EvClickArrow 0 UnitM "up"; EvStart 0 5000;
     EvTick 1 5250; EvTick 1 27400] in
  admissible initialWorld evs = true
  ∧ heap (run initialWorld evs) !! 0%nat
    = Some (mkTimer 0 Down true (Some 1%nat) 38 60 false 0 1 0 false)
  ∧ 0 ≤ 38 ≤ 60.
Proof.
  intros evs. split; [reflexivity|]. split; [reflexivity|].
  destruct (countdown_within_target evs 0%nat
              (mkTimer 0 Down true (Some 1%nat) 38 60 false 0 1 0 false)
              eq_refl eq_refl eq_refl) as [H _].
  exact H.
Defined.

(** ** The service worker *)

Lemma sw_deletes_elem ks :
  ∀ (cs : list (string * gmap string ServiceWorker.Response)) p,
  p ∈ foldl (λ cs k, ServiceWorker.delete k cs) cs ks ↔ p ∈ cs ∧ p.1 ∉ ks.
Proof.
  induction ks as [|k ks IH]; intros cs p; simpl.
  - split; [intros H; split; [done|apply not_elem_of_nil]|tauto].
  - rewrite IH. unfold ServiceWorker.delete.
    rewrite list_elem_of_filter, not_elem_of_cons. tauto.
Qed.

(** After [activate] exactly the caches named [CACHE_NAME] are left,
    with their contents: every cache of another version is deleted and
    the current one is not touched. *)
Theorem sw_activate_keeps_current cs n c :
  (n, c) ∈ ServiceWorker.activate cs
  ↔ n = ServiceWorker.CACHE_NAME ∧ (n, c) ∈ cs.
Proof.
  unfold ServiceWorker.activate. rewrite sw_deletes_elem. simpl.
  rewrite list_elem_of_filter. unfold ServiceWorker.keys. split.
  - intros [Hin Hn]. split; [|done].
    destruct (decide (n = ServiceWorker.CACHE_NAME)) as [|Hne]; [done|].
    exfalso. apply Hn. split; [done|].
    apply list_elem_of_fmap. by exists (n, c).
  - intros [-> Hin]. split; [done|]. by intros [? _].
Qed.

Lemma sw_open_keys name cs : name ∈ ServiceWorker.keys (ServiceWorker.open name cs).
Proof.
  unfold ServiceWorker.open. case_decide; [done|].
  unfold ServiceWorker.keys. rewrite fmap_app. apply elem_of_app. right.
  simpl. apply elem_of_cons. by left.
Qed.

Lemma sw_open_elem name cs n c :
  (n, c) ∈ ServiceWorker.open name cs → (n, c) ∈ cs ∨ (n = name ∧ c = ∅).
Proof.
  unfold ServiceWorker.open. case_decide; [by left|].
  rewrite elem_of_app, list_elem_of_singleton. intros [?|[= -> ->]]; auto.
Qed.

Lemma sw_match_put name url r : ∀ cs,
  name ∈ ServiceWorker.keys cs →
  (∀ n c, (n, c) ∈ cs → n ≠ name → c !! url = None) →
  ServiceWorker.cachesMatch url (ServiceWorker.put name url r cs) = Some r.
Proof.
  induction cs as [|[n c] cs IH]; intros Hin Hother.
  - by apply elem_of_nil in Hin.
  - simpl. case_decide as Hn; simpl.
    + by rewrite lookup_insert_eq.
    + rewrite (Hother n c); [|by apply elem_of_cons; left|done].
      apply IH.
      * unfold ServiceWorker.keys in Hin. simpl in Hin.
        apply elem_of_cons in Hin as [->|Hin]; [done|done].
      * intros n' c' Hin'. apply Hother. apply elem_of_cons. by right.
Qed.

(** Network first, then cache. When the network answers, the page gets
    that response and it is stored; a later request for the same URL
    while offline is then answered with it, provided no cache of another
    name holds the URL (so in particular after [activate]). When the
    network fails the Cache Storage is left as it is, and a URL that no
    cache holds gets no response. *)
Theorem sw_fetch_round_trip cs url r :
  (∀ n c, (n, c) ∈ cs → n ≠ ServiceWorker.CACHE_NAME → c !! url = None) →
  let online := ServiceWorker.fetchHandler (Some r) url cs in
  online.1 = Some r
  ∧ ServiceWorker.fetchHandler None url online.2 = (Some r, online.2)
  ∧ (ServiceWorker.cachesMatch url cs = None →
     ServiceWorker.fetchHandler None url cs = (None, cs)).
Proof.
  intros Hother. simpl. split; [done|]. split.
  - f_equal. apply sw_match_put; [apply sw_open_keys|].
    intros n c Hin Hne. apply sw_open_elem in Hin as [Hin|[-> ->]]; eauto.
  - by intros ->.
Qed.

Lemma sw_fetch_round_trip_witness :
  let cs :=
    [("three-timer-v5",
      {["./app.js" := ServiceWorker.mkResponse true "v1"]})] in
  (∀ n c, (n, c) ∈ cs → n ≠ ServiceWorker.CACHE_NAME →
          c !! "./app.js" = None)
  ∧ ServiceWorker.fetchHandler None "./app.js"
      (ServiceWorker.fetchHandler
         (Some (ServiceWorker.mkResponse true "v2")) "./app.js" cs).2
    = (Some (ServiceWorker.mkResponse true "v2"),
       (ServiceWorker.fetchHandler
          (Some (ServiceWorker.mkResponse true "v2")) "./app.js" cs).2).
Proof.
  intros cs.
  assert (H : ∀ n c, (n, c) ∈ cs → n ≠ ServiceWorker.CACHE_NAME →
                     c !! "./app.js" = None).
  { intros n c Hin Hne. apply list_elem_of_singleton in Hin.
    injection Hin as -> ->. done. }
  split; [exact H|].
  destruct (sw_fetch_round_trip cs "./app.js"
              (ServiceWorker.mkResponse true "v2") H) as (_ & H2 & _).
  exact H2.
Defined.

(** ** More on the shared alarm and on starting *)

(** The alarm is silenced by more than an acknowledge: [reset ()] or
    [destroy ()] of any Timer, and a mode change on any Timer that is not
    running, call [alarm.stop ()] too. So while one card is alarming,
    such an operation on another card turns the sound off and leaves the
    alarming card marked as it was. *)
Theorem operation_on_other_card_silences w e i j tj :
  i ≠ j → heap w !! j = Some tj →
  e = EvReset i ∨ e = EvDestroy i
  ∨ (∃ md ti, e = EvClickToggle i md ∧ heap w !! i = Some ti
              ∧ running ti = false) →
  AlarmSound.playing (alarm (step w e)) = false
  ∧ heap (step w e) !! j = Some tj.
Proof.
  intros Hne Hj [->|[->|(md & ti & -> & Hi & Hr)]]; simpl.
  - split; [by rewrite reset_alarm|by rewrite reset_heap_other].
  - split; [|by rewrite destroy_heap_other].
    unfold destroy. by rewrite stop_eq, stopAlarm_eq.
  - split; [|by rewrite clickToggle_heap_other].
    unfold clickToggle. rewrite Hi, Hr. by rewrite reset_alarm.
Qed.

Lemma operation_on_other_card_silences_witness :
  let w := run initialWorld
             [EvShowTimerScreen "ap"; EvClickArrow 0 UnitS "up";
              EvStart 0 0; EvTick 1 1000] in
  (1 ≠ 0)%nat
  ∧ heap w !! 0%nat = Some (mkTimer 0 Down false None 0 1 false 0 0 1 true)
  ∧ AlarmSound.playing (alarm w) = true
  ∧ AlarmSound.playing (alarm (step w (EvReset 1))) = false
  ∧ heap (step w (EvReset 1)) !! 0%nat
    = Some (mkTimer 0 Down false None 0 1 false 0 0 1 true).
Proof.
  intros w. split; [lia|]. split; [reflexivity|]. split; [reflexivity|].
  exact (operation_on_other_card_silences w (EvReset 1) 1%nat 0%nat
           (mkTimer 0 Down false None 0 1 false 0 0 1 true)
           ltac:(lia) eq_refl (or_introl eq_refl)).
Defined.

(** Starting does not skip a second: a run of the new callback within
    the first 1000 ms after [start ()] leaves [totalSeconds] at the value
    it had when [start ()] was called, with the Timer still running. *)
Theorem first_second_keeps_value w i t now now' :
  heap w !! i = Some t → starts t = true →
  now ≤ now' < now + 1000 →
  heap (tick (nextIntervalId w) now' (start i now w)) !! i
  = Some (set_totalSeconds (totalSeconds t)
            (set_intervalId (Some (nextIntervalId w))
               (set_running true t))).
Proof.
  intros Ht Hs Hn.
  pose proof (start_registers_closure w i t now Ht Hs) as Hk.
  assert (H2 : heap (start i now w) !! i
               = Some (set_intervalId (Some (nextIntervalId w))
                         (set_running true t))).
  { rewrite (start_go _ _ _ _ Ht Hs). simpl. apply lookup_insert_eq. }
  assert (He : (now' - now) / 1000 = 0) by (apply Z.div_small; lia).
  assert (Hv : recompute (mode t) (mkClosure i now (totalSeconds t)) now'
               = totalSeconds t
               ∧ (mode t = Up
                  ∨ 0 < recompute Down (mkClosure i now (totalSeconds t))
                          now')).
  { unfold recompute. simpl. rewrite He. unfold starts in Hs.
    apply andb_true_iff in Hs as [_ Hs]. apply negb_true_iff in Hs.
    destruct (mode t); [|split; [lia|by left]].
    rewrite bool_decide_eq_true_2 in Hs by done. simpl in Hs.
    apply Z.leb_gt in Hs. split; [lia|right; lia]. }
  destruct Hv as [Hv Hne].
  pose proof (tick_no_expiry (nextIntervalId w) now' (start i now w)
                (mkClosure i now (totalSeconds t)) _ Hk H2 Hne) as E.
  rewrite E, update_eq. cbn [owner heap].
  rewrite lookup_alter_eq, H2. cbn [fmap option_fmap option_map mode
    set_intervalId set_running] in *. by rewrite Hv.
Qed.

Lemma first_second_keeps_value_witness :
  heap stoppedStopwatch !! 0%nat
    = Some (mkTimer 0 Up false None 7 0 false 0 0 0 false)
  ∧ starts (mkTimer 0 Up false None 7 0 false 0 0 0 false) = true
  ∧ 9000 ≤ 9750 < 9000 + 1000
  ∧ totalSeconds
      <$> heap (tick (nextIntervalId stoppedStopwatch) 9750
                  (start 0 9000 stoppedStopwatch)) !! 0%nat
    = Some 7.
Proof.
  split; [reflexivity|]. split; [reflexivity|]. split; [lia|].
  rewrite (first_second_keeps_value stoppedStopwatch 0%nat
             (mkTimer 0 Up false None 7 0 false 0 0 0 false) 9000 9750
             eq_refl eq_refl ltac:(lia)).
  reflexivity.
Defined.

(** ** Installing the service worker *)

Lemma sw_put_keys name url r cs :
  ServiceWorker.keys (ServiceWorker.put name url r cs) = ServiceWorker.keys cs.
Proof.
  unfold ServiceWorker.keys, ServiceWorker.put.
  rewrite <- list_fmap_compose. apply list_fmap_ext. intros k [n c] _.
  simpl. by case_decide.
Qed.

Lemma sw_put_other name url r url' : ∀ cs,
  url ≠ url' →
  ServiceWorker.cachesMatch url' (ServiceWorker.put name url r cs)
  = ServiceWorker.cachesMatch url' cs.
Proof.
  induction cs as [|[n c] cs IH]; intros Hne; [done|].
  simpl. case_decide; simpl.
  - rewrite lookup_insert_ne by done. by rewrite IH.
  - by rewrite IH.
Qed.

Lemma sw_put_elem name url r cs n c :
  (n, c) ∈ ServiceWorker.put name url r cs →
  ∃ c0, (n, c0) ∈ cs ∧ (c = c0 ∨ n = name).
Proof.
  unfold ServiceWorker.put. rewrite list_elem_of_fmap.
  intros ([n0 c0] & E & Hin). simpl in E. case_decide.
  - injection E as -> ->. eauto.
  - injection E as -> ->. eauto.
Qed.

Lemma sw_puts_match name (net : string → option ServiceWorker.Response)
    urls : ∀ cs,
  name ∈ ServiceWorker.keys cs →
  (∀ u, u ∈ urls → is_Some (net u)) →
  (∀ u n c, u ∈ urls → (n, c) ∈ cs → n ≠ name → c !! u = None) →
  let cs' :=
    foldl (λ cs u, match net u with
                   | Some r => ServiceWorker.put name u r cs
                   | None => cs
                   end) cs urls in
  ∀ u, u ∈ urls → ServiceWorker.cachesMatch u cs' = net u.
Proof.
  induction urls as [|u0 urls IH] using rev_ind; intros cs Hk Hnet Hother.
  - intros cs' u Hu. by apply elem_of_nil in Hu.
  - intros cs' u Hu. unfold cs'. rewrite foldl_app. simpl.
    destruct (Hnet u0) as [r0 Hr0]; [apply elem_of_app; right;
      by apply list_elem_of_singleton|].
    rewrite Hr0.
    set (cs1 := foldl _ cs urls).
    assert (Hk1 : name ∈ ServiceWorker.keys cs1).
    { unfold cs1. clear -Hk. revert cs Hk.
      induction urls as [|x l IHl]; intros cs Hk; simpl; [done|].
      apply IHl. destruct (net x); [by rewrite sw_put_keys|done]. }
    assert (Ho1 : ∀ v n c, v ∈ urls ++ [u0] → (n, c) ∈ cs1 → n ≠ name →
                           c !! v = None).
    { unfold cs1. clear -Hother. revert cs Hother. generalize (urls ++ [u0]).
      intros all. induction urls as [|x l IHl]; intros cs Hother; simpl;
        [done|].
      apply IHl. intros v n c Hv Hin Hne. destruct (net x); [|by eauto].
      apply sw_put_elem in Hin as (c0 & Hin & [->|Hn]); [by eauto|done]. }
    destruct (decide (u0 = u)) as [->|Hne].
    + rewrite Hr0. apply sw_match_put; [done|]. intros n c. by apply Ho1.
    + rewrite sw_put_other by done.
      apply elem_of_app in Hu as [Hu|Hu];
        [|apply list_elem_of_singleton in Hu; congruence].
      apply IH; [done| | |done].
      * intros v Hv. apply Hnet, elem_of_app. by left.
      * intros v n c Hv. apply Hother, elem_of_app. by left.
Qed.

(** Installing makes the app available offline, all or nothing. If every
    asset is fetched with an ok response, then afterwards each asset's
    URL is answered from the Cache Storage with exactly that response
    (provided no cache of another name holds it); if one fetch fails or
    is not ok, nothing is stored: the storage is as [caches.open] left
    it. *)
Theorem sw_install_all_or_nothing net cs :
  (∀ u n c, u ∈ ServiceWorker.ASSETS → (n, c) ∈ cs →
            n ≠ ServiceWorker.CACHE_NAME → c !! u = None) →
  ((∀ u, u ∈ ServiceWorker.ASSETS →
         ∃ r, net u = Some r ∧ ServiceWorker.ok r = true) →
   ∀ u, u ∈ ServiceWorker.ASSETS →
        ServiceWorker.cachesMatch u (ServiceWorker.install net cs) = net u)
  ∧ ((∃ u, u ∈ ServiceWorker.ASSETS
           ∧ (net u = None
              ∨ ∃ r, net u = Some r ∧ ServiceWorker.ok r = false)) →
     ServiceWorker.install net cs
     = ServiceWorker.open ServiceWorker.CACHE_NAME cs).
Proof.
  intros Hother. unfold ServiceWorker.install, ServiceWorker.addAll. split.
  - intros Hall.
    assert (forallb (λ u, match net u with
                          | Some r => ServiceWorker.ok r
                          | None => false
                          end) ServiceWorker.ASSETS = true) as ->.
    { apply forallb_forall. intros u Hu. apply list_elem_of_In in Hu.
      destruct (Hall u Hu) as (r & -> & ->). done. }
    apply sw_puts_match.
    + apply sw_open_keys.
    + intros u Hu. destruct (Hall u Hu) as (r & -> & _). eauto.
    + intros u n c Hu Hin Hne.
      apply sw_open_elem in Hin as [Hin|[-> ->]]; eauto.
  - intros (u & Hu & Hbad).
    assert (forallb (λ u, match net u with
                          | Some r => ServiceWorker.ok r
                          | None => false
                          end) ServiceWorker.ASSETS = false) as ->; [|done].
    apply not_true_iff_false. intros Hf.
    rewrite forallb_forall in Hf. apply list_elem_of_In in Hu.
    specialize (Hf u Hu). destruct Hbad as [E|(r & E & Hr)]; rewrite E in Hf;
      congruence.
Qed.

Lemma sw_install_all_or_nothing_witness :
  let net := λ u : string, Some (ServiceWorker.mkResponse true u) in
  (∀ u n (c : gmap string ServiceWorker.Response),
     u ∈ ServiceWorker.ASSETS → (n, c) ∈ [] →
     n ≠ ServiceWorker.CACHE_NAME → c !! u = None)
  ∧ (∀ u, u ∈ ServiceWorker.ASSETS →
          ∃ r, net u = Some r ∧ ServiceWorker.ok r = true)
  ∧ ServiceWorker.cachesMatch "./app.js" (ServiceWorker.install net [])
    = Some (ServiceWorker.mkResponse true "./app.js").
Proof.
  intros net.
  assert (H1 : ∀ u n (c : gmap string ServiceWorker.Response),
                 u ∈ ServiceWorker.ASSETS → (n, c) ∈ [] →
                 n ≠ ServiceWorker.CACHE_NAME → c !! u = None).
  { intros u n c _ Hin. by apply elem_of_nil in Hin. }
  assert (H2 : ∀ u, u ∈ ServiceWorker.ASSETS →
                    ∃ r, net u = Some r ∧ ServiceWorker.ok r = true).
  { intros u _. by eexists. }
  split; [exact H1|]. split; [exact H2|].
  destruct (sw_install_all_or_nothing net [] H1) as [H _].
  apply (H H2). unfold ServiceWorker.ASSETS.
  do 3 (apply elem_of_cons; right). apply elem_of_cons. by left.
Defined.

(** * Ticks are anchored at [start ()] *)

(** Interval ids are not reused: what is registered under an allotted id
    never changes, and once removed it does not come back. *)
Lemma callback_is_run k c evs w :
  callback_is k c w → callback_is k c (run w evs).
Proof.
  apply inv_run; clear w.
  - intros i f w _ H. by rewrite update_eq.
  - by intros i a w H.
  - intros i w [H1 H2]. rewrite stop_eq. split; [done|]. simpl.
    intros c' Hk. apply stopIntervals_sub in Hk. eauto.
  - intros i now w [H1 H2].
    destruct (starts_or_not i w) as [(t & Ht & Hs)|Hn];
      [|by rewrite start_noop].
    rewrite (start_go _ _ _ _ Ht Hs). split; simpl; [lia|].
    intros c'. rewrite lookup_insert_ne by lia. eauto.
  - by intros idx w H.
  - by intros w H.
Qed.

Lemma callback_gone_run k evs w :
  callback_gone k w → callback_gone k (run w evs).
Proof.
  apply inv_run; clear w.
  - intros i f w _ H. by rewrite update_eq.
  - by intros i a w H.
  - intros i w [H1 H2]. rewrite stop_eq. split; [done|]. simpl.
    destruct (stopIntervals i w !! k) as [c'|] eqn:Hk; [|done].
    apply stopIntervals_sub in Hk. congruence.
  - intros i now w [H1 H2].
    destruct (starts_or_not i w) as [(t & Ht & Hs)|Hn];
      [|by rewrite start_noop].
    rewrite (start_go _ _ _ _ Ht Hs). split; simpl; [lia|].
    by rewrite lookup_insert_ne by lia.
  - by intros idx w H.
  - by intros w H.
Qed.

Lemma mode_of_config (x y : option Timer) :
  config <$> x = config <$> y → mode <$> x = mode <$> y.
Proof. destruct x, y; simpl; intros [=]; congruence. Qed.

(** No step changes the mode of a Timer that is running. *)
Lemma running_mode_step w e i t :
  reachable w → heap w !! i = Some t → running t = true →
  mode <$> heap (step w e) !! i = Some (mode t).
Proof.
  intros Hw Ht Hr.
  apply wf_reachable in Hw as [(_ & _ & Hf) _].
  assert (E : mode <$> heap w !! i = Some (mode t)) by by rewrite Ht.
  rewrite <- E. destruct e; simpl.
  - apply mode_of_config, showTimerScreen_heap_old. eauto.
  - by apply proj_destroyAll.
  - destruct (decide (i0 = i)) as [->|Hne].
    + unfold clickToggle. by rewrite Ht, Hr.
    + by rewrite clickToggle_heap_other.
  - destruct (decide (i0 = i)) as [->|Hne].
    + unfold clickArrow. by rewrite Ht, Hr.
    + by rewrite clickArrow_heap_other.
  - by apply proj_clickRec.
  - by apply proj_start.
  - by apply proj_stop.
  - by apply proj_reset.
  - by apply proj_clickCard.
  - by apply proj_stopAlarm.
  - by apply proj_destroy.
  - by apply proj_tick.
Qed.

(** Whatever happens after a callback was registered, as long as it is
    registered it is the same callback, of a Timer in the same mode. *)
Lemma run_keeps_anchor k c evs : ∀ w t,
  reachable w → callback_is k c w →
  intervals w !! k = Some c → heap w !! owner c = Some t →
  is_Some (intervals (run w evs) !! k) →
  reachable (run w evs)
  ∧ intervals (run w evs) !! k = Some c
  ∧ ∃ t', heap (run w evs) !! owner c = Some t' ∧ mode t' = mode t.
Proof.
  induction evs as [|e evs IH]; intros w t Hw Hc Hk Ht Hsome; [by eauto|].
  simpl in *.
  pose proof (callback_is_run k c [e] w Hc) as Hc1. simpl in Hc1.
  destruct (intervals (step w e) !! k) as [c1|] eqn:Hk1.
  - assert (c1 = c) by (destruct Hc1 as [_ H]; eauto). subst c1.
    pose proof (wf_reachable w Hw) as [(Ho & _) _].
    destruct (Ho k c Hk) as (t0 & Ht0 & Hr & _).
    assert (t0 = t) by congruence. subst t0.
    pose proof (running_mode_step w e (owner c) t Hw Ht Hr) as Hm.
    destruct (heap (step w e) !! owner c) as [t1|] eqn:Ht1; [|done].
    injection Hm as Hm.
    destruct (IH (step w e) t1) as (R1 & R2 & t' & R3 & R4);
      [by apply reachable_step|done|done|done|done|].
    split; [done|]. split; [done|]. exists t'. split; [done|]. congruence.
  - exfalso. destruct Hc1 as [Hlt _].
    destruct (callback_gone_run k evs (step w e) (conj Hlt Hk1)) as [_ Hn].
    rewrite Hn in Hsome. by destruct Hsome.
Qed.

Lemma destroyAll_intervals_sub w k c :
  intervals (destroyAll w) !! k = Some c → intervals w !! k = Some c.
Proof. unfold destroyAll. simpl. apply destroys_intervals_sub. Qed.

(** A step registers a callback only by a [start ()] that gets past its
    guards, with the clock reading and the [totalSeconds] of that call. *)
Lemma step_intervals_origin w e k c :
  intervals (step w e) !! k = Some c →
  intervals w !! k = Some c
  ∨ ∃ i now t, e = EvStart i now ∧ heap w !! i = Some t
               ∧ starts t = true ∧ k = nextIntervalId w
               ∧ c = mkClosure i now (totalSeconds t).
Proof.
  destruct e; cbn [step].
  - unfold showTimerScreen. destruct (MODES modeKey) as [n|]; [|by left].
    destruct (pushTimers_spec n 0 (destroyAll w)) as (_ & _ & -> & _).
    intros H. left. by apply destroyAll_intervals_sub.
  - intros H. left. by apply destroyAll_intervals_sub.
  - unfold clickToggle. destruct (heap w !! i) as [t|]; [|by left].
    destruct (running t); [by left|]. rewrite reset_intervals.
    intros H. apply stopIntervals_sub in H. left. by rewrite update_eq in H.
  - unfold clickArrow. destruct (heap w !! i) as [t|]; [|by left].
    destruct (running t); [by left|]. rewrite update_eq. by left.
  - unfold clickRec. destruct (heap w !! i) as [t|]; [|by left].
    rewrite update_eq. by left.
  - destruct (starts_or_not i w) as [(t & Ht & Hs)|Hn].
    + rewrite (start_go _ _ _ _ Ht Hs). simpl. intros H.
      apply lookup_insert_Some in H as [[<- <-]|[_ H]]; [right|by left].
      by exists i, now, t.
    + rewrite start_noop by done. by left.
  - rewrite stop_eq. simpl. intros H. left. by apply stopIntervals_sub in H.
  - rewrite reset_intervals. intros H. left.
    by apply stopIntervals_sub in H.
  - unfold clickCard. destruct (heap w !! i) as [t|]; [|by left].
    destruct (alarming t); [|by left]. rewrite stopAlarm_eq. by left.
  - rewrite stopAlarm_eq. by left.
  - intros H. left. by apply destroy_intervals_sub in H.
  - intros H. left. by apply tick_intervals_sub in H.
Qed.

(** Every callback registered in a reachable world was registered by a
    [start ()] made in a reachable world: its [startTime] is the clock
    reading of that call and its [startSeconds] the [totalSeconds] that
    the Timer held then. *)
Lemma callback_was_started w k c :
  reachable w → intervals w !! k = Some c →
  ∃ w0 t0 evs,
    reachable w0 ∧ heap w0 !! owner c = Some t0 ∧ starts t0 = true
    ∧ k = nextIntervalId w0 ∧ startSeconds c = totalSeconds t0
    ∧ w = run (start (owner c) (startTime c) w0) evs.
Proof.
  intros [evs ->]. revert k c.
  induction evs as [|e evs IH] using rev_ind; intros k c Hk; [done|].
  unfold run in Hk. rewrite foldl_app in Hk. simpl in Hk.
  fold (run initialWorld evs) in Hk.
  apply step_intervals_origin in Hk
    as [Hk|(i & now & t & -> & Ht & Hs & -> & ->)].
  - destruct (IH k c Hk) as (w0 & t0 & evs0 & H1 & H2 & H3 & H4 & H5 & H6).
    exists w0, t0, (evs0 ++ [e]). repeat split; try done.
    unfold run in *. by rewrite !foldl_app, <- H6.
  - exists (run initialWorld evs), t, []. simpl.
    repeat split; try done; [by eexists|].
    unfold run. by rewrite foldl_app.
Qed.

(** Hence every running Timer of a reachable world is running on the
    callback of a [start ()] that got past its guards in a reachable
    world. *)
Lemma running_timer_was_started w' i t' :
  reachable w' → heap w' !! i = Some t' → running t' = true →
  ∃ w t t0 evs,
    reachable w ∧ heap w !! i = Some t ∧ starts t = true
    ∧ w' = run (start i t0 w) evs
    ∧ intervalId t' = Some (nextIntervalId w)
    ∧ is_Some (intervals w' !! nextIntervalId w).
Proof.
  intros Hw Ht Hr. destruct (polling_ok_reachable w' Hw) as [_ Hp].
  specialize (Hp i t' Ht). rewrite Hr in Hp.
  destruct Hp as (k & c & Hid & Hk & <-).
  destruct (callback_was_started w' k c Hw Hk)
    as (w & t & evs & H1 & H2 & H3 & -> & _ & H6).
  exists w, t, (startTime c), evs. by eauto 10.
Qed.

(** C1. Let [start ()] get past its guards on a Timer that holds
    [totalSeconds = v], with [Date.now ()] returning [t0]. Whatever
    happens afterwards (runs of this or of other callbacks at any clock
    readings, late or skipped, and any input), as long as the callback
    that this [start ()] registered is still registered, the Timer is
    running, and a run of the callback at clock reading [now] stores
    [v + floor ((now - t0) / 1000)] in CountUp mode and
    [max (0, v - floor ((now - t0) / 1000))] in CountDown mode: a value
    computed from [now] and from what [start ()] captured, in which the
    [totalSeconds] left by earlier runs plays no part. By
    [running_timer_was_started] every running Timer of a reachable world
    is in this situation. *)
Theorem tick_recomputes_from_clock w i t t0 evs now :
  reachable w → heap w !! i = Some t → starts t = true →
  let k := nextIntervalId w in
  let w' := run (start i t0 w) evs in
  is_Some (intervals w' !! k) →
  (∃ t', heap w' !! i = Some t' ∧ running t' = true
         ∧ intervalId t' = Some k ∧ mode t' = mode t)
  ∧ totalSeconds <$> heap (tick k now w') !! i
    = Some (match mode t with
            | Up => totalSeconds t + (now - t0) / 1000
            | Down => Z.max 0 (totalSeconds t - (now - t0) / 1000)
            end).
Proof.
  intros Hw Ht Hs k w' Hsome.
  set (c := mkClosure i t0 (totalSeconds t)).
  pose proof (start_go i t0 w t Ht Hs) as E.
  assert (Hk : intervals (start i t0 w) !! k = Some c)
    by by apply start_registers_closure.
  assert (H2 : heap (start i t0 w) !! owner c
               = Some (set_intervalId (Some k) (set_running true t))).
  { rewrite E. simpl. apply lookup_insert_eq. }
  assert (Hc : callback_is k c (start i t0 w)).
  { rewrite E. split; simpl; [unfold k; lia|].
    intros c'. rewrite lookup_insert_eq. by intros [= <-]. }
  destruct (run_keeps_anchor k c evs (start i t0 w) _
              (reachable_step w (EvStart i t0) Hw) Hc Hk H2 Hsome)
    as (Hw' & Hk' & t' & Ht' & Hm).
  fold w' in Hw', Hk', Ht'. simpl in Hm.
  pose proof (wf_reachable w' Hw') as [(Ho & _) _].
  destruct (Ho k c Hk') as (t1 & Ht1 & Hr & Hid).
  assert (t1 = t') by congruence. subst t1.
  split; [by exists t'|].
  pose proof (tick_total k now w' c t' Hk' Ht') as Htot.
  rewrite Hm in Htot. exact Htot.
Qed.

Lemma tick_recomputes_from_clock_witness :
  let evs :=
    [EvTick 2 9250; EvClickRec 0; EvStart 0 9900; EvClickArrow 0 UnitS "up";
     EvTick 2 10400] in
  reachable stoppedStopwatch
  ∧ heap stoppedStopwatch !! 0%nat
    = Some (mkTimer 0 Up false None 7 0 false 0 0 0 false)
  ∧ starts (mkTimer 0 Up false None 7 0 false 0 0 0 false) = true
  ∧ nextIntervalId stoppedStopwatch = 2%nat
  ∧ is_Some (intervals (run (start 0 9000 stoppedStopwatch) evs) !! 2%nat)
  ∧ totalSeconds
      <$> heap (tick 2 12100 (run (start 0 9000 stoppedStopwatch) evs))
          !! 0%nat
    = Some (7 + (12100 - 9000) / 1000).
Proof.
  intros evs.
  assert (Hr : reachable stoppedStopwatch) by (eexists; reflexivity).
  assert (Hs : is_Some (intervals (run (start 0 9000 stoppedStopwatch) evs)
                          !! 2%nat))
    by (eexists; reflexivity).
  split; [exact Hr|]. split; [reflexivity|]. split; [reflexivity|].
  split; [reflexivity|]. split; [exact Hs|].
  destruct (tick_recomputes_from_clock stoppedStopwatch 0%nat
              (mkTimer 0 Up false None 7 0 false 0 0 0 false)
              9000 evs 12100 Hr eq_refl eq_refl Hs) as [_ H].
  exact H.
Defined.
